(** * Battleship Guru: the prediction engine of [guru.py]

    A shallow embedding of the [Battleship] class (board state, probability
    map, directional hit map, prediction, sink handling) and the properties
    of its natural-language specification.

    Python values are modelled as follows.
    - [int] is [Z]; the cells of the numpy [int32] probability map are [Z]
      with the two's-complement wrap-around written out ([wrap32]).
    - a Python [list] is a [list]; subscripting follows Python: an index
      [i] with [-len <= i < 0] denotes [len + i], anything outside
      [-len <= i < len] raises [IndexError].
    - a tile mark is the one-character [string] the code stores
      (".", "+", "o", "x", "#").
    - a [dict] is an association list in insertion order.
    - exceptions are values of [exn]; a method is a function from the
      object's state to the new state and either a value or a raised
      exception, so that the state left behind by a raise is visible.
    - [random.choice] takes the index drawn as an explicit argument.
    - the [LOGGING] prints and [show] have no effect on the state and are
      left out; the [numpy.int64] coordinates that [predict] stores are
      integers of the grid and are [Z] as well. *)

From stdpp Require Import base list strings sorting.
From Stdlib Require Import ZArith Lia.

Open Scope Z_scope.

(** ** Exceptions and results *)

Inductive exn : Type :=
  | IndexError
  | ValueError
  | KeyError
  | AttributeError.

Inductive result (A : Type) : Type :=
  | Ok (a : A)
  | Raise (e : exn).

Arguments Ok {A} a.
Arguments Raise {A} e.

Definition rbind {A B} (r : result A) (k : A -> result B) : result B :=
  match r with
  | Ok a => k a
  | Raise e => Raise e
  end.

Notation "x <-? r ;; k" := (rbind r (fun x => k))
  (at level 100, r at next level, right associativity).

(** ** Python sequences *)

Module Py.

(** [range(a, b)] *)
Definition range (a b : Z) : list Z := seqZ a (b - a).

(** The position a subscript [i] denotes in a sequence of length [len]. *)
Definition norm_index (len i : Z) : option nat :=
  if (0 <=? i) && (i <? len) then Some (Z.to_nat i)
  else if (- len <=? i) && (i <? 0) then Some (Z.to_nat (len + i))
  else None.

(** [l[i]] *)
Definition getitem {A} (l : list A) (i : Z) : result A :=
  match norm_index (Z.of_nat (length l)) i with
  | Some n =>
      match l !! n with
      | Some a => Ok a
      | None => Raise IndexError
      end
  | None => Raise IndexError
  end.

(** [l[i] = a] *)
Definition setitem {A} (l : list A) (i : Z) (a : A) : result (list A) :=
  match norm_index (Z.of_nat (length l)) i with
  | Some n => Ok (<[n:=a]> l)
  | None => Raise IndexError
  end.

(** [m[i][j]] *)
Definition getitem2 {A} (m : list (list A)) (i j : Z) : result A :=
  row <-? getitem m i ;;
  getitem row j.

(** [m[i][j] = a]: the row object [m[i]] is fetched, then updated in
    place. *)
Definition setitem2 {A} (m : list (list A)) (i j : Z) (a : A)
  : result (list (list A)) :=
  row <-? getitem m i ;;
  row' <-? setitem row j a ;;
  setitem m i row'.

(** [l.remove(a)]: drops the first element equal to [a]. *)
Fixpoint remove {A} `{EqDecision A} (a : A) (l : list A)
  : result (list A) :=
  match l with
  | [] => Raise ValueError
  | b :: l' =>
      if decide (b = a) then Ok l'
      else l'' <-? remove a l' ;; Ok (b :: l'')
  end.

(** [l.sort(key=key)]: the sort is stable, so its result is the one an
    insertion sort gives. *)
Fixpoint insert_by {A} (key : A -> Z) (a : A) (l : list A) : list A :=
  match l with
  | [] => [a]
  | b :: l' =>
      if key a <=? key b then a :: b :: l' else b :: insert_by key a l'
  end.

Definition sort_by {A} (key : A -> Z) (l : list A) : list A :=
  foldr (insert_by key) [] l.

(** [random.choice(l)], where [r] is the index the generator draws. *)
Definition choice {A} (r : nat) (l : list A) : result A :=
  match l with
  | [] => Raise IndexError
  | _ =>
      match l !! (r mod length l)%nat with
      | Some a => Ok a
      | None => Raise IndexError
      end
  end.

(** A [dict] in insertion order. *)
Definition dict (K V : Type) : Type := list (K * V).

(** [d[k] = v] *)
Fixpoint dict_set {K V} `{EqDecision K} (d : dict K V) (k : K) (v : V)
  : dict K V :=
  match d with
  | [] => [(k, v)]
  | (k', v') :: d' =>
      if decide (k' = k) then (k', v) :: d'
      else (k', v') :: dict_set d' k v
  end.

(** [d[k]] *)
Fixpoint dict_get {K V} `{EqDecision K} (d : dict K V) (k : K)
  : result V :=
  match d with
  | [] => Raise KeyError
  | (k', v') :: d' => if decide (k' = k) then Ok v' else dict_get d' k
  end.

(** [max(l)] of a non-empty list of integers. *)
Definition max_of (z : Z) (l : list Z) : Z := foldl Z.max z l.

End Py.

(** ** Numpy cells *)

(** The value an [int32] cell holds after an operation whose exact result
    is [z]. *)
Definition wrap32 (z : Z) : Z := (z + 2 ^ 31) mod 2 ^ 32 - 2 ^ 31.

(** ** The game object *)

Definition Coord : Type := Z * Z.

Record Battleship : Type := mkBattleship {
  ships : list Z;
  mode : string;
  width : Z;
  height : Z;
  board : list (list string);
  hit_mem : list Coord;
  prob_map : option (list (list Z));
  pred_x : option Z;
  pred_y : option Z
}.

Definition set_ships (v : list Z) (g : Battleship) : Battleship :=
  mkBattleship v (mode g) (width g) (height g) (board g) (hit_mem g)
    (prob_map g) (pred_x g) (pred_y g).

Definition set_board (v : list (list string)) (g : Battleship) : Battleship :=
  mkBattleship (ships g) (mode g) (width g) (height g) v (hit_mem g)
    (prob_map g) (pred_x g) (pred_y g).

Definition set_hit_mem (v : list Coord) (g : Battleship) : Battleship :=
  mkBattleship (ships g) (mode g) (width g) (height g) (board g) v
    (prob_map g) (pred_x g) (pred_y g).

Definition set_prob_map (v : list (list Z)) (g : Battleship) : Battleship :=
  mkBattleship (ships g) (mode g) (width g) (height g) (board g) (hit_mem g)
    (Some v) (pred_x g) (pred_y g).

Definition set_pred_x (v : Z) (g : Battleship) : Battleship :=
  mkBattleship (ships g) (mode g) (width g) (height g) (board g) (hit_mem g)
    (prob_map g) (Some v) (pred_y g).

Definition set_pred_y (v : Z) (g : Battleship) : Battleship :=
  mkBattleship (ships g) (mode g) (width g) (height g) (board g) (hit_mem g)
    (prob_map g) (pred_x g) (Some v).

(** ** Methods: state and exceptions *)

Definition M (A : Type) : Type := Battleship -> Battleship * result A.

Definition ret {A} (a : A) : M A := fun g => (g, Ok a).

Definition bind {A B} (m : M A) (k : A -> M B) : M B :=
  fun g =>
    match m g with
    | (g', Ok a) => k a g'
    | (g', Raise e) => (g', Raise e)
    end.

Notation "x <- m ;; k" := (bind m (fun x => k))
  (at level 100, m at next level, right associativity).

(** Reading the object. *)
Definition self : M Battleship := fun g => (g, Ok g).

(** An expression that reads the object and may raise. *)
Definition eval {A} (f : Battleship -> result A) : M A := fun g => (g, f g).

(** An assignment to an attribute. *)
Definition assign (f : Battleship -> Battleship) : M unit :=
  fun g => (f g, Ok tt).

(** [for a in l: body] *)
Fixpoint for_each {A} (l : list A) (body : A -> M unit) : M unit :=
  match l with
  | [] => ret tt
  | a :: l' => _ <- body a ;; for_each l' body
  end.

(** [if b: m] *)
Definition when (b : bool) (m : M unit) : M unit := if b then m else ret tt.

(** [s != t] on strings *)
Definition str_ne (s t : string) : bool := negb (String.eqb s t).

(** [self.board[x][y]] *)
Definition board_get (g : Battleship) (x y : Z) : result string :=
  Py.getitem2 (board g) x y.

(** [self.board[x][y] = v] *)
Definition board_set (x y : Z) (v : string) : M unit :=
  fun g =>
    match Py.setitem2 (board g) x y v with
    | Ok b => (set_board b g, Ok tt)
    | Raise e => (g, Raise e)
    end.

(** [__init__] *)
Definition init (ships : list Z) (mode : string) (width height : Z)
  : Battleship :=
  mkBattleship ships mode width height
    (replicate (Z.to_nat width) (replicate (Z.to_nat height) "."%string))
    [] None None None.

(** ** Probability map builder *)

(** One pass of the [shift] loop: clears [x_valid] / [y_valid] when the
    tile [shift] steps right / down of [(x, y)] is off the grid or not
    ".".  The grid test comes first, so the board is not read off-grid. *)
Definition check_shift (g : Battleship) (x y : Z) (valid : bool * bool)
    (shift : Z) : result (bool * bool) :=
  x_bad <-? (if x + shift >=? width g then Ok true
             else c <-? board_get g (x + shift) y ;; Ok (str_ne c ".")) ;;
  y_bad <-? (if y + shift >=? height g then Ok true
             else c <-? board_get g x (y + shift) ;; Ok (str_ne c ".")) ;;
  Ok (if x_bad then false else valid.1, if y_bad then false else valid.2).

Fixpoint rfold {A B} (f : B -> A -> result B) (l : list A) (b : B)
  : result B :=
  match l with
  | [] => Ok b
  | a :: l' => b' <-? f b a ;; rfold f l' b'
  end.

(** The pair [(x_valid, y_valid)] after the [shift] loop. *)
Definition check_valid (g : Battleship) (ship x y : Z)
  : result (bool * bool) :=
  rfold (check_shift g x y) (Py.range 0 ship) (true, true).

(** [np.zeros((w, h), dtype="int32")] *)
Definition np_zeros (w h : Z) : result (list (list Z)) :=
  if (w <? 0) || (h <? 0) then Raise ValueError
  else Ok (replicate (Z.to_nat w) (replicate (Z.to_nat h) 0)).

(** [self.prob_map[x][y] += 1] on an [int32] array *)
Definition prob_incr (x y : Z) : M unit :=
  fun g =>
    match prob_map g with
    | None => (g, Raise AttributeError)
    | Some pm =>
        match (v <-? Py.getitem2 pm x y ;;
               Py.setitem2 pm x y (wrap32 (v + 1))) with
        | Ok pm' => (set_prob_map pm' g, Ok tt)
        | Raise e => (g, Raise e)
        end
    end.

(** The body of the [x] loop. *)
Definition prob_origin (ship x y : Z) : M unit :=
  valid <- eval (fun g => check_valid g ship x y) ;;
  _ <- when valid.1
         (for_each (Py.range 0 ship) (fun x_shift => prob_incr (x + x_shift) y)) ;;
  when valid.2
    (for_each (Py.range 0 ship) (fun y_shift => prob_incr x (y + y_shift))).

Definition _gen_prob_map : M unit :=
  g <- self ;;
  zeros <- eval (fun _ => np_zeros (width g) (height g)) ;;
  _ <- assign (set_prob_map zeros) ;;
  g <- self ;;
  for_each (ships g) (fun ship =>
    g <- self ;;
    for_each (Py.range 0 (height g)) (fun y =>
      g <- self ;;
      for_each (Py.range 0 (width g)) (fun x =>
        prob_origin ship x y))).

(** ** Directional hit scorer *)

(** A counting loop with [break]: walks [tiles], stops at the first one
    that is not ".", and returns the counter. *)
Fixpoint count_run (g : Battleship) (tiles : list Coord) (n : Z)
  : result Z :=
  match tiles with
  | [] => Ok n
  | (x, y) :: rest =>
      c <-? board_get g x y ;;
      if str_ne c "." then Ok n else count_run g rest (n + 1)
  end.

Definition _gen_hit_map (g : Battleship) (tile_x tile_y : Z)
  : result (Py.dict Coord Z) :=
  right <-? count_run g
    ((fun l => (l, tile_y)) <$> Py.range (tile_x + 1) (width g)) 0 ;;
  left <-? count_run g
    ((fun l => (l, tile_y)) <$> reverse (Py.range 0 tile_x)) 0 ;;
  down <-? count_run g
    ((fun l => (tile_x, l)) <$> Py.range (tile_y + 1) (height g)) 0 ;;
  up <-? count_run g
    ((fun l => (tile_x, l)) <$> reverse (Py.range 0 tile_y)) 0 ;;
  Ok (Py.dict_set (Py.dict_set (Py.dict_set (Py.dict_set []
        (tile_x + 1, tile_y) right)
        (tile_x - 1, tile_y) left)
        (tile_x, tile_y + 1) down)
        (tile_x, tile_y - 1) up).

(** ** Prediction engine *)

(** [np.max(a)] of a two-dimensional array; numpy refuses an empty one. *)
Definition np_max (a : list (list Z)) : result Z :=
  match concat a with
  | [] => Raise ValueError
  | z :: l => Ok (Py.max_of z l)
  end.

(** [np.argwhere(a == v)]: the index pairs in row-major order. *)
Definition np_argwhere_eq (a : list (list Z)) (v : Z) : list Coord :=
  concat (imap (fun i row =>
    concat (imap (fun j c =>
      if c =? v then [(Z.of_nat i, Z.of_nat j)] else []) row)) a).

(** The entry [k : self._gen_hit_map(h[0], h[1])[k]] of a dict display. *)
Definition extension_score (g : Battleship) (h k : Coord) : result Z :=
  hm <-? _gen_hit_map g h.1 h.2 ;;
  Py.dict_get hm k.

(** The [hit_map] of [predict], for a non-empty hit memory.  With two or
    more hits the hit memory is sorted in place first. *)
Definition hit_candidates : M (Py.dict Coord Z) :=
  g <- self ;;
  if (length (hit_mem g) =? 1)%nat then
    eval (fun g =>
      h <-? Py.getitem (hit_mem g) 0 ;;
      _gen_hit_map g h.1 h.2)
  else
    first <- eval (fun g => Py.getitem (hit_mem g) 0) ;;
    last <- eval (fun g => Py.getitem (hit_mem g) (-1)) ;;
    if first.1 =? last.1 then
      _ <- assign (fun g => set_hit_mem (Py.sort_by snd (hit_mem g)) g) ;;
      lower_hit <- eval (fun g => Py.getitem (hit_mem g) (-1)) ;;
      upper_hit <- eval (fun g => Py.getitem (hit_mem g) 0) ;;
      eval (fun g =>
        let k1 := (lower_hit.1, lower_hit.2 + 1) in
        v1 <-? extension_score g lower_hit k1 ;;
        let k2 := (upper_hit.1, upper_hit.2 - 1) in
        v2 <-? extension_score g upper_hit k2 ;;
        Ok (Py.dict_set (Py.dict_set [] k1 v1) k2 v2))
    else
      _ <- assign (fun g => set_hit_mem (Py.sort_by fst (hit_mem g)) g) ;;
      left_hit <- eval (fun g => Py.getitem (hit_mem g) (-1)) ;;
      right_hit <- eval (fun g => Py.getitem (hit_mem g) 0) ;;
      eval (fun g =>
        let k1 := (left_hit.1 + 1, left_hit.2) in
        v1 <-? extension_score g left_hit k1 ;;
        let k2 := (right_hit.1 - 1, right_hit.2) in
        v2 <-? extension_score g right_hit k2 ;;
        Ok (Py.dict_set (Py.dict_set [] k1 v1) k2 v2)).

(** [max(hit_map.values())] *)
Definition dict_max (d : Py.dict Coord Z) : result Z :=
  match d.*2 with
  | [] => Raise ValueError
  | v :: vs => Ok (Py.max_of v vs)
  end.

(** [[key for key, value in hit_map.items() if value == m]] *)
Definition pred_choices (d : Py.dict Coord Z) (m : Z) : list Coord :=
  (filter (fun kv => kv.2 = m) d).*1.

(** The coordinate [pred] chosen by [predict]; [r] is the random draw. *)
Definition choose_pred (r : nat) : M Coord :=
  g <- self ;;
  if (length (hit_mem g) =? 0)%nat then
    _ <- _gen_prob_map ;;
    eval (fun g =>
      match prob_map g with
      | None => Raise AttributeError
      | Some pm => m <-? np_max pm ;; Py.choice r (np_argwhere_eq pm m)
      end)
  else
    hit_map <- hit_candidates ;;
    eval (fun _ =>
      m <-? dict_max hit_map ;;
      Py.choice r (pred_choices hit_map m)).

Definition predict (r : nat) : M unit :=
  pred <- choose_pred r ;;
  _ <- assign (set_pred_x pred.1) ;;
  _ <- assign (set_pred_y pred.2) ;;
  board_set pred.1 pred.2 "+".

(** The attributes [pred_x], [pred_y]; they do not exist before the first
    [predict]. *)
Definition prediction (g : Battleship) : result Coord :=
  match pred_x g, pred_y g with
  | Some x, Some y => Ok (x, y)
  | _, _ => Raise AttributeError
  end.

(** ** Sink handler *)

Definition _clear_tile (tile_x tile_y : Z) : M unit :=
  c <- eval (fun g => board_get g tile_x tile_y) ;;
  when (str_ne c "#") (board_set tile_x tile_y "o").

Definition _clear_edges (tile_x tile_y : Z) : M unit :=
  _ <- _clear_tile (tile_x + 1) tile_y ;;
  _ <- _clear_tile (tile_x - 1) tile_y ;;
  _ <- _clear_tile tile_x (tile_y + 1) ;;
  _ <- _clear_tile tile_x (tile_y - 1) ;;
  _ <- _clear_tile (tile_x + 1) (tile_y + 1) ;;
  _ <- _clear_tile (tile_x - 1) (tile_y - 1) ;;
  _ <- _clear_tile (tile_x + 1) (tile_y - 1) ;;
  _clear_tile (tile_x - 1) (tile_y + 1).

(** [self.hit_mem.remove((x, y))] *)
Definition hit_mem_remove (t : Coord) : M unit :=
  fun g =>
    match Py.remove t (hit_mem g) with
    | Ok l => (set_hit_mem l g, Ok tt)
    | Raise e => (g, Raise e)
    end.

(** The body of either [while] loop of [sink], at the tile [(x, y)]. *)
Definition sink_tile (x y : Z) : M unit :=
  _ <- board_set x y "#" ;;
  _ <- hit_mem_remove (x, y) ;;
  g <- self ;;
  when (String.eqb (mode g) "n") (_clear_edges x y).

(** The loop over [range(len(self.ships))] with [del] and [break]. *)
Fixpoint remove_ship (sunk : Z) (l : list Z) : list Z :=
  match l with
  | [] => []
  | s :: l' => if s =? sunk then l' else s :: remove_ship sunk l'
  end.

(** [sink]: each [while] loop steps its counter by one from the lower to
    the higher end, which is a [for] over that range. *)
Definition sink (start_x start_y end_x end_y : Z) : M bool :=
  sunk <-
    (if start_x =? end_x then
       let '(start_y, end_y) :=
         if start_y >? end_y then (end_y, start_y) else (start_y, end_y) in
       let sunk := end_y - start_y + 1 in
       _ <- for_each (Py.range start_y (end_y + 1)) (fun y =>
              sink_tile start_x y) ;;
       ret sunk
     else
       let '(start_x, end_x) :=
         if start_x >? end_x then (end_x, start_x) else (start_x, end_x) in
       let sunk := end_x - start_x + 1 in
       _ <- for_each (Py.range start_x (end_x + 1)) (fun x =>
              sink_tile x start_y) ;;
       ret sunk) ;;
  _ <- assign (fun g => set_ships (remove_ship sunk (ships g)) g) ;;
  g <- self ;;
  ret (length (ships g) =? 0)%nat.

(** ** Result update *)

Definition update (res : string) : M unit :=
  p <- eval prediction ;;
  _ <- board_set p.1 p.2 res ;;
  when (String.eqb res "x")
    (assign (fun g => set_hit_mem (hit_mem g ++ [p]) g)).

(** ** The game loop of [main] *)

(** What the player answers after a prediction. *)
Inductive report : Type :=
  | Miss
  | Hit
  | HitSunk (tile_1 tile_2 : Coord).

(** One pass of the [while not game_over] loop; the value is
    [game_over]. *)
Definition turn (r : nat) (rep : report) : M bool :=
  _ <- predict r ;;
  match rep with
  | Miss => _ <- update "o" ;; ret false
  | Hit => _ <- update "x" ;; ret false
  | HitSunk t1 t2 => _ <- update "x" ;; sink t1.1 t1.2 t2.1 t2.2
  end.

(** The states the loop can be in when it is about to call [predict]. *)
Inductive reachable : Battleship -> Prop :=
  | reach_init ships mode width height :
      reachable (init ships mode width height)
  | reach_turn g r rep g' :
      reachable g -> turn r rep g = (g', Ok false) -> reachable g'.

(** The state after a scripted sequence of turns, stopping at game over
    or at the first exception. *)
Fixpoint play (script : list (nat * report)) : M bool :=
  match script with
  | [] => ret false
  | (r, rep) :: script' =>
      over <- turn r rep ;;
      if over then ret true else play script'
  end.

(** ** The notions of the specification *)

(** [(x, y)] is a tile of the grid. *)
Definition in_bounds (g : Battleship) (c : Coord) : bool :=
  (0 <=? c.1) && (c.1 <? width g) && (0 <=? c.2) && (c.2 <? height g).

(** The entry of a two-dimensional array at a non-negative position. *)
Definition grid_at {A} (m : list (list A)) (c : Coord) : option A :=
  col ← m !! Z.to_nat c.1; col !! Z.to_nat c.2.

(** The mark of a tile of the grid; off the grid there is none. *)
Definition mark (g : Battleship) (c : Coord) : option string :=
  if in_bounds g c then grid_at (board g) c else None.

(** [is_unknown(x, y)]: false off the grid. *)
Definition is_unknown (g : Battleship) (c : Coord) : bool :=
  bool_decide (mark g c = Some "."%string).

(** An array of [w] columns of [h] entries each. *)
Definition shaped {A} (w h : Z) (m : list (list A)) : Prop :=
  length m = Z.to_nat w /\ Forall (fun col => length col = Z.to_nat h) m.

(** The board is the [width] by [height] grid [__init__] builds. *)
Definition well_formed (g : Battleship) : Prop :=
  0 <= width g /\ 0 <= height g /\ shaped (width g) (height g) (board g).

#[global] Instance well_formed_dec g : Decision (well_formed g).
Proof. unfold well_formed, shaped. apply _. Defined.

(** [n] is the number of consecutive unknown tiles met when walking from
    [c] in direction [d], starting next to [c]. *)
Definition is_run (g : Battleship) (c d : Coord) (n : Z) : Prop :=
  0 <= n /\
  (forall k, 1 <= k <= n ->
     is_unknown g (c.1 + k * d.1, c.2 + k * d.2) = true) /\
  is_unknown g (c.1 + (n + 1) * d.1, c.2 + (n + 1) * d.2) = false.

(** Placements of a ship: a straight segment of [p_len] tiles that starts
    at [p_origin] and runs right (horizontal) or down (vertical). *)
Inductive orientation : Type := Horizontal | Vertical.

Record placement : Type := mkPlacement {
  p_len : Z;
  p_dir : orientation;
  p_origin : Coord
}.

(** The tile [k] steps from [o] in the orientation [d]. *)
Definition shifted (d : orientation) (o : Coord) (k : Z) : Coord :=
  match d with
  | Horizontal => (o.1 + k, o.2)
  | Vertical => (o.1, o.2 + k)
  end.

Definition tiles (p : placement) : list Coord :=
  shifted (p_dir p) (p_origin p) <$> Py.range 0 (p_len p).

(** (a) the placement fits within the grid *)
Definition fits (g : Battleship) (p : placement) : bool :=
  forallb (in_bounds g) (tiles p).

(** (b) the placement covers the tile [c] *)
Definition covers (p : placement) (c : Coord) : bool :=
  bool_decide (c ∈ tiles p).

(** (c) every tile the placement covers is unknown *)
Definition all_unknown (g : Battleship) (p : placement) : bool :=
  forallb (is_unknown g) (tiles p).

(** The tiles of the grid. *)
Definition grid_tiles (g : Battleship) : list Coord :=
  y ← Py.range 0 (height g); x ← Py.range 0 (width g); [(x, y)].

(** The placements of a segment of [len] tiles with an origin on the
    grid, in both orientations. *)
Definition placements (g : Battleship) (len : Z) : list placement :=
  o ← grid_tiles g; [mkPlacement len Horizontal o; mkPlacement len Vertical o].

Definition count_if {A} (P : A -> bool) (l : list A) : Z :=
  Z.of_nat (length (filter (fun a => P a = true) l)).

Definition sum_with {A} (f : A -> Z) (l : list A) : Z :=
  foldr (fun a s => f a + s) 0 l.

(** The placement fits (a), covers [c] (b) and lies on unknown tiles
    only (c). *)
Definition covering (g : Battleship) (c : Coord) (p : placement) : bool :=
  fits g p && covers p c && all_unknown g p.

(** The number of pairs of a ship of the list and a placement of it that
    fits, covers [c] and lies on unknown tiles only. *)
Definition placement_count (g : Battleship) (ships : list Z) (c : Coord)
  : Z :=
  sum_with (fun len => count_if (covering g c) (placements g len)) ships.

(** The number of placements of a segment of [len] tiles that fit and lie
    on unknown tiles only. *)
Definition valid_placements (g : Battleship) (len : Z) : Z :=
  count_if (fun p => fits g p && all_unknown g p) (placements g len).

(** The sum of all cells of an array. *)
Definition sum_cells (m : list (list Z)) : Z :=
  sum_with (sum_with id) m.

(** The tiles [sink] walks over, in the order it does. *)
Definition span (start_x start_y end_x end_y : Z) : list Coord :=
  if start_x =? end_x then
    (fun y => (start_x, y))
      <$> Py.range (Z.min start_y end_y) (Z.max start_y end_y + 1)
  else
    (fun x => (x, start_y))
      <$> Py.range (Z.min start_x end_x) (Z.max start_x end_x + 1).

(** The eight neighbours of a tile. *)
Definition neighbours (c : Coord) : list Coord :=
  [(c.1 + 1, c.2); (c.1 - 1, c.2); (c.1, c.2 + 1); (c.1, c.2 - 1);
   (c.1 + 1, c.2 + 1); (c.1 - 1, c.2 - 1); (c.1 + 1, c.2 - 1);
   (c.1 - 1, c.2 + 1)].

(** The order of a sort by [key]. *)
Definition key_le {A} (key : A -> Z) (a b : A) : Prop := key a <= key b.

(** A walk that leaves [c] in direction [d] and ends at the border of the
    grid. *)
Definition walk_to_border (g : Battleship) (c d : Coord)
    (tiles : list Coord) : Prop :=
  (forall i : nat, (i < length tiles)%nat ->
     tiles !! i =
       Some (c.1 + (Z.of_nat i + 1) * d.1, c.2 + (Z.of_nat i + 1) * d.2)) /\
  Forall (fun t => in_bounds g t = true) tiles /\
  in_bounds g (c.1 + (Z.of_nat (length tiles) + 1) * d.1,
               c.2 + (Z.of_nat (length tiles) + 1) * d.2) = false.

(** All eight neighbours of [c] are tiles of the grid. *)
Definition interior (g : Battleship) (c : Coord) : bool :=
  forallb (in_bounds g) (neighbours c).

(** A tile is settled when it is marked sunk or miss. *)
Definition settled (g : Battleship) (c : Coord) : Prop :=
  mark g c = Some "#"%string \/ mark g c = Some "o"%string.

(** [g'] comes from [g] by board writes that touch the tiles [touched]
    only, settle each of them, and leave sunk tiles sunk. *)
Definition board_step (touched : list Coord) (g g' : Battleship) : Prop :=
  (exists b, g' = set_board b g) /\
  well_formed g' /\
  (forall c, c ∈ touched -> settled g' c) /\
  (forall c, settled g c -> settled g' c) /\
  (forall c, mark g c = Some "#"%string -> mark g' c = Some "#"%string) /\
  (forall c, c ∉ touched -> mark g' c = mark g c).

(** The state [g'] that the loop of [sink] has reached from [g] after the
    tiles [pre]. *)
Definition sunk_through (pre : list Coord) (g g' : Battleship) : Prop :=
  (exists b hm, g' = set_hit_mem hm (set_board b g)) /\
  well_formed g' /\
  hit_mem g ≡ₚ pre ++ hit_mem g' /\
  (forall c, c ∈ pre -> mark g' c = Some "#"%string) /\
  (mode g = "n"%string ->
   forall p n, p ∈ pre -> n ∈ neighbours p -> settled g' n) /\
  (forall c,
     c ∉ pre ->
     (mode g = "n"%string -> forall p, p ∈ pre -> c ∉ neighbours p) ->
     mark g' c = mark g c).

(** [1] for true, [0] for false. *)
Definition b2z (b : bool) : Z := if b then 1 else 0.

(** What the origin [o] adds to the tile [c] for a ship of [len] tiles:
    one for each orientation in which the placement fits, covers [c] and
    lies on unknown tiles. *)
Definition contribution (g : Battleship) (len : Z) (o c : Coord) : Z :=
  b2z (covering g c (mkPlacement len Horizontal o)) +
  b2z (covering g c (mkPlacement len Vertical o)).

(** The exact counts behind the map [_gen_prob_map] builds, as the loops
    add them up. *)
Definition loop_count (g : Battleship) (c : Coord) : Z :=
  sum_with (fun len =>
    sum_with (fun y =>
      sum_with (fun x => contribution g len (x, y) c)
        (Py.range 0 (width g)))
      (Py.range 0 (height g)))
    (ships g).

(** The state of [_gen_prob_map] started in [g0] when the exact counts so
    far are [f]: only the probability map differs from [g0], and each of
    its cells holds the count of its tile reduced to [int32]. *)
Definition pm_holds (g0 : Battleship) (f : Coord -> Z) (g : Battleship)
  : Prop :=
  exists pm,
    g = set_prob_map pm g0 /\
    shaped (width g0) (height g0) pm /\
    forall c, in_bounds g0 c = true -> grid_at pm c = Some (wrap32 (f c)).

(** The tiles of the grid, column by column. *)
Definition grid_cells (g : Battleship) : list Coord :=
  x ← Py.range 0 (width g); y ← Py.range 0 (height g); [(x, y)].

(** The method neither adds nor drops a coordinate of the hit memory,
    whether it returns or raises. *)
Definition keeps_hits {A} (m : M A) : Prop :=
  forall g, hit_mem (m g).1 ≡ₚ hit_mem g.

(** ** The constructor, loop by loop *)

(** [self.board.append([])] *)
Definition board_append_column : M unit :=
  assign (fun g => set_board (board g ++ [[]]) g).

(** [self.board[x].append(v)] *)
Definition column_append (x : Z) (v : string) : M unit :=
  fun g =>
    match (col <-? Py.getitem (board g) x ;;
           Py.setitem (board g) x (col ++ [v])) with
    | Ok b => (set_board b g, Ok tt)
    | Raise e => (g, Raise e)
    end.

(** [__init__]: the attributes are assigned, then the two loops fill the
    board. *)
Definition __init__ (fleet : list Z) (md : string) (w h : Z)
  : Battleship * result unit :=
  (g <- self ;;
   for_each (Py.range 0 (width g)) (fun x =>
     _ <- board_append_column ;;
     g <- self ;;
     for_each (Py.range 0 (height g)) (fun y => column_append x ".")))
  (mkBattleship fleet md w h [] [] None None None).

(** ** Subscripts *)

(** [i] is a subscript Python accepts for a sequence of length [len]. *)
Definition py_valid (len i : Z) : bool := (- len <=? i) && (i <? len).

(** The position an accepted subscript denotes. *)
Definition py_wrap (len i : Z) : Z := if i <? 0 then i + len else i.

(** ** Invariants of the game *)

(** The method keeps [P], whether it returns or raises. *)
(** The tile of the grid a pair of valid subscripts denotes. *)
Definition wrapped (g : Battleship) (c : Coord) : Coord :=
  (py_wrap (width g) c.1, py_wrap (height g) c.2).

(** A ship length for which the grid has room in some orientation. *)
Definition placeable (g : Battleship) (len : Z) : bool :=
  (0 <? len) && ((len <=? width g) || (len <=? height g)).

Definition maintains {A} (P : Battleship -> Prop) (m : M A) : Prop :=
  forall g, P g -> P (m g).1.

(** What stays true of a game created with the ships [fleet], the mode
    [md] and the dimensions [w], [h]. *)
Definition game_inv (fleet : list Z) (md : string) (w h : Z)
    (g : Battleship) : Prop :=
  well_formed g /\ width g = w /\ height g = h /\ mode g = md /\
  ships g `sublist_of` fleet.

(** ** Game states used as examples *)

Module Scenario.

(** The state a method call leaves behind. *)
Definition after {A} (m : M A) (g : Battleship) : Battleship := (m g).1.

(** A new game on the usual board with the usual fleet. *)
Definition fresh : Battleship := init [5; 4; 3; 3; 2] "n" 10 10.

(** The state in which the tiles [hits] have been predicted and
    reported as hits, one after the other. *)
Definition with_hits (hits : list Coord) (g : Battleship) : Battleship :=
  foldl (fun g h =>
    after (update "x")
      (after (board_set h.1 h.2 "+")
         (set_pred_y h.2 (set_pred_x h.1 g)))) g hits.

(** Two ships of length two stand side by side, at [(1,0)-(1,1)] and
    [(2,0)-(2,1)], on a board of four columns and two rows where ships
    may touch.  The script is an honest game: [predict] asks for [(2,0)],
    [(1,0)], [(3,0)] and [(0,0)] in turn; the first two are hits, the
    other two are misses, and no ship is sunk yet. *)
Definition side_by_side_script : list (nat * report) :=
  [(2%nat, Hit); (0%nat, Hit); (0%nat, Miss); (0%nat, Miss)].

Definition side_by_side : Battleship :=
  after (play side_by_side_script) (init [2; 2] "t" 4 2).

(** Two ships of length two fill a board of two columns and two rows,
    at [(0,0)-(0,1)] and [(1,0)-(1,1)]; [(0,0)] and [(1,0)] have been
    hit. *)
Definition full_board_script : list (nat * report) :=
  [(0%nat, Hit); (0%nat, Hit)].

Definition full_board : Battleship :=
  after (play full_board_script) (init [2; 2] "t" 2 2).

(** One ship of length three is left; [(2,2)] and [(3,2)] have been
    hit. *)
Definition length_three : Battleship :=
  after (_ <- turn 0 Hit ;; _ <- predict 0 ;; update "x")
    (init [3] "t" 10 10).

(** One ship of length two is left; [(1,1)] and [(2,1)] have been hit. *)
Definition length_two : Battleship :=
  after (_ <- turn 0 Hit ;; _ <- predict 0 ;; update "x")
    (init [2] "t" 10 10).

(** A single hit at [(3, 3)] on an otherwise empty board. *)
Definition single_hit : Battleship := with_hits [(3, 3)] fresh.

(** Hits at [(2, 5)] and [(4, 5)], reported in this order or in the
    other. *)
Definition two_hits : Battleship := with_hits [(2, 5); (4, 5)] fresh.
Definition two_hits' : Battleship := with_hits [(4, 5); (2, 5)] fresh.

(** A board of one tile and 2^30 ships of length one. *)
Definition many_ships : list Z := replicate (Z.to_nat (2 ^ 30)) 1.
Definition crowded : Battleship := init many_ships "n" 1 1.

(** An empty board of three columns and three rows, one ship of length
    three. *)
Definition three_by_three : Battleship := init [3] "n" 3 3.

(** A single hit at [(4, 4)]. *)
Definition one_hit : Battleship := with_hits [(4, 4)] fresh.

(** A ship of length two at the left border, hit twice ("A1 B1" at the
    prompt of [main]), and one at the bottom border, hit twice
    ("J4 J5"). *)
Definition left_border : Battleship := with_hits [(0, 0); (0, 1)] fresh.
Definition bottom_border : Battleship := with_hits [(3, 9); (4, 9)] fresh.

(** A board of three columns and three rows where ships may touch, two
    ships of length one.  [predict] asks for [(0, 0)], a hit; then for
    [(1, 0)] and [(0, 1)], both misses.  All four candidates around the
    hit now score 0 and [(-1, 0)] is drawn: the write lands on tile
    [(2, 0)], the answer is a hit, and the ship at [(0, 0)] is reported
    sunk.  The only pending hit is then [(-1, 0)]; [predict] asks for
    [(-1, 1)], tile [(2, 1)], and the answer is a hit. *)
Definition off_grid_hits_script : list (nat * report) :=
  [(0%nat, Hit); (0%nat, Miss); (0%nat, Miss);
   (1%nat, HitSunk (0, 0) (0, 0)); (0%nat, Hit)].

Definition off_grid_hits : Battleship :=
  after (play off_grid_hits_script) (init [1; 1] "t" 3 3).

(** A ship of length three in a column away from the border, hit three
    times, on the usual board where ships may not touch. *)
Definition column_of_three : Battleship :=
  with_hits [(4, 4); (4, 5); (4, 6)] fresh.

End Scenario.

(** ** A program logic for methods *)

(** Total correctness: from a state in [P] the method returns normally,
    with a value and a state in [Q]. *)
Definition hoare {A} (P : Battleship -> Prop) (m : M A)
    (Q : A -> Battleship -> Prop) : Prop :=
  forall g, P g -> exists a g', m g = (g', Ok a) /\ Q a g'.

(** The method leaves the attribute [f] alone, whether it returns or
    raises. *)
Definition preserves {A X} (f : Battleship -> X) (m : M A) : Prop :=
  forall g, f (m g).1 = f g.

(** * Properties *)

(** ** Rules of the program logic *)

Lemma hoare_ret {A} (P : Battleship -> Prop) (a : A)
    (Q : A -> Battleship -> Prop) :
  (forall g, P g -> Q a g) -> hoare P (ret a) Q.
Proof. intros H g Hg. exists a, g. split; [done | by apply H]. Qed.

Lemma hoare_bind {A B} (P : Battleship -> Prop) (m : M A) (k : A -> M B)
    (R : A -> Battleship -> Prop) (Q : B -> Battleship -> Prop) :
  hoare P m R -> (forall a, hoare (R a) (k a) Q) -> hoare P (bind m k) Q.
Proof.
  intros Hm Hk g Hg.
  destruct (Hm g Hg) as (a & g1 & Em & HR).
  destruct (Hk a g1 HR) as (b & g2 & Ek & HQ).
  exists b, g2. split; [| done].
  unfold bind. by rewrite Em.
Qed.

Lemma hoare_conseq {A} (P P' : Battleship -> Prop) (m : M A)
    (Q Q' : A -> Battleship -> Prop) :
  hoare P' m Q' ->
  (forall g, P g -> P' g) ->
  (forall a g, Q' a g -> Q a g) ->
  hoare P m Q.
Proof.
  intros Hm HP HQ g Hg.
  destruct (Hm g (HP g Hg)) as (a & g' & E & H').
  exists a, g'. eauto.
Qed.

Lemma hoare_self (P : Battleship -> Prop)
    (Q : Battleship -> Battleship -> Prop) :
  (forall g, P g -> Q g g) -> hoare P self Q.
Proof. intros H g Hg. exists g, g. split; [done | by apply H]. Qed.

Lemma hoare_eval {A} (P : Battleship -> Prop) (f : Battleship -> result A)
    (Q : A -> Battleship -> Prop) :
  (forall g, P g -> exists a, f g = Ok a /\ Q a g) -> hoare P (eval f) Q.
Proof.
  intros H g Hg. destruct (H g Hg) as (a & E & HQ).
  exists a, g. split; [| done]. unfold eval. by rewrite E.
Qed.

Lemma hoare_assign (P : Battleship -> Prop) (f : Battleship -> Battleship)
    (Q : unit -> Battleship -> Prop) :
  (forall g, P g -> Q tt (f g)) -> hoare P (assign f) Q.
Proof. intros H g Hg. exists tt, (f g). split; [done | by apply H]. Qed.

Lemma hoare_for_each_from {A} (I : list A -> Battleship -> Prop)
    (body : A -> M unit) (l : list A) :
  forall done,
    (forall pre a rest, done ++ l = pre ++ a :: rest ->
       hoare (I pre) (body a) (fun _ => I (pre ++ [a]))) ->
    hoare (I done) (for_each l body) (fun _ => I (done ++ l)).
Proof.
  induction l as [| a l IH]; intros done Hbody; simpl.
  - apply hoare_ret. intros g Hg. by rewrite app_nil_r.
  - eapply hoare_bind.
    + by apply (Hbody done a l).
    + intros u. simpl.
      replace (done ++ a :: l) with ((done ++ [a]) ++ l)
        by (by rewrite <- app_assoc).
      apply IH. intros pre b rest E. apply (Hbody pre b rest).
      by rewrite <- E, <- app_assoc.
Qed.

Lemma hoare_for_each {A} (I : list A -> Battleship -> Prop)
    (body : A -> M unit) (l : list A) :
  (forall pre a rest, l = pre ++ a :: rest ->
     hoare (I pre) (body a) (fun _ => I (pre ++ [a]))) ->
  hoare (I []) (for_each l body) (fun _ => I l).
Proof. intros H. by apply (hoare_for_each_from I body l []). Qed.

Lemma for_each_fmap {A B} (f : A -> B) (l : list A) (body : B -> M unit) :
  for_each (f <$> l) body = for_each l (fun a => body (f a)).
Proof.
  induction l as [| a l IH]; [done |].
  rewrite fmap_cons. simpl. by rewrite IH.
Qed.

Lemma for_each_app {A} (l1 l2 : list A) (body : A -> M unit) g :
  for_each (l1 ++ l2) body g =
  (_ <- for_each l1 body ;; for_each l2 body) g.
Proof.
  revert g. induction l1 as [| a l1 IH]; intros g; simpl; [done |].
  unfold bind. destruct (body a g) as [g1 r].
  destruct r as [u | e]; [| done].
  rewrite IH. done.
Qed.

(** Attributes a method leaves alone. *)

Lemma preserves_bind {A B X} (f : Battleship -> X) (m : M A)
    (k : A -> M B) :
  preserves f m -> (forall a, preserves f (k a)) -> preserves f (bind m k).
Proof.
  intros Hm Hk g. unfold bind. specialize (Hm g).
  destruct (m g) as [g1 [a | e]]; simpl in *; [| done].
  by rewrite Hk.
Qed.

Lemma preserves_ret {A X} (f : Battleship -> X) (a : A) :
  preserves f (ret a).
Proof. done. Qed.

Lemma preserves_self {X} (f : Battleship -> X) : preserves f self.
Proof. done. Qed.

Lemma preserves_eval {A X} (f : Battleship -> X)
    (e : Battleship -> result A) :
  preserves f (eval e).
Proof. done. Qed.

Lemma preserves_when {X} (f : Battleship -> X) (b : bool) (m : M unit) :
  preserves f m -> preserves f (when b m).
Proof. destruct b; [done | intros _; apply preserves_ret]. Qed.

Lemma preserves_for_each {A X} (f : Battleship -> X) (l : list A)
    (body : A -> M unit) :
  (forall a, preserves f (body a)) -> preserves f (for_each l body).
Proof.
  intros H. induction l as [| a l IH]; simpl.
  - apply preserves_ret.
  - apply preserves_bind; [apply H | done].
Qed.

Lemma preserves_board_set {X} (f : Battleship -> X) x y v :
  (forall b g, f (set_board b g) = f g) -> preserves f (board_set x y v).
Proof.
  intros H g. unfold board_set.
  destruct (Py.setitem2 _ _ _ _); simpl; [apply H | done].
Qed.

Lemma preserves_hit_mem_remove {X} (f : Battleship -> X) t :
  (forall l g, f (set_hit_mem l g) = f g) -> preserves f (hit_mem_remove t).
Proof.
  intros H g. unfold hit_mem_remove.
  destruct (Py.remove _ _); simpl; [apply H | done].
Qed.

Lemma preserves_clear_tile {X} (f : Battleship -> X) x y :
  (forall b g, f (set_board b g) = f g) -> preserves f (_clear_tile x y).
Proof.
  intros H. unfold _clear_tile.
  apply preserves_bind; [apply preserves_eval |].
  intros c. apply preserves_when. by apply preserves_board_set.
Qed.

Lemma preserves_clear_edges {X} (f : Battleship -> X) x y :
  (forall b g, f (set_board b g) = f g) -> preserves f (_clear_edges x y).
Proof.
  intros H. unfold _clear_edges.
  repeat (apply preserves_bind; [by apply preserves_clear_tile | intros _]).
  by apply preserves_clear_tile.
Qed.

Lemma preserves_sink_tile {X} (f : Battleship -> X) x y :
  (forall b g, f (set_board b g) = f g) ->
  (forall l g, f (set_hit_mem l g) = f g) ->
  preserves f (sink_tile x y).
Proof.
  intros Hb Hh. unfold sink_tile.
  apply preserves_bind; [by apply preserves_board_set | intros _].
  apply preserves_bind; [by apply preserves_hit_mem_remove | intros _].
  apply preserves_bind; [apply preserves_self | intros g].
  apply preserves_when. by apply preserves_clear_edges.
Qed.

(** ** Reachable states *)

Lemma play_reachable script g g' :
  reachable g -> play script g = (g', Ok false) -> reachable g'.
Proof.
  revert g. induction script as [| [r rep] script IH]; intros g Hg Hplay.
  - simpl in Hplay. unfold ret in Hplay. by simplify_eq.
  - simpl in Hplay. unfold bind in Hplay.
    destruct (turn r rep g) as [g1 res] eqn:Hturn.
    destruct res as [over | e]; [| done].
    destruct over; [unfold ret in Hplay; by simplify_eq |].
    apply (IH g1); [| done].
    by apply (reach_turn g r rep g1).
Qed.

(** ** Prediction on known tiles *)

(** C4. [predict] can return a tile whose mark is not unknown.  In the
    honest game [Scenario.side_by_side] both ends of the hit line are
    misses, both candidates score 0, and [predict] picks the miss at
    [(3, 0)]. *)
Theorem predict_returns_known_tile :
  reachable Scenario.side_by_side /\
  hit_mem Scenario.side_by_side = [(1, 0); (2, 0)] /\
  mark Scenario.side_by_side (3, 0) = Some "o"%string /\
  (predict 0 Scenario.side_by_side).2 = Ok tt /\
  prediction (predict 0 Scenario.side_by_side).1 = Ok (3, 0) /\
  mark (predict 0 Scenario.side_by_side).1 (3, 0) = Some "+"%string.
Proof.
  split.
  - apply (play_reachable Scenario.side_by_side_script
             (init [2; 2] "t" 4 2)); [apply reach_init |].
    by vm_compute.
  - by vm_compute.
Qed.

(** C8. A reachable state in which a coordinate of the hit memory is not
    marked as a hit.  In the honest game [Scenario.full_board] the hit
    memory is [(0,0); (1,0)] and both tiles are marked "x"; both
    candidates of [predict] are off the grid with score 0; when [(-1, 0)]
    is drawn, the write [board[-1][0] = "+"] lands on the hit at [(1, 0)],
    and the miss then reported leaves it marked "o". *)
Theorem hit_memory_tile_not_marked_hit :
  reachable Scenario.full_board /\
  hit_mem Scenario.full_board = [(0, 0); (1, 0)] /\
  mark Scenario.full_board (0, 0) = Some "x"%string /\
  mark Scenario.full_board (1, 0) = Some "x"%string /\
  (predict 1 Scenario.full_board).2 = Ok tt /\
  prediction (predict 1 Scenario.full_board).1 = Ok (-1, 0) /\
  hit_mem (predict 1 Scenario.full_board).1 = [(0, 0); (1, 0)] /\
  mark (predict 1 Scenario.full_board).1 (1, 0) = Some "+"%string /\
  reachable (turn 1 Miss Scenario.full_board).1 /\
  hit_mem (turn 1 Miss Scenario.full_board).1 = [(0, 0); (1, 0)] /\
  mark (turn 1 Miss Scenario.full_board).1 (1, 0) = Some "o"%string.
Proof.
  assert (reachable Scenario.full_board) as Hreach.
  { apply (play_reachable Scenario.full_board_script
             (init [2; 2] "t" 2 2)); [apply reach_init |].
    by vm_compute. }
  repeat split; try done; try (by vm_compute).
  apply (reach_turn Scenario.full_board 1 Miss); [done |].
  by vm_compute.
Qed.

(** ** Clearing tiles *)

(** C5. [_clear_tile] has no bounds test.  Off the grid on the low side
    the subscript wraps around and the write lands on the opposite border;
    off the grid on the high side the subscript raises.  Both happen when
    a ship at the border is sunk in mode "n": at the left border the
    tiles of the right border are marked as misses, at the bottom border
    [sink] raises. *)
Theorem clear_tile_off_grid :
  (in_bounds Scenario.fresh (-1, 0) = false /\
   mark Scenario.fresh (9, 0) = Some "."%string /\
   (_clear_tile (-1) 0 Scenario.fresh).2 = Ok tt /\
   mark (_clear_tile (-1) 0 Scenario.fresh).1 (9, 0) = Some "o"%string) /\
  (in_bounds Scenario.fresh (10, 0) = false /\
   (_clear_tile 10 0 Scenario.fresh).2 = Raise IndexError) /\
  ((sink 0 0 0 1 Scenario.left_border).2 = Ok false /\
   mark Scenario.left_border (9, 0) = Some "."%string /\
   mark (sink 0 0 0 1 Scenario.left_border).1 (9, 0) = Some "o"%string) /\
  (sink 3 9 4 9 Scenario.bottom_border).2 = Raise IndexError.
Proof. by vm_compute. Qed.

(** ** The remaining ships after a sink *)

Lemma range_length a b : length (Py.range a b) = Z.to_nat (b - a).
Proof. apply length_seqZ. Qed.

Lemma span_length_vertical x sy ey :
  Z.of_nat (length (span x sy x ey)) = Z.max sy ey - Z.min sy ey + 1.
Proof.
  unfold span. rewrite Z.eqb_refl, length_fmap, range_length. lia.
Qed.

Lemma span_length_horizontal sx sy ex ey :
  sx <> ex ->
  Z.of_nat (length (span sx sy ex ey)) = Z.max sx ex - Z.min sx ex + 1.
Proof.
  intros Hne. unfold span.
  destruct (Z.eqb_spec sx ex) as [| _]; [done |].
  rewrite length_fmap, range_length. lia.
Qed.

(** [remove_ship] drops the first entry equal to [len], if there is one. *)
Lemma remove_ship_spec len l :
  (exists l1 l2,
     l = l1 ++ len :: l2 /\ (len ∉ l1) /\ remove_ship len l = l1 ++ l2) \/
  ((len ∉ l) /\ remove_ship len l = l).
Proof.
  induction l as [| s l IH]; simpl.
  - right. split; [apply not_elem_of_nil | done].
  - destruct (Z.eqb_spec s len) as [-> | Hne].
    + left. exists [], l. repeat split. apply not_elem_of_nil.
    + destruct IH as [(l1 & l2 & -> & Hl1 & ->) | [Hl ->]].
      * left. exists (s :: l1), l2. repeat split.
        rewrite not_elem_of_cons. auto.
      * right. split; [| done]. rewrite not_elem_of_cons. auto.
Qed.

Lemma sink_loop_ships {A} (l : list A) (f : A -> Coord) :
  preserves ships (for_each l (fun a => sink_tile (f a).1 (f a).2)).
Proof.
  apply preserves_for_each. intros a. by apply preserves_sink_tile.
Qed.

(** The ship list after [sink], whatever the call: on a normal return it
    is [remove_ship] of the span length, and the value returned says
    whether it is empty; on a raise it is untouched. *)
Lemma sink_ships sx sy ex ey g :
  match sink sx sy ex ey g with
  | (g', Ok over) =>
      ships g' =
        remove_ship (Z.of_nat (length (span sx sy ex ey))) (ships g) /\
      over = bool_decide (ships g' = [])
  | (g', Raise _) => ships g' = ships g
  end.
Proof.
  assert (forall l : list Z, (length l =? 0)%nat = bool_decide (l = []))
    as Hempty by (by intros []).
  unfold sink. destruct (Z.eqb_spec sx ex) as [<- | Hne].
  - rewrite span_length_vertical.
    destruct (Z.gtb_spec sy ey) as [Hgt | Hle].
    + pose proof (sink_loop_ships (Py.range ey (sy + 1))
                    (fun y => (sx, y)) g) as Hp.
      unfold bind, assign, self, ret. simpl in *.
      destruct (for_each _ _ g) as [g1 [[] | e]]; simpl in *; [| done].
      rewrite Hempty, Hp.
      replace (sy - ey + 1) with (Z.max sy ey - Z.min sy ey + 1) by lia.
      done.
    + pose proof (sink_loop_ships (Py.range sy (ey + 1))
                    (fun y => (sx, y)) g) as Hp.
      unfold bind, assign, self, ret. simpl in *.
      destruct (for_each _ _ g) as [g1 [[] | e]]; simpl in *; [| done].
      rewrite Hempty, Hp.
      replace (ey - sy + 1) with (Z.max sy ey - Z.min sy ey + 1) by lia.
      done.
  - rewrite span_length_horizontal by done.
    destruct (Z.gtb_spec sx ex) as [Hgt | Hle].
    + pose proof (sink_loop_ships (Py.range ex (sx + 1))
                    (fun x => (x, sy)) g) as Hp.
      unfold bind, assign, self, ret. simpl in *.
      destruct (for_each _ _ g) as [g1 [[] | e]]; simpl in *; [| done].
      rewrite Hempty, Hp.
      replace (sx - ex + 1) with (Z.max sx ex - Z.min sx ex + 1) by lia.
      done.
    + pose proof (sink_loop_ships (Py.range sx (ex + 1))
                    (fun x => (x, sy)) g) as Hp.
      unfold bind, assign, self, ret. simpl in *.
      destruct (for_each _ _ g) as [g1 [[] | e]]; simpl in *; [| done].
      rewrite Hempty, Hp.
      replace (ex - sx + 1) with (Z.max sx ex - Z.min sx ex + 1) by lia.
      done.
Qed.

(** C6, as the code has it.  For every call of [sink] with a span of
    length [len]: when it returns, the first entry equal to [len] has left
    the ship list if there was one, the list is unchanged and nothing is
    signalled if there was none, and the value returned is true iff the
    list is then empty; when it raises, the list is unchanged. *)
Theorem sink_removes_one_ship sx sy ex ey g :
  let len := Z.of_nat (length (span sx sy ex ey)) in
  match sink sx sy ex ey g with
  | (g', Ok over) =>
      ((exists l1 l2,
          ships g = l1 ++ len :: l2 /\ (len ∉ l1) /\ ships g' = l1 ++ l2) \/
       ((len ∉ ships g) /\ ships g' = ships g)) /\
      (over = true <-> ships g' = [])
  | (g', Raise _) => ships g' = ships g
  end.
Proof.
  intros len. pose proof (sink_ships sx sy ex ey g) as H.
  destruct (sink sx sy ex ey g) as [g' [over | e]]; [| done].
  destruct H as [Hs ->]. split.
  - rewrite Hs. apply remove_ship_spec.
  - by rewrite bool_decide_eq_true.
Qed.

(** C6 fails as stated: two tiles are reported sunk while the only ship
    left has length three; [sink] returns normally and the list is as it
    was. *)
Lemma sink_unknown_length_is_silent :
  ships Scenario.length_three = [3] /\
  span 2 2 3 2 = [(2, 2); (3, 2)] /\
  (sink 2 2 3 2 Scenario.length_three).2 = Ok false /\
  ships (sink 2 2 3 2 Scenario.length_three).1 = [3].
Proof. by vm_compute. Qed.

(** ** Sink endpoints that are not aligned *)

(** C7, as the code has it.  When the x-coordinates of the endpoints
    differ, [sink] never looks at [end_y]: it handles the call as the
    horizontal span in the row of the first endpoint. *)
Theorem sink_ignores_end_y sx sy ex ey g :
  sx <> ex ->
  sink sx sy ex ey g = sink sx sy ex sy g /\
  span sx sy ex ey = span sx sy ex sy.
Proof.
  intros Hne. unfold sink, span.
  by destruct (Z.eqb_spec sx ex).
Qed.

Lemma sink_ignores_end_y_witness :
  sink 1 1 2 2 Scenario.length_two = sink 1 1 2 1 Scenario.length_two /\
  span 1 1 2 2 = span 1 1 2 1.
Proof. apply sink_ignores_end_y. lia. Defined.

(** C7 fails as stated: the endpoints [(1,1)] and [(2,2)] share neither
    coordinate, yet [sink] returns normally, sinks [(1,1)] and [(2,1)],
    removes the ship of length two and reports the game as over. *)
Lemma sink_diagonal_endpoints_accepted :
  (sink 1 1 2 2 Scenario.length_two).2 = Ok true /\
  ships Scenario.length_two = [2] /\
  ships (sink 1 1 2 2 Scenario.length_two).1 = [] /\
  mark (sink 1 1 2 2 Scenario.length_two).1 (1, 1) = Some "#"%string /\
  mark (sink 1 1 2 2 Scenario.length_two).1 (2, 1) = Some "#"%string /\
  mark (sink 1 1 2 2 Scenario.length_two).1 (2, 2) = Some "."%string.
Proof. by vm_compute. Qed.

(** ** Reading a well-formed board *)

Lemma norm_index_nonneg len i :
  0 <= i < len -> Py.norm_index len i = Some (Z.to_nat i).
Proof.
  intros H. unfold Py.norm_index.
  destruct (Z.leb_spec 0 i); [| lia].
  destruct (Z.ltb_spec i len); [done | lia].
Qed.

Lemma getitem_nonneg {A} (l : list A) i a :
  0 <= i -> l !! Z.to_nat i = Some a -> Py.getitem l i = Ok a.
Proof.
  intros Hi Hl. unfold Py.getitem.
  apply lookup_lt_Some in Hl as Hlt.
  rewrite norm_index_nonneg by lia. by rewrite Hl.
Qed.

Lemma getitem2_grid_at {A} (m : list (list A)) c a :
  0 <= c.1 -> 0 <= c.2 -> grid_at m c = Some a ->
  Py.getitem2 m c.1 c.2 = Ok a.
Proof.
  intros H1 H2 H. unfold grid_at in H. unfold Py.getitem2.
  destruct (m !! Z.to_nat c.1) as [col |] eqn:Hcol; [| done].
  simpl in H. rewrite (getitem_nonneg m c.1 col) by done. simpl.
  by apply getitem_nonneg.
Qed.

Lemma in_bounds_spec g c :
  in_bounds g c = true <-> 0 <= c.1 < width g /\ 0 <= c.2 < height g.
Proof. unfold in_bounds. rewrite !andb_true_iff. lia. Qed.

Lemma in_bounds_false g c :
  in_bounds g c = false <->
  ~ (0 <= c.1 < width g /\ 0 <= c.2 < height g).
Proof. rewrite <- in_bounds_spec. by destruct (in_bounds g c). Qed.

Lemma shaped_grid_at {A} w h (m : list (list A)) c :
  shaped w h m -> 0 <= c.1 < w -> 0 <= c.2 < h -> is_Some (grid_at m c).
Proof.
  intros [Hlen Hcols] H1 H2. unfold grid_at.
  destruct (lookup_lt_is_Some_2 m (Z.to_nat c.1)) as [col Hcol]; [lia |].
  rewrite Hcol. simpl. apply lookup_lt_is_Some_2.
  rewrite Forall_forall in Hcols.
  rewrite (Hcols col) by (by eapply list_elem_of_lookup_2). lia.
Qed.

Lemma mark_in_bounds g c :
  well_formed g -> in_bounds g c = true -> is_Some (mark g c).
Proof.
  intros (_ & _ & Hs) Hc. unfold mark. rewrite Hc.
  apply in_bounds_spec in Hc as [? ?]. by eapply shaped_grid_at.
Qed.

Lemma mark_Some_in_bounds g c s : mark g c = Some s -> in_bounds g c = true.
Proof. unfold mark. by destruct (in_bounds g c). Qed.

Lemma board_get_mark g c s :
  mark g c = Some s -> board_get g c.1 c.2 = Ok s.
Proof.
  intros H. pose proof (mark_Some_in_bounds g c s H) as Hc.
  unfold mark in H. rewrite Hc in H.
  apply in_bounds_spec in Hc as [? ?].
  apply getitem2_grid_at; [lia | lia | done].
Qed.

Lemma is_unknown_mark g c s :
  mark g c = Some s -> is_unknown g c = negb (str_ne s ".").
Proof.
  intros H. unfold is_unknown, str_ne. rewrite H, negb_involutive.
  destruct (String.eqb_spec s ".") as [-> | Hne].
  - by rewrite bool_decide_eq_true.
  - rewrite bool_decide_eq_false. congruence.
Qed.

Lemma is_unknown_off_grid g c : in_bounds g c = false -> is_unknown g c = false.
Proof.
  intros H. unfold is_unknown, mark. rewrite H.
  by rewrite bool_decide_eq_false.
Qed.

(** ** Directional hit scorer *)

(** The counting loop returns the length of the longest prefix of unknown
    tiles. *)
Lemma count_run_spec g tiles n :
  well_formed g ->
  Forall (fun c => in_bounds g c = true) tiles ->
  exists k : nat,
    count_run g tiles n = Ok (n + Z.of_nat k) /\
    (k <= length tiles)%nat /\
    (forall i c, (i < k)%nat -> tiles !! i = Some c ->
       is_unknown g c = true) /\
    (forall c, tiles !! k = Some c -> is_unknown g c = false).
Proof.
  intros Hwf Hin. revert n.
  induction Hin as [| [x y] tiles Hc Hin IH]; intros n.
  - exists 0%nat. simpl. rewrite Z.add_0_r.
    split; [done |]. split; [lia |]. split; [intros; lia | done].
  - destruct (mark_in_bounds g (x, y) Hwf Hc) as [s Hs].
    pose proof (board_get_mark g (x, y) s Hs) as Hget. simpl in Hget.
    simpl. rewrite Hget. simpl.
    pose proof (is_unknown_mark g (x, y) s Hs) as Hu.
    destruct (str_ne s ".") eqn:Hne; simpl in Hu.
    + exists 0%nat. rewrite Z.add_0_r.
      split; [done |]. split; [simpl; lia |]. split; [intros; lia |].
      intros c Hc'. simpl in Hc'. by simplify_eq.
    + destruct (IH (n + 1)) as (k & Ek & Hk & Hpre & Hstop).
      exists (S k). split; [| split; [| split]].
      * rewrite Ek. f_equal. lia.
      * simpl. lia.
      * intros [| i] c Hi Hl; simpl in Hl; [by simplify_eq |].
        apply (Hpre i); [lia | done].
      * intros c Hl. simpl in Hl. by apply Hstop.
Qed.

Lemma count_run_walk g c d tiles :
  well_formed g -> walk_to_border g c d tiles ->
  exists v, count_run g tiles 0 = Ok v /\ is_run g c d v.
Proof.
  intros Hwf (Hnth & Hin & Hend).
  destruct (count_run_spec g tiles 0 Hwf Hin) as (k & Ek & Hk & Hpre & Hstop).
  exists (Z.of_nat k). split; [by rewrite Ek |].
  split; [lia |]. split.
  - intros j Hj. apply (Hpre (Z.to_nat (j - 1))); [lia |].
    rewrite Hnth by lia. rewrite Z2Nat.id by lia.
    by replace (j - 1 + 1) with j by lia.
  - destruct (decide (k < length tiles)%nat) as [Hlt | Hge].
    + apply Hstop. by rewrite Hnth.
    + apply is_unknown_off_grid.
      replace k with (length tiles) by lia. done.
Qed.

Lemma walk_right g tx ty :
  in_bounds g (tx, ty) = true ->
  walk_to_border g (tx, ty) (1, 0)
    ((fun l => (l, ty)) <$> Py.range (tx + 1) (width g)).
Proof.
  intros Hc. apply in_bounds_spec in Hc. simpl in Hc.
  unfold walk_to_border, Py.range. rewrite length_fmap, length_seqZ. simpl.
  split; [| split].
  - intros i Hi. rewrite list_lookup_fmap, lookup_seqZ_lt by lia. simpl.
    do 2 f_equal; lia.
  - rewrite Forall_fmap, Forall_seqZ. intros x Hx. simpl.
    apply in_bounds_spec. simpl. lia.
  - apply in_bounds_false. simpl. lia.
Qed.

Lemma walk_left g tx ty :
  in_bounds g (tx, ty) = true ->
  walk_to_border g (tx, ty) (-1, 0)
    ((fun l => (l, ty)) <$> reverse (Py.range 0 tx)).
Proof.
  intros Hc. apply in_bounds_spec in Hc. simpl in Hc.
  unfold walk_to_border, Py.range.
  rewrite length_fmap, length_reverse, length_seqZ. simpl.
  split; [| split].
  - intros i Hi.
    rewrite list_lookup_fmap, reverse_lookup by (rewrite length_seqZ; lia).
    rewrite length_seqZ, lookup_seqZ_lt by lia. simpl.
    do 2 f_equal; lia.
  - rewrite Forall_fmap, Forall_reverse, Forall_seqZ. intros x Hx. simpl.
    apply in_bounds_spec. simpl. lia.
  - apply in_bounds_false. simpl. lia.
Qed.

Lemma walk_down g tx ty :
  in_bounds g (tx, ty) = true ->
  walk_to_border g (tx, ty) (0, 1)
    ((fun l => (tx, l)) <$> Py.range (ty + 1) (height g)).
Proof.
  intros Hc. apply in_bounds_spec in Hc. simpl in Hc.
  unfold walk_to_border, Py.range. rewrite length_fmap, length_seqZ. simpl.
  split; [| split].
  - intros i Hi. rewrite list_lookup_fmap, lookup_seqZ_lt by lia. simpl.
    do 2 f_equal; lia.
  - rewrite Forall_fmap, Forall_seqZ. intros x Hx. simpl.
    apply in_bounds_spec. simpl. lia.
  - apply in_bounds_false. simpl. lia.
Qed.

Lemma walk_up g tx ty :
  in_bounds g (tx, ty) = true ->
  walk_to_border g (tx, ty) (0, -1)
    ((fun l => (tx, l)) <$> reverse (Py.range 0 ty)).
Proof.
  intros Hc. apply in_bounds_spec in Hc. simpl in Hc.
  unfold walk_to_border, Py.range.
  rewrite length_fmap, length_reverse, length_seqZ. simpl.
  split; [| split].
  - intros i Hi.
    rewrite list_lookup_fmap, reverse_lookup by (rewrite length_seqZ; lia).
    rewrite length_seqZ, lookup_seqZ_lt by lia. simpl.
    do 2 f_equal; lia.
  - rewrite Forall_fmap, Forall_reverse, Forall_seqZ. intros x Hx. simpl.
    apply in_bounds_spec. simpl. lia.
  - apply in_bounds_false. simpl. lia.
Qed.

(** The dict display of [_gen_hit_map] has four distinct keys. *)
Lemma hit_map_display tx ty (right left down up : Z) :
  Py.dict_set (Py.dict_set (Py.dict_set (Py.dict_set []
      (tx + 1, ty) right) (tx - 1, ty) left) (tx, ty + 1) down)
      (tx, ty - 1) up =
  [((tx + 1, ty), right); ((tx - 1, ty), left);
   ((tx, ty + 1), down); ((tx, ty - 1), up)].
Proof.
  repeat (simpl; case_decide; [simplify_eq; lia |]). done.
Qed.

Lemma gen_hit_map_spec g tx ty :
  well_formed g -> in_bounds g (tx, ty) = true ->
  exists right left down up,
    _gen_hit_map g tx ty =
      Ok [((tx + 1, ty), right); ((tx - 1, ty), left);
          ((tx, ty + 1), down); ((tx, ty - 1), up)] /\
    is_run g (tx, ty) (1, 0) right /\
    is_run g (tx, ty) (-1, 0) left /\
    is_run g (tx, ty) (0, 1) down /\
    is_run g (tx, ty) (0, -1) up.
Proof.
  intros Hwf Hc.
  destruct (count_run_walk g _ _ _ Hwf (walk_right g tx ty Hc))
    as (right & Er & Hr).
  destruct (count_run_walk g _ _ _ Hwf (walk_left g tx ty Hc))
    as (left & El & Hl).
  destruct (count_run_walk g _ _ _ Hwf (walk_down g tx ty Hc))
    as (down & Ed & Hd).
  destruct (count_run_walk g _ _ _ Hwf (walk_up g tx ty Hc))
    as (up & Eu & Hu).
  exists right, left, down, up. split; [| done].
  unfold _gen_hit_map. rewrite Er, El, Ed, Eu. cbv [rbind].
  by rewrite hit_map_display.
Qed.

(** C2. For an in-bounds tile the hit map has exactly the four adjacent
    coordinates as keys, in bounds or not, and each value is the number of
    consecutive unknown tiles met in that direction, up to the first tile
    that is not unknown or the border; for the single hit at [(3, 3)] the
    values are right 6, left 3, down 6, up 3. *)
Theorem gen_hit_map_run_lengths :
  (forall g tx ty,
     well_formed g -> in_bounds g (tx, ty) = true ->
     exists right left down up,
       _gen_hit_map g tx ty =
         Ok [((tx + 1, ty), right); ((tx - 1, ty), left);
             ((tx, ty + 1), down); ((tx, ty - 1), up)] /\
       is_run g (tx, ty) (1, 0) right /\
       is_run g (tx, ty) (-1, 0) left /\
       is_run g (tx, ty) (0, 1) down /\
       is_run g (tx, ty) (0, -1) up) /\
  _gen_hit_map Scenario.single_hit 3 3 =
    Ok [((4, 3), 6); ((2, 3), 3); ((3, 4), 6); ((3, 2), 3)].
Proof.
  split; [apply gen_hit_map_spec | by vm_compute].
Qed.

Lemma gen_hit_map_run_lengths_witness :
  exists right left down up,
    _gen_hit_map Scenario.single_hit 3 3 =
      Ok [((3 + 1, 3), right); ((3 - 1, 3), left);
          ((3, 3 + 1), down); ((3, 3 - 1), up)] /\
    is_run Scenario.single_hit (3, 3) (1, 0) right /\
    is_run Scenario.single_hit (3, 3) (-1, 0) left /\
    is_run Scenario.single_hit (3, 3) (0, 1) down /\
    is_run Scenario.single_hit (3, 3) (0, -1) up.
Proof.
  apply (proj1 gen_hit_map_run_lengths).
  - apply (bool_decide_unpack _). by vm_compute.
  - by vm_compute.
Defined.

(** ** Sorting the hit memory *)

Section Sorting.
Context {A : Type} (key : A -> Z).

Lemma insert_by_perm a l : Py.insert_by key a l ≡ₚ a :: l.
Proof.
  induction l as [| b l IH]; simpl; [done |].
  destruct (key a <=? key b); [done |].
  by rewrite IH, Permutation_swap.
Qed.

Lemma sort_by_perm l : Py.sort_by key l ≡ₚ l.
Proof.
  induction l as [| a l IH]; simpl; [done |].
  by rewrite insert_by_perm, IH.
Qed.

Lemma insert_by_sorted a l :
  StronglySorted (key_le key) l -> StronglySorted (key_le key) (Py.insert_by key a l).
Proof.
  induction 1 as [| b l Hl IH Hb]; simpl.
  - repeat constructor.
  - destruct (Z.leb_spec (key a) (key b)) as [Hle | Hgt].
    + constructor; [by constructor |].
      constructor; [done |].
      eapply Forall_impl; [exact Hb |].
      unfold key_le. intros c Hc. simpl in Hc. lia.
    + constructor; [done |].
      rewrite insert_by_perm. constructor; [unfold key_le; lia | done].
Qed.

Lemma sort_by_sorted l : StronglySorted (key_le key) (Py.sort_by key l).
Proof.
  induction l as [| a l IH]; simpl; [constructor |].
  by apply insert_by_sorted.
Qed.

Lemma sorted_last_max l z :
  StronglySorted (key_le key) l -> last l = Some z ->
  forall x, x ∈ l -> key x <= key z.
Proof.
  induction 1 as [| a l Hl IH Ha]; intros Hz x Hx.
  - by apply elem_of_nil in Hx.
  - destruct l as [| b l].
    + simpl in Hz. apply list_elem_of_singleton in Hx. by simplify_eq.
    + assert (last (b :: l) = Some z) as Hz' by done.
      apply elem_of_cons in Hx as [-> | Hx]; [| by apply IH].
      rewrite Forall_forall in Ha.
      assert (z ∈ b :: l) as Hin.
      { rewrite last_lookup in Hz'. by eapply list_elem_of_lookup_2. }
      apply (Ha z Hin).
Qed.

(** The first and the last element of the sorted list have the least
    and the greatest key of the list. *)
Lemma sort_by_ends l :
  l <> [] ->
  exists lo hi,
    head (Py.sort_by key l) = Some lo /\
    last (Py.sort_by key l) = Some hi /\
    lo ∈ l /\ hi ∈ l /\
    forall x, x ∈ l -> key lo <= key x <= key hi.
Proof.
  intros Hne.
  pose proof (sort_by_perm l) as Hperm.
  pose proof (sort_by_sorted l) as Hsorted.
  destruct (Py.sort_by key l) as [| lo s] eqn:Es.
  { apply Permutation_nil_l in Hperm. by subst. }
  destruct (last (lo :: s)) as [hi |] eqn:Ehi;
    [| by apply last_None in Ehi].
  exists lo, hi. split; [done |]. split; [done |].
  assert (hi ∈ lo :: s) as Hhi.
  { rewrite last_lookup in Ehi. by eapply list_elem_of_lookup_2. }
  split; [rewrite <- Hperm; by apply elem_of_cons; left |].
  split; [by rewrite <- Hperm |].
  intros x Hx. rewrite <- Hperm in Hx. split.
  - apply StronglySorted_inv in Hsorted as [_ Hall].
    apply elem_of_cons in Hx as [-> | Hx]; [lia |].
    rewrite Forall_forall in Hall. by apply Hall.
  - by eapply sorted_last_max.
Qed.

End Sorting.

Lemma getitem_head {A} (l : list A) a : head l = Some a -> Py.getitem l 0 = Ok a.
Proof.
  intros H. rewrite head_lookup in H. by apply getitem_nonneg.
Qed.

Lemma getitem_last {A} (l : list A) a :
  last l = Some a -> Py.getitem l (-1) = Ok a.
Proof.
  intros H. rewrite last_lookup in H.
  apply lookup_lt_Some in H as Hlt.
  unfold Py.getitem, Py.norm_index.
  destruct (Z.leb_spec 0 (-1)); [lia |]. simpl.
  destruct (Z.leb_spec (- Z.of_nat (length l)) (-1)); [| lia]. simpl.
  replace (Z.to_nat (Z.of_nat (length l) + -1)) with (pred (length l)) by lia.
  by rewrite H.
Qed.

(** ** Candidates along a line of hits *)

Lemma extension_score_spec g h :
  well_formed g -> in_bounds g h = true ->
  exists right left down up,
    extension_score g h (h.1 + 1, h.2) = Ok right /\
    extension_score g h (h.1 - 1, h.2) = Ok left /\
    extension_score g h (h.1, h.2 + 1) = Ok down /\
    extension_score g h (h.1, h.2 - 1) = Ok up /\
    is_run g h (1, 0) right /\
    is_run g h (-1, 0) left /\
    is_run g h (0, 1) down /\
    is_run g h (0, -1) up.
Proof.
  intros Hwf Hc. destruct h as [x y].
  destruct (gen_hit_map_spec g x y Hwf Hc)
    as (right & left & down & up & E & Hr & Hl & Hd & Hu).
  exists right, left, down, up.
  unfold extension_score. simpl fst. simpl snd. rewrite E. cbv [rbind].
  refine (conj _ (conj _ (conj _ (conj _ _)))); [.. | done];
    simpl;
    repeat (case_decide; [first [reflexivity | exfalso; simplify_eq; lia] |]);
    congruence.
Qed.

Lemma length_two_ends {A} (l : list A) :
  (2 <= length l)%nat ->
  exists first last', head l = Some first /\ last l = Some last'.
Proof.
  intros Hlen. destruct l as [| a l]; [simpl in Hlen; lia |].
  destruct (last (a :: l)) as [z |] eqn:E; [| by apply last_None in E].
  by exists a, z.
Qed.

Lemma hit_candidates_spec g :
  well_formed g ->
  (2 <= length (hit_mem g))%nat ->
  Forall (fun h => in_bounds g h = true) (hit_mem g) ->
  exists first last' lo hi v_lo v_hi,
    head (hit_mem g) = Some first /\
    last (hit_mem g) = Some last' /\
    lo ∈ hit_mem g /\
    hi ∈ hit_mem g /\
    if bool_decide (first.1 = last'.1) then
      (forall h, h ∈ hit_mem g -> lo.2 <= h.2 <= hi.2) /\
      is_run g hi (0, 1) v_hi /\
      is_run g lo (0, -1) v_lo /\
      (hit_candidates g).2 =
        Ok [((hi.1, hi.2 + 1), v_hi); ((lo.1, lo.2 - 1), v_lo)]
    else
      (forall h, h ∈ hit_mem g -> lo.1 <= h.1 <= hi.1) /\
      is_run g hi (1, 0) v_hi /\
      is_run g lo (-1, 0) v_lo /\
      (hit_candidates g).2 =
        Ok [((hi.1 + 1, hi.2), v_hi); ((lo.1 - 1, lo.2), v_lo)].
Proof.
  intros Hwf Hlen Hin.
  destruct (length_two_ends (hit_mem g) Hlen) as (first & last' & Hf & Hl).
  assert (hit_mem g <> []) as Hne
    by (intros E; rewrite E in Hlen; simpl in Hlen; lia).
  exists first, last'.
  rewrite Forall_forall in Hin.
  assert ((length (hit_mem g) =? 1)%nat = false) as Hlen1
    by (apply Nat.eqb_neq; lia).
  destruct (Z.eqb_spec first.1 last'.1) as [Heq | Hneq].
  - rewrite bool_decide_eq_true_2 by done.
    destruct (sort_by_ends snd (hit_mem g) Hne)
      as (lo & hi & Hlo & Hhi & Hlo_in & Hhi_in & Hbounds).
    set (g1 := set_hit_mem (Py.sort_by snd (hit_mem g)) g).
    assert (well_formed g1) as Hwf1 by done.
    destruct (extension_score_spec g1 hi Hwf1 (Hin hi Hhi_in))
      as (_ & _ & v_hi & _ & _ & _ & Ehi & _ & _ & _ & Rhi & _).
    destruct (extension_score_spec g1 lo Hwf1 (Hin lo Hlo_in))
      as (_ & _ & _ & v_lo & _ & _ & _ & Elo & _ & _ & _ & Rlo).
    exists lo, hi, v_lo, v_hi.
    do 4 (split; [done |]). split; [done |]. do 2 (split; [done |]).
    unfold hit_candidates, bind, self, eval, assign.
    rewrite Hlen1, (getitem_head _ _ Hf), (getitem_last _ _ Hl).
    destruct (Z.eqb_spec first.1 last'.1) as [_ | ?]; [| done].
    assert (Py.getitem (hit_mem g1) (-1) = Ok hi) as Ghi
      by (apply getitem_last; exact Hhi).
    assert (Py.getitem (hit_mem g1) 0 = Ok lo) as Glo
      by (apply getitem_head; exact Hlo).
    fold g1. rewrite Ghi, Glo, Ehi, Elo. cbv [rbind].
    simpl. case_decide; [| done].
    pose proof (Hbounds lo Hlo_in). simplify_eq. lia.
  - rewrite bool_decide_eq_false_2 by done.
    destruct (sort_by_ends fst (hit_mem g) Hne)
      as (lo & hi & Hlo & Hhi & Hlo_in & Hhi_in & Hbounds).
    set (g1 := set_hit_mem (Py.sort_by fst (hit_mem g)) g).
    assert (well_formed g1) as Hwf1 by done.
    destruct (extension_score_spec g1 hi Hwf1 (Hin hi Hhi_in))
      as (v_hi & _ & _ & _ & Ehi & _ & _ & _ & Rhi & _).
    destruct (extension_score_spec g1 lo Hwf1 (Hin lo Hlo_in))
      as (_ & v_lo & _ & _ & _ & Elo & _ & _ & _ & Rlo & _).
    exists lo, hi, v_lo, v_hi.
    do 4 (split; [done |]). split; [done |]. do 2 (split; [done |]).
    unfold hit_candidates, bind, self, eval, assign.
    rewrite Hlen1, (getitem_head _ _ Hf), (getitem_last _ _ Hl).
    destruct (Z.eqb_spec first.1 last'.1) as [? | _]; [done |].
    assert (Py.getitem (hit_mem g1) (-1) = Ok hi) as Ghi
      by (apply getitem_last; exact Hhi).
    assert (Py.getitem (hit_mem g1) 0 = Ok lo) as Glo
      by (apply getitem_head; exact Hlo).
    fold g1. rewrite Ghi, Glo, Ehi, Elo. cbv [rbind].
    simpl. case_decide; [| done].
    pose proof (Hbounds lo Hlo_in). simplify_eq. lia.
Qed.

(** C3, as the code has it.  With two or more hits in the hit memory,
    all of them tiles of the grid, the candidate mapping of [predict] has
    exactly two entries.  The axis is
    vertical iff the first and the last entry of the hit memory have the
    same x-coordinate.  [lo] and [hi] are hits with the least and the
    greatest coordinate along that axis; the keys are the tiles one past
    [hi] and one past [lo], and each value is the run length of unknown
    tiles from that endpoint away from the line.  For hits at [(2, 5)] and
    [(4, 5)], in either order, the axis is horizontal and the candidates
    are [(5, 5)] and [(1, 5)]. *)
Theorem hit_candidates_two_endpoints :
  (forall g,
     well_formed g ->
     (2 <= length (hit_mem g))%nat ->
     Forall (fun h => in_bounds g h = true) (hit_mem g) ->
     exists first last' lo hi v_lo v_hi,
       head (hit_mem g) = Some first /\
       last (hit_mem g) = Some last' /\
       lo ∈ hit_mem g /\
       hi ∈ hit_mem g /\
       if bool_decide (first.1 = last'.1) then
         (forall h, h ∈ hit_mem g -> lo.2 <= h.2 <= hi.2) /\
         is_run g hi (0, 1) v_hi /\
         is_run g lo (0, -1) v_lo /\
         (hit_candidates g).2 =
           Ok [((hi.1, hi.2 + 1), v_hi); ((lo.1, lo.2 - 1), v_lo)]
       else
         (forall h, h ∈ hit_mem g -> lo.1 <= h.1 <= hi.1) /\
         is_run g hi (1, 0) v_hi /\
         is_run g lo (-1, 0) v_lo /\
         (hit_candidates g).2 =
           Ok [((hi.1 + 1, hi.2), v_hi); ((lo.1 - 1, lo.2), v_lo)]) /\
  (hit_mem Scenario.two_hits = [(2, 5); (4, 5)] /\
   (hit_candidates Scenario.two_hits).2 = Ok [((5, 5), 5); ((1, 5), 2)]) /\
  (hit_mem Scenario.two_hits' = [(4, 5); (2, 5)] /\
   (hit_candidates Scenario.two_hits').2 = Ok [((5, 5), 5); ((1, 5), 2)]).
Proof.
  split; [apply hit_candidates_spec | by vm_compute].
Qed.

Lemma hit_candidates_two_endpoints_witness :
  exists first last' lo hi v_lo v_hi,
    head (hit_mem Scenario.two_hits) = Some first /\
    last (hit_mem Scenario.two_hits) = Some last' /\
    lo ∈ hit_mem Scenario.two_hits /\
    hi ∈ hit_mem Scenario.two_hits /\
    if bool_decide (first.1 = last'.1) then
      (forall h, h ∈ hit_mem Scenario.two_hits -> lo.2 <= h.2 <= hi.2) /\
      is_run Scenario.two_hits hi (0, 1) v_hi /\
      is_run Scenario.two_hits lo (0, -1) v_lo /\
      (hit_candidates Scenario.two_hits).2 =
        Ok [((hi.1, hi.2 + 1), v_hi); ((lo.1, lo.2 - 1), v_lo)]
    else
      (forall h, h ∈ hit_mem Scenario.two_hits -> lo.1 <= h.1 <= hi.1) /\
      is_run Scenario.two_hits hi (1, 0) v_hi /\
      is_run Scenario.two_hits lo (-1, 0) v_lo /\
      (hit_candidates Scenario.two_hits).2 =
        Ok [((hi.1 + 1, hi.2), v_hi); ((lo.1 - 1, lo.2), v_lo)].
Proof.
  apply (proj1 hit_candidates_two_endpoints).
  - apply (bool_decide_unpack _). by vm_compute.
  - vm_compute. lia.
  - apply (bool_decide_unpack _). by vm_compute.
Defined.

(** C3 fails as stated: the hit memory can hold coordinates that are not
    tiles of the grid.  In the game [Scenario.off_grid_hits] it is
    [(-1, 0); (-1, 1)], which the board subscripts read as the tiles
    [(2, 0)] and [(2, 1)].  The candidate past the lower end is
    [(-1, 2)] with score 1, because the scorer reads [board[-1][2]], the
    unknown tile [(2, 2)]; but [(-1, 2)] is no tile of the grid, so no
    unknown tile lies past [(-1, 1)] and the score is not the run length
    in that direction. *)
Lemma hit_candidates_off_grid_hits :
  reachable Scenario.off_grid_hits /\
  well_formed Scenario.off_grid_hits /\
  hit_mem Scenario.off_grid_hits = [(-1, 0); (-1, 1)] /\
  (hit_candidates Scenario.off_grid_hits).2
    = Ok [((-1, 2), 1); ((-1, -1), 0)] /\
  mark Scenario.off_grid_hits (2, 2) = Some "."%string /\
  is_unknown Scenario.off_grid_hits (-1, 2) = false /\
  is_run Scenario.off_grid_hits (-1, 1) (0, 1) 0 /\
  ~ is_run Scenario.off_grid_hits (-1, 1) (0, 1) 1 /\
  ~ (exists first last' lo hi v_lo v_hi,
       head (hit_mem Scenario.off_grid_hits) = Some first /\
       last (hit_mem Scenario.off_grid_hits) = Some last' /\
       lo ∈ hit_mem Scenario.off_grid_hits /\
       hi ∈ hit_mem Scenario.off_grid_hits /\
       if bool_decide (first.1 = last'.1) then
         (forall h, h ∈ hit_mem Scenario.off_grid_hits ->
            lo.2 <= h.2 <= hi.2) /\
         is_run Scenario.off_grid_hits hi (0, 1) v_hi /\
         is_run Scenario.off_grid_hits lo (0, -1) v_lo /\
         (hit_candidates Scenario.off_grid_hits).2 =
           Ok [((hi.1, hi.2 + 1), v_hi); ((lo.1, lo.2 - 1), v_lo)]
       else
         (forall h, h ∈ hit_mem Scenario.off_grid_hits ->
            lo.1 <= h.1 <= hi.1) /\
         is_run Scenario.off_grid_hits hi (1, 0) v_hi /\
         is_run Scenario.off_grid_hits lo (-1, 0) v_lo /\
         (hit_candidates Scenario.off_grid_hits).2 =
           Ok [((hi.1 + 1, hi.2), v_hi); ((lo.1 - 1, lo.2), v_lo)]).
Proof.
  assert (is_unknown Scenario.off_grid_hits (-1, 2) = false) as Hoff
    by (by vm_compute).
  assert ((hit_candidates Scenario.off_grid_hits).2
          = Ok [((-1, 2), 1); ((-1, -1), 0)]) as Hcand by (by vm_compute).
  assert (~ is_run Scenario.off_grid_hits (-1, 1) (0, 1) 1) as Hrun.
  { intros (_ & H & _). specialize (H 1 ltac:(lia)).
    by vm_compute in H. }
  split.
  { apply (play_reachable Scenario.off_grid_hits_script
             (init [1; 1] "t" 3 3)); [apply reach_init |].
    by vm_compute. }
  split; [apply (bool_decide_unpack _); by vm_compute |].
  split; [by vm_compute |].
  split; [done |].
  split; [by vm_compute |].
  split; [done |].
  split.
  { split; [lia |]. split; [intros k Hk; lia |]. simpl. exact Hoff. }
  split; [done |].
  intros (first & last' & lo & hi & v_lo & v_hi & Hhead & Hlast & _ & _ & H).
  assert (first = (-1, 0)) as -> by (vm_compute in Hhead; congruence).
  assert (last' = (-1, 1)) as -> by (vm_compute in Hlast; congruence).
  rewrite bool_decide_eq_true_2 in H by done.
  destruct H as (_ & Hhi & _ & E).
  rewrite Hcand in E. destruct hi as [hx hy]. simpl in E.
  injection E as Ex Ey Ev _.
  assert (hy = 1) as -> by lia. subst hx v_hi. by apply Hrun.
Qed.

(** ** Writing a well-formed grid *)

Lemma setitem_nonneg {A} (l : list A) i a :
  0 <= i < Z.of_nat (length l) ->
  Py.setitem l i a = Ok (<[Z.to_nat i:=a]> l).
Proof.
  intros H. unfold Py.setitem. by rewrite norm_index_nonneg.
Qed.

Lemma setitem2_shaped {A} w h (m : list (list A)) x y v :
  shaped w h m -> 0 <= x < w -> 0 <= y < h ->
  exists m',
    Py.setitem2 m x y v = Ok m' /\
    shaped w h m' /\
    grid_at m' (x, y) = Some v /\
    forall c, 0 <= c.1 -> 0 <= c.2 -> c <> (x, y) ->
      grid_at m' c = grid_at m c.
Proof.
  intros [Hlen Hcols] Hx Hy.
  destruct (lookup_lt_is_Some_2 m (Z.to_nat x)) as [col Hcol]; [lia |].
  assert (length col = Z.to_nat h) as Hcol_len.
  { rewrite Forall_forall in Hcols. apply Hcols.
    by eapply list_elem_of_lookup_2. }
  exists (<[Z.to_nat x:=<[Z.to_nat y:=v]> col]> m).
  split; [| split; [| split]].
  - unfold Py.setitem2. rewrite (getitem_nonneg m x col) by (lia || done).
    simpl. rewrite setitem_nonneg by lia. simpl.
    by rewrite setitem_nonneg by lia.
  - split; [by rewrite length_insert |].
    apply Forall_insert; [done |]. by rewrite length_insert.
  - unfold grid_at. simpl. rewrite list_lookup_insert_eq by lia. simpl.
    apply list_lookup_insert_eq. lia.
  - intros [cx cy] Hcx Hcy Hne. unfold grid_at. simpl in *.
    destruct (decide (cx = x)) as [-> | Hx'].
    + rewrite list_lookup_insert_eq by lia. rewrite Hcol. simpl.
      apply list_lookup_insert_ne. intros E.
      apply Hne. f_equal. lia.
    + rewrite list_lookup_insert_ne; [done |]. lia.
Qed.

Lemma set_board_id g : set_board (board g) g = g.
Proof. by destruct g. Qed.

(** An in-bounds write of the board succeeds and changes that tile only. *)
Lemma board_set_in_bounds g x y v :
  well_formed g -> in_bounds g (x, y) = true ->
  exists b,
    board_set x y v g = (set_board b g, Ok tt) /\
    well_formed (set_board b g) /\
    mark (set_board b g) (x, y) = Some v /\
    forall c, c <> (x, y) -> mark (set_board b g) c = mark g c.
Proof.
  intros (Hw & Hh & Hs) Hc.
  apply in_bounds_spec in Hc as Hxy. simpl in Hxy. destruct Hxy as [Hx Hy].
  destruct (setitem2_shaped _ _ (board g) x y v Hs Hx Hy)
    as (b & Eb & Hsb & Hget & Hother).
  exists b. split; [| split; [| split]].
  - unfold board_set. by rewrite Eb.
  - done.
  - unfold mark. by replace (in_bounds (set_board b g) (x, y)) with true.
  - intros c Hne. unfold mark.
    replace (in_bounds (set_board b g) c) with (in_bounds g c) by done.
    destruct (in_bounds g c) eqn:Ec; [| done].
    apply in_bounds_spec in Ec. simpl. apply Hother; [lia | lia | done].
Qed.

(** ** Clearing the edges of a sunk tile *)

Lemma board_step_refl g : well_formed g -> board_step [] g g.
Proof.
  intros Hwf. split; [exists (board g); by rewrite set_board_id |].
  split; [done |]. split; [intros c Hc; by apply elem_of_nil in Hc |].
  done.
Qed.

Lemma board_step_trans t1 t2 g g1 g2 :
  board_step t1 g g1 -> board_step t2 g1 g2 -> board_step (t1 ++ t2) g g2.
Proof.
  intros ([b1 ->] & Hwf1 & Ht1 & Hs1 & Hk1 & Hf1)
         ([b2 ->] & Hwf2 & Ht2 & Hs2 & Hk2 & Hf2).
  split; [by exists b2 |]. split; [done |].
  split; [| split; [| split]].
  - intros c Hc. apply elem_of_app in Hc as [Hc | Hc]; auto.
  - auto.
  - auto.
  - intros c Hc. rewrite not_elem_of_app in Hc. destruct Hc as [Hc1 Hc2].
    by rewrite Hf2, Hf1.
Qed.

(** On the grid, [_clear_tile] leaves a sunk tile alone and marks any
    other tile as a miss; no other tile changes. *)
Lemma clear_tile_in_bounds g c :
  well_formed g -> in_bounds g c = true ->
  exists g',
    _clear_tile c.1 c.2 g = (g', Ok tt) /\
    board_step [c] g g' /\
    mark g' c =
      (if bool_decide (mark g c = Some "#"%string) then Some "#"%string
       else Some "o"%string).
Proof.
  intros Hwf Hc. destruct c as [x y].
  destruct (mark_in_bounds g (x, y) Hwf Hc) as [s Hs].
  pose proof (board_get_mark g (x, y) s Hs) as Hget. simpl in Hget.
  unfold _clear_tile, bind, eval. simpl. rewrite Hget.
  unfold str_ne. destruct (String.eqb_spec s "#") as [-> | Hne]; simpl.
  - exists g. split; [done |].
    rewrite bool_decide_eq_true_2 by done. split; [| done].
    split; [exists (board g); by rewrite set_board_id |].
    split; [done |]. split; [| done].
    intros c Hc'. apply list_elem_of_singleton in Hc' as ->. by left.
  - destruct (board_set_in_bounds g x y "o" Hwf Hc)
      as (b & Eb & Hwfb & Hm & Hother).
    exists (set_board b g). split; [done |].
    rewrite bool_decide_eq_false_2 by congruence. split; [| done].
    split; [by exists b |]. split; [done |].
    assert (forall c, c <> (x, y) -> mark (set_board b g) c = mark g c)
      as Hframe by done.
    split; [| split; [| split]].
    + intros c Hc'. apply list_elem_of_singleton in Hc' as ->. by right.
    + intros c Hset. destruct (decide (c = (x, y))) as [-> | Hc'].
      * by right.
      * unfold settled. by rewrite Hframe.
    + intros c Hsunk. destruct (decide (c = (x, y))) as [-> | Hc'].
      * congruence.
      * by rewrite Hframe.
    + intros c Hc'. apply Hframe. by rewrite list_elem_of_singleton in Hc'.
Qed.

Lemma clear_edges_for_each x y g :
  _clear_edges x y g =
  for_each (neighbours (x, y)) (fun n => _clear_tile n.1 n.2) g.
Proof.
  unfold _clear_edges, neighbours. simpl. unfold bind, ret.
  repeat match goal with
  | |- context [_clear_tile ?a ?b ?s] =>
      destruct (_clear_tile a b s) as [? [[] | ?]]; try reflexivity
  end.
Qed.

Lemma board_step_in_bounds t g g' c :
  board_step t g g' -> in_bounds g' c = in_bounds g c.
Proof. by intros ([b ->] & _). Qed.

Lemma clear_edges_interior g c :
  well_formed g -> interior g c = true ->
  exists g', _clear_edges c.1 c.2 g = (g', Ok tt) /\
             board_step (neighbours c) g g'.
Proof.
  intros Hwf Hint. destruct c as [x y]. simpl fst. simpl snd.
  rewrite clear_edges_for_each.
  unfold interior in Hint. rewrite forallb_forall in Hint.
  assert (hoare (board_step [] g)
            (for_each (neighbours (x, y)) (fun n => _clear_tile n.1 n.2))
            (fun _ => board_step (neighbours (x, y)) g)) as H.
  { apply (hoare_for_each (fun pre => board_step pre g)).
    intros pre n rest E g1 Hstep.
    assert (in_bounds g1 n = true) as Hn.
    { rewrite (board_step_in_bounds _ _ _ _ Hstep). apply Hint.
      apply list_elem_of_In. rewrite E. apply elem_of_app. right.
      by apply elem_of_cons; left. }
    destruct (clear_tile_in_bounds g1 n (proj1 (proj2 Hstep)) Hn)
      as (g2 & E2 & Hstep2 & _).
    exists tt, g2. split; [done |]. by eapply board_step_trans. }
  destruct (H g (board_step_refl g Hwf)) as ([] & g' & E & Hstep).
  by exists g'.
Qed.

(** ** The loop of the sink handler *)

Lemma remove_elem (t : Coord) (l : list Coord) :
  t ∈ l -> exists l', Py.remove t l = Ok l' /\ l ≡ₚ t :: l'.
Proof.
  induction l as [| a l IH]; intros Ht; [by apply elem_of_nil in Ht |].
  simpl. destruct (decide (a = t)) as [-> | Hne].
  - by exists l.
  - apply elem_of_cons in Ht as [-> | Ht]; [done |].
    destruct (IH Ht) as (l' & -> & Hp). exists (a :: l'). simpl.
    split; [done |]. by rewrite Hp, Permutation_swap.
Qed.

Lemma remove_not_elem (t : Coord) (l : list Coord) :
  t ∉ l -> Py.remove t l = Raise ValueError.
Proof.
  induction l as [| a l IH]; intros Ht; [done |].
  apply not_elem_of_cons in Ht as [Hne Ht].
  simpl. rewrite decide_False by done. by rewrite IH.
Qed.

Lemma settled_sunk g c : mark g c = Some "#"%string -> settled g c.
Proof. by left. Qed.

Lemma sink_tile_step g0 pre t g :
  sunk_through pre g0 g ->
  in_bounds g0 t = true ->
  (mode g0 = "n"%string -> interior g0 t = true) ->
  t ∉ pre ->
  t ∈ hit_mem g0 ->
  exists g', sink_tile t.1 t.2 g = (g', Ok tt) /\
             sunk_through (pre ++ [t]) g0 g'.
Proof.
  intros ((b0 & hm & ->) & Hwf & Hperm & Hsunk & Hnb & Hframe)
         Hc Hint Hfresh Hhit.
  destruct t as [x y]. simpl fst. simpl snd.
  set (g := set_hit_mem hm (set_board b0 g0)) in *.
  destruct (board_set_in_bounds g x y "#" Hwf Hc)
    as (b1 & E1 & Hwf1 & Hm1 & Ho1).
  assert ((x, y) ∈ hm) as Hin_hm.
  { simpl in Hperm. rewrite Hperm in Hhit.
    apply elem_of_app in Hhit as [? | ?]; done. }
  destruct (remove_elem (x, y) hm Hin_hm) as (l' & Er & Hp').
  set (g2 := set_hit_mem l' (set_board b1 g)).
  assert (exists g3,
            when (String.eqb (mode g2) "n") (_clear_edges x y) g2
              = (g3, Ok tt) /\
            (exists b3, g3 = set_board b3 g2) /\
            well_formed g3 /\
            (mode g0 = "n"%string ->
             forall n, n ∈ neighbours (x, y) -> settled g3 n) /\
            (forall c, settled g2 c -> settled g3 c) /\
            (forall c, mark g2 c = Some "#"%string ->
               mark g3 c = Some "#"%string) /\
            (forall c,
               (mode g0 = "n"%string -> c ∉ neighbours (x, y)) ->
               mark g3 c = mark g2 c))
    as (g3 & E3 & [b3 Hg3] & Hwf3 & Hnb3 & Hset3 & Hkeep3 & Hframe3).
  { replace (mode g2) with (mode g0) by done.
    destruct (String.eqb_spec (mode g0) "n") as [Hn | Hn]; simpl.
    - destruct (clear_edges_interior g2 (x, y) Hwf1 (Hint Hn))
        as (g3 & E3 & Hb & Hwf3 & Ht3 & Hs3 & Hk3 & Hf3).
      exists g3. split; [done |]. split; [done |]. split; [done |].
      split; [intros _; exact Ht3 |]. split; [done |]. split; [done |].
      intros c Hfar. apply Hf3. by apply Hfar.
    - exists g2. split; [done |].
      split; [exists (board g2); by rewrite set_board_id |].
      split; [done |]. split; [done |]. done. }
  exists g3. split.
  { unfold sink_tile, bind, self, hit_mem_remove. rewrite E1.
    replace (hit_mem (set_board b1 g)) with hm by done.
    rewrite Er. exact E3. }
  assert (forall c, mark g2 c = mark (set_board b1 g) c) as Hg2 by done.
  assert (forall c, c <> (x, y) -> mark g2 c = mark g c) as Hg2_other.
  { intros c Hne. rewrite Hg2. by apply Ho1. }
  split; [| split; [| split; [| split; [| split]]]].
  - exists b3, l'. by rewrite Hg3.
  - done.
  - replace (hit_mem g3) with l' by (by rewrite Hg3).
    rewrite Hperm. simpl. rewrite Hp', <- app_assoc. done.
  - intros c Hc'. apply Hkeep3. rewrite Hg2.
    apply elem_of_app in Hc' as [Hc' | Hc'].
    + rewrite Ho1; [by apply Hsunk |]. by intros ->.
    + by apply list_elem_of_singleton in Hc' as ->.
  - intros Hn p n Hp Hn'.
    apply elem_of_app in Hp as [Hp | Hp].
    + apply Hset3. destruct (decide (n = (x, y))) as [-> | Hne].
      * left. by rewrite Hg2.
      * unfold settled. rewrite Hg2_other by done. by apply (Hnb Hn p).
    + apply list_elem_of_singleton in Hp as ->. by apply Hnb3.
  - intros c Hc' Hfar. rewrite not_elem_of_app in Hc'.
    destruct Hc' as [Hc1 Hc2]. rewrite list_elem_of_singleton in Hc2.
    rewrite Hframe3.
    2: { intros Hn. apply (Hfar Hn). apply elem_of_app. right.
         by apply list_elem_of_singleton. }
    rewrite Hg2_other by done.
    apply Hframe; [done |].
    intros Hn p Hp. apply (Hfar Hn). apply elem_of_app. by left.
Qed.

Lemma sunk_through_start g : well_formed g -> sunk_through [] g g.
Proof.
  intros Hwf. split; [exists (board g), (hit_mem g); by destruct g |].
  split; [done |]. split; [done |].
  split; [intros c Hc; by apply elem_of_nil in Hc |].
  split; [intros _ p n Hp; by apply elem_of_nil in Hp | done].
Qed.

Lemma sink_loop pre g :
  well_formed g ->
  NoDup pre ->
  Forall (fun c => in_bounds g c = true /\ c ∈ hit_mem g) pre ->
  (mode g = "n"%string -> Forall (fun c => interior g c = true) pre) ->
  exists g1, for_each pre (fun c => sink_tile c.1 c.2) g = (g1, Ok tt) /\
             sunk_through pre g g1.
Proof.
  intros Hwf Hnodup Hpre Hint.
  assert (hoare (sunk_through [] g)
            (for_each pre (fun c => sink_tile c.1 c.2))
            (fun _ => sunk_through pre g)) as H.
  { apply (hoare_for_each (fun done => sunk_through done g)).
    intros done t rest E g1 Hg1.
    rewrite E in Hnodup, Hpre, Hint.
    apply NoDup_app in Hnodup as (_ & Hfresh & _).
    rewrite Forall_app, Forall_cons in Hpre.
    destruct Hpre as (_ & [Hc Hhit] & _).
    destruct (sink_tile_step g done t g1 Hg1 Hc) as (g2 & E2 & Hg2).
    - intros Hn. specialize (Hint Hn).
      rewrite Forall_app, Forall_cons in Hint. by destruct Hint as (_ & ? & _).
    - intros Ht. apply (Hfresh t Ht). by apply elem_of_cons; left.
    - done.
    - by exists tt, g2. }
  destruct (H g (sunk_through_start g Hwf)) as ([] & g1 & E & Hg1).
  by exists g1.
Qed.

Lemma span_NoDup sx sy ex ey : NoDup (span sx sy ex ey).
Proof.
  unfold span, Py.range. destruct (sx =? ex).
  - apply NoDup_fmap_2; [by intros a b [= ->] | apply NoDup_seqZ].
  - apply NoDup_fmap_2; [by intros a b [= ->] | apply NoDup_seqZ].
Qed.

(** An exception in the tile loop is the outcome of [sink]. *)
Lemma sink_raises_in_loop sx sy ex ey g g' e :
  for_each (span sx sy ex ey) (fun c => sink_tile c.1 c.2) g
    = (g', Raise e) ->
  sink sx sy ex ey g = (g', Raise e).
Proof.
  unfold span, sink. intros H.
  destruct (sx =? ex); rewrite for_each_fmap in H.
  - destruct (Z.gtb_spec sy ey).
    + rewrite Z.min_r, Z.max_l in H by lia.
      unfold bind at 1 2. simpl in H. by rewrite H.
    + rewrite Z.min_l, Z.max_r in H by lia.
      unfold bind at 1 2. simpl in H. by rewrite H.
  - destruct (Z.gtb_spec sx ex).
    + rewrite Z.min_r, Z.max_l in H by lia.
      unfold bind at 1 2. simpl in H. by rewrite H.
    + rewrite Z.min_l, Z.max_r in H by lia.
      unfold bind at 1 2. simpl in H. by rewrite H.
Qed.

(** C10, as the code has it.  The span is on the grid and [t] is its
    first tile absent from the hit memory; in mode "n" the tiles before
    [t] do not touch the border.  Then [sink] raises [ValueError] at [t]:
    [t] and the tiles before it are marked sunk; in mode "n" the
    neighbours of the tiles before [t] are settled (sunk or miss); every
    other tile, the neighbours of [t] among them, is as before; the ship
    list is untouched, and the hit memory has lost the tiles before [t]
    only. *)
Theorem sink_partial_on_missing_hit g sx sy ex ey pre t post :
  well_formed g ->
  span sx sy ex ey = pre ++ t :: post ->
  Forall (fun c => in_bounds g c = true /\ c ∈ hit_mem g) pre ->
  (mode g = "n"%string -> Forall (fun c => interior g c = true) pre) ->
  in_bounds g t = true ->
  t ∉ hit_mem g ->
  exists g',
    sink sx sy ex ey g = (g', Raise ValueError) /\
    (forall c, c ∈ pre ++ [t] -> mark g' c = Some "#"%string) /\
    (mode g = "n"%string ->
     forall p n, p ∈ pre -> n ∈ neighbours p -> settled g' n) /\
    (forall c,
       c ∉ pre ++ [t] ->
       (mode g = "n"%string -> forall p, p ∈ pre -> c ∉ neighbours p) ->
       mark g' c = mark g c) /\
    ships g' = ships g /\
    hit_mem g ≡ₚ pre ++ hit_mem g'.
Proof.
  intros Hwf Hspan Hpre Hint Hc Hmissing.
  pose proof (span_NoDup sx sy ex ey) as Hnodup. rewrite Hspan in Hnodup.
  apply NoDup_app in Hnodup as (Hnd_pre & Hfresh & _).
  destruct (sink_loop pre g Hwf Hnd_pre Hpre Hint) as (g1 & E1 & Hg1).
  pose proof Hg1 as ((b0 & hm & Eg1) & Hwf1 & Hperm & Hsunk & Hnb & Hframe).
  destruct t as [x y].
  assert (in_bounds g1 (x, y) = true) as Hc1 by (by rewrite Eg1).
  destruct (board_set_in_bounds g1 x y "#" Hwf1 Hc1)
    as (b1 & Eb & Hwfb & Hm & Hother).
  assert ((x, y) ∉ hit_mem g1) as Hmissing1.
  { intros Hin. apply Hmissing. rewrite Hperm. apply elem_of_app. by right. }
  exists (set_board b1 g1). split.
  { apply sink_raises_in_loop. rewrite Hspan, for_each_app.
    unfold bind at 1. rewrite E1. simpl.
    unfold bind at 1. unfold sink_tile. unfold bind at 1. rewrite Eb.
    unfold bind at 1. unfold hit_mem_remove.
    replace (hit_mem (set_board b1 g1)) with (hit_mem g1) by done.
    by rewrite (remove_not_elem _ _ Hmissing1). }
  assert ((x, y) ∉ pre) as Ht_pre.
  { intros Hin. apply (Hfresh _ Hin). by apply elem_of_cons; left. }
  split; [| split; [| split; [| split]]].
  - intros c Hc'. apply elem_of_app in Hc' as [Hc' | Hc'].
    + rewrite Hother; [by apply Hsunk |]. by intros ->.
    + by apply list_elem_of_singleton in Hc' as ->.
  - intros Hn p n Hp Hn'. destruct (decide (n = (x, y))) as [-> | Hne].
    + by left.
    + unfold settled. rewrite Hother by done. by apply (Hnb Hn p).
  - intros c Hc' Hfar. rewrite not_elem_of_app in Hc'.
    destruct Hc' as [Hc1' Hc2]. rewrite list_elem_of_singleton in Hc2.
    rewrite Hother by done. by apply Hframe.
  - by rewrite Eg1.
  - done.
Qed.

Lemma sink_partial_on_missing_hit_witness :
  exists g',
    sink 4 4 4 6 Scenario.one_hit = (g', Raise ValueError) /\
    (forall c, c ∈ [(4, 4)] ++ [(4, 5)] -> mark g' c = Some "#"%string) /\
    (mode Scenario.one_hit = "n"%string ->
     forall p n, p ∈ [(4, 4)] -> n ∈ neighbours p -> settled g' n) /\
    (forall c,
       c ∉ [(4, 4)] ++ [(4, 5)] ->
       (mode Scenario.one_hit = "n"%string ->
        forall p, p ∈ [(4, 4)] -> c ∉ neighbours p) ->
       mark g' c = mark Scenario.one_hit c) /\
    ships g' = ships Scenario.one_hit /\
    hit_mem Scenario.one_hit ≡ₚ [(4, 4)] ++ hit_mem g'.
Proof.
  apply (sink_partial_on_missing_hit Scenario.one_hit 4 4 4 6
           [(4, 4)] (4, 5) [(4, 6)]).
  - apply (bool_decide_unpack _). by vm_compute.
  - by vm_compute.
  - apply (bool_decide_unpack _). by vm_compute.
  - intros _. apply (bool_decide_unpack _). by vm_compute.
  - by vm_compute.
  - apply (bool_decide_unpack _). by vm_compute.
Defined.

(** C10 fails as stated on the edges of the absent tile: in mode "n",
    [sink(5, 5, 5, 5)] with an empty hit memory raises [ValueError] after
    marking [(5, 5)] as sunk, and none of its neighbours is cleared. *)
Lemma sink_missing_hit_edges_not_cleared :
  mode Scenario.fresh = "n"%string /\
  hit_mem Scenario.fresh = [] /\
  (sink 5 5 5 5 Scenario.fresh).2 = Raise ValueError /\
  mark (sink 5 5 5 5 Scenario.fresh).1 (5, 5) = Some "#"%string /\
  Forall (fun n => mark (sink 5 5 5 5 Scenario.fresh).1 n = Some "."%string)
    (neighbours (5, 5)).
Proof.
  repeat split; try (by vm_compute).
  apply (bool_decide_unpack _). by vm_compute.
Qed.

(** ** Probability map builder *)

Lemma wrap32_succ z : wrap32 (wrap32 z + 1) = wrap32 (z + 1).
Proof.
  unfold wrap32.
  replace ((z + 2 ^ 31) mod 2 ^ 32 - 2 ^ 31 + 1 + 2 ^ 31)
    with ((z + 2 ^ 31) mod 2 ^ 32 + 1) by lia.
  rewrite Zplus_mod_idemp_l. do 2 f_equal. lia.
Qed.

Lemma wrap32_small z : - 2 ^ 31 <= z < 2 ^ 31 -> wrap32 z = z.
Proof. intros H. unfold wrap32. rewrite Z.mod_small; lia. Qed.

Lemma pm_holds_ext g0 f f' g :
  (forall c, f c = f' c) -> pm_holds g0 f g -> pm_holds g0 f' g.
Proof.
  intros Hf (pm & Eg & Hs & Hcells). exists pm.
  split; [done |]. split; [done |].
  intros c Hc. rewrite <- Hf. by apply Hcells.
Qed.

(** One increment of a cell on the grid. *)
Lemma prob_incr_step g0 f t :
  in_bounds g0 t = true ->
  hoare (pm_holds g0 f) (prob_incr t.1 t.2)
    (fun _ => pm_holds g0 (fun c => f c + b2z (bool_decide (t = c)))).
Proof.
  intros Ht g (pm & -> & Hs & Hcells).
  apply in_bounds_spec in Ht as Hxy.
  destruct (setitem2_shaped _ _ pm t.1 t.2 (wrap32 (wrap32 (f t) + 1)) Hs)
    as (pm' & E' & Hs' & Hget & Hother); [lia | lia |].
  exists tt, (set_prob_map pm' g0). split.
  - unfold prob_incr. simpl.
    rewrite (getitem2_grid_at pm t (wrap32 (f t))) by (lia || by apply Hcells).
    simpl. by rewrite E'.
  - exists pm'. split; [done |]. split; [done |].
    intros c Hc. destruct (decide (t = c)) as [<- | Hne].
    + rewrite bool_decide_eq_true_2 by done. simpl.
      rewrite <- wrap32_succ. by destruct t.
    + rewrite bool_decide_eq_false_2 by done. simpl. rewrite Z.add_0_r.
      apply in_bounds_spec in Hc as Hc'.
      rewrite Hother; [by apply Hcells | lia | lia |].
      intros ->. by destruct t.
Qed.

(** A loop of the right shape adds up what each pass adds. *)
Lemma hoare_sum_loop {A} g0 (l : list A) (body : A -> M unit)
    (F : A -> Coord -> Z) :
  (forall a f, a ∈ l ->
     hoare (pm_holds g0 f) (body a)
       (fun _ => pm_holds g0 (fun c => f c + F a c))) ->
  forall f,
    hoare (pm_holds g0 f) (for_each l body)
      (fun _ => pm_holds g0 (fun c => f c + sum_with (fun a => F a c) l)).
Proof.
  induction l as [| a l IH]; intros Hbody f; simpl.
  - apply hoare_ret. intros g. apply pm_holds_ext. intros c. lia.
  - eapply hoare_bind.
    + apply Hbody. by apply elem_of_cons; left.
    + intros u. simpl. eapply hoare_conseq.
      * apply IH. intros b f' Hb. apply Hbody. by apply elem_of_cons; right.
      * done.
      * intros u' g. apply pm_holds_ext. intros c. simpl. lia.
Qed.

Lemma incr_loop g0 f (ts : list Coord) :
  Forall (fun t => in_bounds g0 t = true) ts ->
  hoare (pm_holds g0 f) (for_each ts (fun t => prob_incr t.1 t.2))
    (fun _ => pm_holds g0 (fun c =>
       f c + sum_with (fun t => b2z (bool_decide (t = c))) ts)).
Proof.
  intros Hts.
  apply (hoare_sum_loop g0 ts _ (fun t c => b2z (bool_decide (t = c)))).
  intros t f' Ht. apply prob_incr_step.
  rewrite Forall_forall in Hts. by apply Hts.
Qed.

(** A list without duplicates holds an element once or not at all. *)
Lemma sum_with_occurrences (c : Coord) (ts : list Coord) :
  NoDup ts ->
  sum_with (fun t => b2z (bool_decide (t = c))) ts = b2z (bool_decide (c ∈ ts)).
Proof.
  induction 1 as [| t ts Hnot Hnd IH]; simpl.
  - done.
  - rewrite IH. destruct (decide (t = c)) as [-> | Hne].
    + rewrite bool_decide_eq_true_2 by done.
      rewrite (bool_decide_eq_false_2 (c ∈ ts)) by done.
      rewrite bool_decide_eq_true_2; [done | by apply elem_of_cons; left].
    + rewrite bool_decide_eq_false_2 by done. simpl.
      destruct (decide (c ∈ ts)) as [Hin | Hout].
      * rewrite !bool_decide_eq_true_2; [done | | done].
        by apply elem_of_cons; right.
      * rewrite !bool_decide_eq_false_2; [done | | done].
        rewrite not_elem_of_cons. split; [congruence | done].
Qed.

Lemma tiles_NoDup p : NoDup (tiles p).
Proof.
  unfold tiles, Py.range. apply NoDup_fmap_2; [| apply NoDup_seqZ].
  intros a b E. unfold shifted in E.
  destruct (p_dir p); simplify_eq; lia.
Qed.

Lemma tile_mark g x y :
  well_formed g -> in_bounds g (x, y) = true ->
  exists s, board_get g x y = Ok s /\
            is_unknown g (x, y) = negb (str_ne s ".").
Proof.
  intros Hwf Hc. destruct (mark_in_bounds g (x, y) Hwf Hc) as [s Hs].
  exists s. split; [| by apply is_unknown_mark].
  by apply (board_get_mark g (x, y)).
Qed.

(** One pass of the [shift] loop keeps a flag iff the tile it looks at is
    an unknown tile of the grid. *)
Lemma check_shift_spec g x y v k :
  well_formed g -> in_bounds g (x, y) = true -> 0 <= k ->
  check_shift g x y v k =
    Ok (v.1 && is_unknown g (shifted Horizontal (x, y) k),
        v.2 && is_unknown g (shifted Vertical (x, y) k)).
Proof.
  intros Hwf Hc Hk. apply in_bounds_spec in Hc as Hxy. simpl in Hxy.
  unfold check_shift, shifted. simpl fst. simpl snd.
  assert (forall c (b : bool),
            (if (if in_bounds g c then false else true) then false else b)
            = b && in_bounds g c) as Hoff.
  { intros c b. destruct (in_bounds g c), b; done. }
  destruct (Z.geb_spec (x + k) (width g)) as [Hx | Hx];
    destruct (Z.geb_spec (y + k) (height g)) as [Hy | Hy]; simpl.
  - rewrite !is_unknown_off_grid by (apply in_bounds_false; simpl; lia).
    by rewrite !andb_false_r.
  - destruct (tile_mark g x (y + k) Hwf) as (s & -> & ->);
      [apply in_bounds_spec; simpl; lia |]. simpl.
    rewrite is_unknown_off_grid by (apply in_bounds_false; simpl; lia).
    rewrite andb_false_r. by destruct (str_ne s "."), (v.2).
  - destruct (tile_mark g (x + k) y Hwf) as (s & -> & ->);
      [apply in_bounds_spec; simpl; lia |]. simpl.
    rewrite is_unknown_off_grid by (apply in_bounds_false; simpl; lia).
    rewrite andb_false_r. by destruct (str_ne s "."), (v.1).
  - destruct (tile_mark g (x + k) y Hwf) as (s & -> & ->);
      [apply in_bounds_spec; simpl; lia |]. simpl.
    destruct (tile_mark g x (y + k) Hwf) as (s' & -> & ->);
      [apply in_bounds_spec; simpl; lia |]. simpl.
    by destruct (str_ne s "."), (str_ne s' "."), (v.1), (v.2).
Qed.

Lemma check_loop_spec g x y l v :
  well_formed g -> in_bounds g (x, y) = true -> Forall (Z.le 0) l ->
  rfold (check_shift g x y) l v =
    Ok (v.1 && forallb (is_unknown g) (shifted Horizontal (x, y) <$> l),
        v.2 && forallb (is_unknown g) (shifted Vertical (x, y) <$> l)).
Proof.
  intros Hwf Hc Hl. revert v.
  induction Hl as [| k l Hk Hl IH]; intros v.
  - simpl. rewrite !andb_true_r. by destruct v.
  - rewrite !fmap_cons. simpl rfold.
    rewrite check_shift_spec by done. simpl rbind.
    rewrite IH. simpl. by rewrite !andb_assoc.
Qed.

Lemma valid_forallb g p :
  fits g p && all_unknown g p = forallb (is_unknown g) (tiles p).
Proof.
  unfold fits, all_unknown. induction (tiles p) as [| c l IH]; [done |].
  simpl. destruct (is_unknown g c) eqn:Ec.
  - unfold is_unknown in Ec. apply bool_decide_eq_true in Ec.
    by rewrite (mark_Some_in_bounds _ _ _ Ec).
  - simpl. by rewrite andb_false_r.
Qed.

(** [check_valid] decides, for each orientation, whether the placement at
    the origin fits the grid and lies on unknown tiles. *)
Lemma check_valid_spec g len x y :
  well_formed g -> in_bounds g (x, y) = true ->
  check_valid g len x y =
    Ok (let p := mkPlacement len Horizontal (x, y) in
        fits g p && all_unknown g p,
        let p := mkPlacement len Vertical (x, y) in
        fits g p && all_unknown g p).
Proof.
  intros Hwf Hc. unfold check_valid.
  rewrite check_loop_spec; [| done | done |].
  - simpl. by rewrite !valid_forallb.
  - unfold Py.range. apply Forall_seqZ. lia.
Qed.

Lemma fits_in_bounds g p :
  fits g p = true -> Forall (fun t => in_bounds g t = true) (tiles p).
Proof.
  unfold fits. rewrite forallb_forall, Forall_forall.
  intros H t Ht. apply H. by apply list_elem_of_In.
Qed.

(** The increments for one placement. *)
Lemma incr_placement g0 f p :
  hoare (pm_holds g0 f)
    (when (fits g0 p && all_unknown g0 p)
       (for_each (tiles p) (fun t => prob_incr t.1 t.2)))
    (fun _ => pm_holds g0 (fun c => f c + b2z (covering g0 c p))).
Proof.
  unfold covering. destruct (fits g0 p) eqn:Ef; simpl.
  - destruct (all_unknown g0 p) eqn:Eu; simpl.
    + eapply hoare_conseq.
      * apply incr_loop. by apply fits_in_bounds.
      * done.
      * intros u g. apply pm_holds_ext. intros c. simpl.
        rewrite sum_with_occurrences by apply tiles_NoDup.
        unfold covers. by rewrite andb_true_r.
    + apply hoare_ret. intros g. apply pm_holds_ext. intros c.
      rewrite andb_false_r. simpl. lia.
  - apply hoare_ret. intros g. apply pm_holds_ext. intros c. simpl. lia.
Qed.

(** The body of the [x] loop adds the contribution of its origin. *)
Lemma prob_origin_step g0 len x y f :
  well_formed g0 -> in_bounds g0 (x, y) = true ->
  hoare (pm_holds g0 f) (prob_origin len x y)
    (fun _ => pm_holds g0 (fun c => f c + contribution g0 len (x, y) c)).
Proof.
  intros Hwf Hc. unfold prob_origin.
  set (ph := mkPlacement len Horizontal (x, y)).
  set (pv := mkPlacement len Vertical (x, y)).
  apply (hoare_bind _ _ _
    (fun valid g =>
       valid = (fits g0 ph && all_unknown g0 ph,
                fits g0 pv && all_unknown g0 pv) /\ pm_holds g0 f g)).
  { apply hoare_eval. intros g Hg. eexists. split; [| split; [done | done]].
    destruct Hg as (pm & -> & _).
    exact (check_valid_spec g0 len x y Hwf Hc). }
  intros valid g [-> Hg]. revert g Hg. simpl fst. simpl snd.
  change (hoare (pm_holds g0 f)
    (_ <- when (fits g0 ph && all_unknown g0 ph)
            (for_each (Py.range 0 len) (fun k => prob_incr (x + k) y)) ;;
     when (fits g0 pv && all_unknown g0 pv)
       (for_each (Py.range 0 len) (fun k => prob_incr x (y + k))))
    (fun _ => pm_holds g0 (fun c => f c + contribution g0 len (x, y) c))).
  eapply hoare_bind.
  - assert (for_each (Py.range 0 len) (fun k => prob_incr (x + k) y)
            = for_each (tiles ph) (fun t => prob_incr t.1 t.2)) as ->
      by (unfold tiles; by rewrite for_each_fmap).
    apply incr_placement.
  - intros u. simpl.
    assert (for_each (Py.range 0 len) (fun k => prob_incr x (y + k))
            = for_each (tiles pv) (fun t => prob_incr t.1 t.2)) as ->
      by (unfold tiles; by rewrite for_each_fmap).
    eapply hoare_conseq; [apply incr_placement | done |].
    intros u' g. apply pm_holds_ext. intros c. unfold contribution.
    fold ph pv. simpl. lia.
Qed.

Lemma hoare_self_bind {B} (P : Battleship -> Prop)
    (k : Battleship -> M B) (Q : B -> Battleship -> Prop) :
  (forall g0, P g0 -> hoare (fun g => g = g0) (k g0) Q) ->
  hoare P (g <- self ;; k g) Q.
Proof. intros H g Hg. unfold bind, self. by apply (H g Hg g). Qed.

Lemma pm_holds_static g0 f g :
  pm_holds g0 f g ->
  width g = width g0 /\ height g = height g0 /\ ships g = ships g0.
Proof. by intros (pm & -> & _). Qed.

(** The [x] loop of a row. *)
Lemma prob_row_loop g0 len y f :
  well_formed g0 -> 0 <= y < height g0 ->
  hoare (pm_holds g0 f)
    (g <- self ;;
     for_each (Py.range 0 (width g)) (fun x => prob_origin len x y))
    (fun _ => pm_holds g0 (fun c =>
       f c + sum_with (fun x => contribution g0 len (x, y) c)
               (Py.range 0 (width g0)))).
Proof.
  intros Hwf Hy. apply hoare_self_bind. intros g1 H1.
  destruct (pm_holds_static _ _ _ H1) as (-> & _ & _).
  eapply hoare_conseq;
    [apply (hoare_sum_loop g0 _ _
              (fun x c => contribution g0 len (x, y) c))
    | intros g ->; exact H1 | done].
  intros x f' Hx. apply prob_origin_step; [done |].
  unfold Py.range in Hx. apply elem_of_seqZ in Hx.
  apply in_bounds_spec. simpl. lia.
Qed.

(** The [y] loop of a ship. *)
Lemma prob_ship_loop g0 len f :
  well_formed g0 ->
  hoare (pm_holds g0 f)
    (g <- self ;;
     for_each (Py.range 0 (height g)) (fun y =>
       g <- self ;;
       for_each (Py.range 0 (width g)) (fun x => prob_origin len x y)))
    (fun _ => pm_holds g0 (fun c =>
       f c + sum_with (fun y =>
               sum_with (fun x => contribution g0 len (x, y) c)
                 (Py.range 0 (width g0)))
               (Py.range 0 (height g0)))).
Proof.
  intros Hwf. apply hoare_self_bind. intros g1 H1.
  destruct (pm_holds_static _ _ _ H1) as (_ & -> & _).
  eapply hoare_conseq;
    [apply (hoare_sum_loop g0 _ _
              (fun y c => sum_with (fun x => contribution g0 len (x, y) c)
                            (Py.range 0 (width g0))))
    | intros g ->; exact H1 | done].
  intros y f' Hy. apply prob_row_loop; [done |].
  unfold Py.range in Hy. apply elem_of_seqZ in Hy. lia.
Qed.

Lemma zeros_grid_at w h c :
  0 <= c.1 < w -> 0 <= c.2 < h ->
  grid_at (replicate (Z.to_nat w) (replicate (Z.to_nat h) 0)) c = Some 0.
Proof.
  intros H1 H2. unfold grid_at.
  rewrite lookup_replicate_2 by lia. simpl.
  apply lookup_replicate_2. lia.
Qed.

Lemma gen_prob_map_loops g :
  well_formed g ->
  exists pm,
    _gen_prob_map g = (set_prob_map pm g, Ok tt) /\
    shaped (width g) (height g) pm /\
    forall c, in_bounds g c = true ->
      grid_at pm c = Some (wrap32 (loop_count g c)).
Proof.
  intros Hwf. pose proof Hwf as (Hw & Hh & _).
  assert (hoare (fun s => s = g) _gen_prob_map
            (fun _ => pm_holds g (fun c => 0 + loop_count g c))) as H.
  { unfold _gen_prob_map. apply hoare_self_bind. intros ? ->.
    apply (hoare_bind _ _ _
      (fun zeros s =>
         s = g /\
         zeros = replicate (Z.to_nat (width g))
                   (replicate (Z.to_nat (height g)) 0))).
    { apply hoare_eval. intros s ->. eexists. split; [| done].
      unfold np_zeros.
      destruct (Z.ltb_spec (width g) 0); [lia |].
      destruct (Z.ltb_spec (height g) 0); [lia | done]. }
    intros zeros.
    apply (hoare_bind _ _ _ (fun _ => pm_holds g (fun _ => 0))).
    { apply hoare_assign. intros s [-> ->]. eexists.
      split; [done |]. split.
      - split; [by rewrite length_replicate |].
        apply Forall_replicate. by rewrite length_replicate.
      - intros c Hc. apply in_bounds_spec in Hc.
        by rewrite zeros_grid_at by lia. }
    intros u. apply hoare_self_bind. intros g1 H1.
    destruct (pm_holds_static _ _ _ H1) as (_ & _ & ->).
    eapply hoare_conseq;
      [apply (hoare_sum_loop g _ _
                (fun len c =>
                   sum_with (fun y =>
                     sum_with (fun x => contribution g len (x, y) c)
                       (Py.range 0 (width g)))
                     (Py.range 0 (height g))))
      | intros s ->; exact H1 | done].
    intros len f' Hlen. by apply prob_ship_loop. }
  destruct (H g eq_refl) as ([] & g' & E & pm & -> & Hs & Hcells).
  exists pm. split; [done |]. split; [done |].
  intros c Hc. rewrite Hcells by done. by rewrite Z.add_0_l.
Qed.

(** ** The map counts placements *)

Lemma count_if_nil {A} (P : A -> bool) : count_if P [] = 0.
Proof. done. Qed.

Lemma count_if_cons {A} (P : A -> bool) a l :
  count_if P (a :: l) = b2z (P a) + count_if P l.
Proof.
  unfold count_if. rewrite filter_cons.
  destruct (P a) eqn:E; simpl; lia.
Qed.

Lemma count_if_app {A} (P : A -> bool) l1 l2 :
  count_if P (l1 ++ l2) = count_if P l1 + count_if P l2.
Proof.
  unfold count_if. rewrite filter_app, length_app. lia.
Qed.

Lemma count_if_sum {A} (P : A -> bool) l :
  count_if P l = sum_with (fun a => b2z (P a)) l.
Proof.
  induction l as [| a l IH]; [done |].
  rewrite count_if_cons, IH. done.
Qed.

Lemma sum_with_app {A} (F : A -> Z) l1 l2 :
  sum_with F (l1 ++ l2) = sum_with F l1 + sum_with F l2.
Proof.
  induction l1 as [| a l1 IH]; simpl; [done |]. rewrite IH. lia.
Qed.

Lemma sum_with_bind {A B} (F : B -> Z) (k : A -> list B) l :
  sum_with F (l ≫= k) = sum_with (fun a => sum_with F (k a)) l.
Proof.
  induction l as [| a l IH]; [done |].
  rewrite bind_cons, sum_with_app, IH. done.
Qed.

Lemma sum_with_ext {A} (F G : A -> Z) l :
  (forall a, a ∈ l -> F a = G a) -> sum_with F l = sum_with G l.
Proof.
  induction l as [| a l IH]; intros H; simpl; [done |].
  rewrite H by (by apply elem_of_cons; left).
  rewrite IH; [done |]. intros b Hb. apply H. by apply elem_of_cons; right.
Qed.

(** What the loops add up is the number of placements of the
    specification. *)
Lemma loop_count_spec g c : loop_count g c = placement_count g (ships g) c.
Proof.
  unfold loop_count, placement_count. apply sum_with_ext. intros len _.
  rewrite count_if_sum. unfold placements, grid_tiles.
  rewrite !sum_with_bind. apply sum_with_ext. intros y _.
  rewrite !sum_with_bind. apply sum_with_ext. intros x _.
  simpl. unfold contribution, covering. lia.
Qed.

(** Every placement that fits the grid and covers a tile has its origin
    on the grid, so [placements] lists all of them. *)
Lemma placements_complete g p c :
  fits g p = true -> covers p c = true -> p ∈ placements g (p_len p).
Proof.
  intros Hfit Hcov. unfold covers in Hcov.
  apply bool_decide_eq_true in Hcov.
  assert (p_origin p ∈ tiles p) as Ho.
  { unfold tiles, Py.range in *.
    apply list_elem_of_fmap in Hcov as (k & _ & Hk).
    apply elem_of_seqZ in Hk.
    apply list_elem_of_fmap. exists 0. split.
    - unfold shifted. destruct (p_dir p), (p_origin p); simpl; f_equal; lia.
    - apply elem_of_seqZ. lia. }
  apply fits_in_bounds in Hfit. rewrite Forall_forall in Hfit.
  apply Hfit, in_bounds_spec in Ho.
  unfold placements, grid_tiles, Py.range.
  apply list_elem_of_bind. exists (p_origin p). split.
  - destruct p as [len [] o]; simpl.
    + by apply elem_of_cons; left.
    + apply elem_of_cons; right. by apply elem_of_cons; left.
  - apply list_elem_of_bind. exists (p_origin p).2. split.
    + apply list_elem_of_bind. exists (p_origin p).1. split.
      * destruct (p_origin p). by apply elem_of_cons; left.
      * apply elem_of_seqZ. lia.
    + apply elem_of_seqZ. lia.
Qed.

Lemma placement_count_nonneg g l c : 0 <= placement_count g l c.
Proof.
  unfold placement_count. induction l as [| len l IH]; simpl; [done |].
  unfold count_if at 1. lia.
Qed.

(** C1, as the code has it.  On a well-formed board [_gen_prob_map]
    returns normally and changes nothing but the map; the map has the
    shape of the grid, and the cell of every tile holds the number of
    placements of the remaining ships that fit, cover the tile and lie on
    unknown tiles, reduced to a signed 32-bit integer; so it holds that
    number itself whenever the number is below 2^31. *)
Theorem prob_map_counts_placements g :
  well_formed g ->
  exists pm,
    _gen_prob_map g = (set_prob_map pm g, Ok tt) /\
    shaped (width g) (height g) pm /\
    forall c, in_bounds g c = true ->
      grid_at pm c = Some (wrap32 (placement_count g (ships g) c)) /\
      (placement_count g (ships g) c < 2 ^ 31 ->
       grid_at pm c = Some (placement_count g (ships g) c)).
Proof.
  intros Hwf.
  destruct (gen_prob_map_loops g Hwf) as (pm & E & Hs & Hcells).
  exists pm. split; [done |]. split; [done |].
  intros c Hc. rewrite Hcells, loop_count_spec by done.
  split; [done |]. intros Hsmall.
  rewrite wrap32_small; [done |].
  pose proof (placement_count_nonneg g (ships g) c). lia.
Qed.

Lemma prob_map_counts_placements_witness :
  exists pm,
    _gen_prob_map Scenario.fresh = (set_prob_map pm Scenario.fresh, Ok tt) /\
    shaped (width Scenario.fresh) (height Scenario.fresh) pm /\
    forall c, in_bounds Scenario.fresh c = true ->
      grid_at pm c =
        Some (wrap32 (placement_count Scenario.fresh
                        (ships Scenario.fresh) c)) /\
      (placement_count Scenario.fresh (ships Scenario.fresh) c < 2 ^ 31 ->
       grid_at pm c =
         Some (placement_count Scenario.fresh (ships Scenario.fresh) c)).
Proof.
  apply prob_map_counts_placements.
  apply (bool_decide_unpack _). by vm_compute.
Defined.

Lemma init_well_formed ships mode w h :
  0 <= w -> 0 <= h -> well_formed (init ships mode w h).
Proof.
  intros Hw Hh. split; [done |]. split; [done |]. split.
  - apply length_replicate.
  - apply Forall_replicate. apply length_replicate.
Qed.

Lemma sum_with_replicate {A} (F : A -> Z) n a :
  sum_with F (replicate n a) = Z.of_nat n * F a.
Proof.
  induction n as [| n IH]; [done |].
  rewrite replicate_S. change (sum_with F (a :: replicate n a))
    with (F a + sum_with F (replicate n a)).
  rewrite IH. lia.
Qed.

Lemma one_tile_count ships n :
  placement_count (init ships "n" 1 1) (replicate n 1) (0, 0)
  = 2 * Z.of_nat n.
Proof.
  unfold placement_count. rewrite sum_with_replicate.
  assert (count_if (covering (init ships "n" 1 1) (0, 0))
            (placements (init ships "n" 1 1) 1) = 2) as ->
    by (by vm_compute).
  lia.
Qed.

(** C1 fails as stated for a list of 2^30 ships of length one on a board
    of one tile: 2^31 placements cover the tile, and the [int32] cell
    holds -2^31. *)
Lemma prob_map_wraps_around :
  exists pm,
    _gen_prob_map Scenario.crowded
      = (set_prob_map pm Scenario.crowded, Ok tt) /\
    placement_count Scenario.crowded (ships Scenario.crowded) (0, 0)
      = 2 ^ 31 /\
    grid_at pm (0, 0) = Some (- 2 ^ 31).
Proof.
  assert (well_formed Scenario.crowded) as Hwf
    by (apply init_well_formed; lia).
  destruct (gen_prob_map_loops Scenario.crowded Hwf) as (pm & E & _ & Hcells).
  exists pm. split; [exact E |].
  assert (placement_count Scenario.crowded (ships Scenario.crowded) (0, 0)
          = 2 ^ 31) as Hcount.
  { change (ships Scenario.crowded)
      with (replicate (Z.to_nat (2 ^ 30)) 1).
    unfold Scenario.crowded. rewrite one_tile_count.
    rewrite Z2Nat.id by lia. lia. }
  split; [exact Hcount |].
  rewrite Hcells by reflexivity.
  rewrite loop_count_spec, Hcount. reflexivity.
Qed.

(** ** The sum of the map *)

Lemma sum_with_add {A} (F G : A -> Z) l :
  sum_with (fun a => F a + G a) l = sum_with F l + sum_with G l.
Proof. induction l as [| a l IH]; simpl; [done |]. rewrite IH. lia. Qed.

Lemma sum_with_scale {A} (k : Z) (F : A -> Z) l :
  sum_with (fun a => k * F a) l = k * sum_with F l.
Proof. induction l as [| a l IH]; simpl; [lia |]. rewrite IH. lia. Qed.

Lemma sum_with_zero {A} (l : list A) : sum_with (fun _ => 0) l = 0.
Proof. induction l as [| a l IH]; simpl; [done |]. by rewrite IH. Qed.

Lemma sum_with_swap {A B} (K : A -> B -> Z) la lb :
  sum_with (fun a => sum_with (K a) lb) la
  = sum_with (fun b => sum_with (fun a => K a b) la) lb.
Proof.
  induction la as [| a la IH]; simpl.
  - by rewrite sum_with_zero.
  - by rewrite IH, sum_with_add.
Qed.

(** Summing a list entry by entry or index by index. *)
Lemma sum_with_lookup {A} (l : list A) (val : A -> Z) (G : Z -> Z) :
  (forall (i : nat) a, l !! i = Some a -> val a = G (Z.of_nat i)) ->
  sum_with val l = sum_with G (seqZ 0 (Z.of_nat (length l))).
Proof.
  induction l as [| a l IH] using rev_ind; intros H; [done |].
  rewrite length_app. simpl length.
  replace (length l + 1)%nat with (S (length l)) by lia.
  rewrite seqZ_S, !sum_with_app. simpl.
  rewrite IH.
  - rewrite (H (length l) a); [done |].
    rewrite lookup_app_r by lia. by rewrite Nat.sub_diag.
  - intros i b Hi. apply H. rewrite lookup_app_l; [done |].
    by eapply lookup_lt_Some.
Qed.

Lemma sum_cells_grid g (pm : list (list Z)) (F : Coord -> Z) :
  0 <= width g -> 0 <= height g ->
  shaped (width g) (height g) pm ->
  (forall c, in_bounds g c = true -> grid_at pm c = Some (F c)) ->
  sum_cells pm = sum_with F (grid_cells g).
Proof.
  intros Hw Hh [Hlen Hrows] Hcells.
  unfold sum_cells, grid_cells, Py.range.
  rewrite sum_with_bind.
  rewrite (sum_with_lookup pm (sum_with id)
             (fun x => sum_with F (seqZ 0 (height g - 0) ≫= fun y => [(x, y)]))).
  { rewrite Hlen. by replace (Z.of_nat (Z.to_nat (width g))) with (width g - 0)
      by lia. }
  intros i row Hrow. rewrite sum_with_bind.
  assert (length row = Z.to_nat (height g)) as Hrow_len.
  { rewrite Forall_forall in Hrows. apply Hrows.
    by eapply list_elem_of_lookup_2. }
  apply lookup_lt_Some in Hrow as Hi.
  rewrite (sum_with_lookup row id (fun y => sum_with F [(Z.of_nat i, y)])).
  { rewrite Hrow_len. by replace (Z.of_nat (Z.to_nat (height g)))
      with (height g - 0) by lia. }
  intros j v Hv. apply lookup_lt_Some in Hv as Hj. simpl.
  assert (in_bounds g (Z.of_nat i, Z.of_nat j) = true) as Hc
    by (apply in_bounds_spec; simpl; lia).
  specialize (Hcells _ Hc). unfold grid_at in Hcells. simpl in Hcells.
  rewrite !Nat2Z.id, Hrow in Hcells. simpl in Hcells.
  rewrite Hv in Hcells. simplify_eq. unfold id. lia.
Qed.

Lemma grid_cells_elem g c : c ∈ grid_cells g <-> in_bounds g c = true.
Proof.
  unfold grid_cells, Py.range. rewrite in_bounds_spec, list_elem_of_bind.
  split.
  - intros (x & Hc & Hx). apply list_elem_of_bind in Hc as (y & Hc & Hy).
    apply list_elem_of_singleton in Hc as ->.
    apply elem_of_seqZ in Hx, Hy. simpl. lia.
  - intros [Hx Hy]. exists c.1. split; [| apply elem_of_seqZ; lia].
    apply list_elem_of_bind. exists c.2. split; [| apply elem_of_seqZ; lia].
    destruct c. by apply list_elem_of_singleton.
Qed.

Lemma grid_cells_NoDup g : NoDup (grid_cells g).
Proof.
  unfold grid_cells, Py.range. apply NoDup_bind; [| | apply NoDup_seqZ].
  - intros x1 x2 c _ _ H1 H2.
    apply list_elem_of_bind in H1 as (y1 & H1 & _).
    apply list_elem_of_bind in H2 as (y2 & H2 & _).
    apply list_elem_of_singleton in H1, H2. by simplify_eq.
  - intros x _. apply NoDup_bind; [| | apply NoDup_seqZ].
    + intros y1 y2 c _ _ H1 H2.
      apply list_elem_of_singleton in H1, H2. by simplify_eq.
    + intros y _. apply NoDup_singleton.
Qed.

(** A set of cells of a list without duplicates is counted once each. *)
Lemma sum_with_members (G ts : list Coord) :
  NoDup G -> NoDup ts -> (forall t, t ∈ ts -> t ∈ G) ->
  sum_with (fun c => b2z (bool_decide (c ∈ ts))) G = Z.of_nat (length ts).
Proof.
  intros HG Hts. induction Hts as [| t ts Hnot Hnd IH]; intros Hsub.
  - simpl. apply sum_with_zero.
  - rewrite (sum_with_ext _
      (fun c => b2z (bool_decide (c = t)) + b2z (bool_decide (c ∈ ts)))).
    + rewrite sum_with_add, IH
        by (intros; apply Hsub; by apply elem_of_cons; right).
      rewrite sum_with_occurrences by done.
      rewrite bool_decide_eq_true_2
        by (apply Hsub; by apply elem_of_cons; left).
      simpl length. simpl b2z. lia.
    + intros c _. destruct (decide (c = t)) as [-> | Hne].
      * rewrite (bool_decide_eq_true_2 (t ∈ t :: ts))
          by (by apply elem_of_cons; left).
        rewrite bool_decide_eq_true_2 by done.
        by rewrite (bool_decide_eq_false_2 (t ∈ ts)).
      * rewrite (bool_decide_eq_false_2 (c = t)) by done.
        destruct (decide (c ∈ ts)) as [Hin | Hout].
        -- rewrite !bool_decide_eq_true_2; [done | done |].
           by apply elem_of_cons; right.
        -- rewrite !bool_decide_eq_false_2; [done | done |].
           rewrite not_elem_of_cons. done.
Qed.

Lemma tiles_length p : 0 <= p_len p -> Z.of_nat (length (tiles p)) = p_len p.
Proof.
  intros H. unfold tiles. rewrite length_fmap, range_length. lia.
Qed.

(** A placement that fits covers as many tiles of the grid as it is
    long. *)
Lemma covering_sum g p :
  0 <= p_len p ->
  sum_with (fun c => b2z (covering g c p)) (grid_cells g)
  = p_len p * b2z (fits g p && all_unknown g p).
Proof.
  intros Hlen. unfold covering.
  destruct (fits g p) eqn:Ef; simpl.
  - destruct (all_unknown g p); simpl.
    + rewrite (sum_with_ext _ (fun c => b2z (bool_decide (c ∈ tiles p))))
        by (intros c _; unfold covers; by rewrite andb_true_r).
      rewrite sum_with_members.
      * rewrite tiles_length by done. lia.
      * apply grid_cells_NoDup.
      * apply tiles_NoDup.
      * intros t Ht. apply grid_cells_elem.
        apply fits_in_bounds in Ef. rewrite Forall_forall in Ef.
        by apply Ef.
    + rewrite (sum_with_ext _ (fun _ => 0))
        by (intros c _; by rewrite andb_false_r).
      rewrite sum_with_zero. lia.
  - rewrite sum_with_zero. lia.
Qed.

Lemma placements_len g len p : p ∈ placements g len -> p_len p = len.
Proof.
  unfold placements. rewrite list_elem_of_bind. intros (o & Hp & _).
  apply elem_of_cons in Hp as [-> | Hp]; [done |].
  by apply list_elem_of_singleton in Hp as ->.
Qed.

Lemma count_sum g len :
  0 <= len ->
  sum_with (fun c => count_if (covering g c) (placements g len))
    (grid_cells g)
  = len * valid_placements g len.
Proof.
  intros Hlen. unfold valid_placements.
  rewrite (sum_with_ext _
    (fun c => sum_with (fun p => b2z (covering g c p)) (placements g len)))
    by (intros; apply count_if_sum).
  rewrite sum_with_swap.
  rewrite (sum_with_ext _
    (fun p => len * b2z (fits g p && all_unknown g p))).
  - by rewrite sum_with_scale, count_if_sum.
  - intros p Hp. apply placements_len in Hp.
    rewrite covering_sum by lia. by rewrite Hp.
Qed.

Lemma total_sum g l :
  Forall (Z.le 0) l ->
  sum_with (placement_count g l) (grid_cells g)
  = sum_with (fun len => len * valid_placements g len) l.
Proof.
  intros Hl. unfold placement_count.
  rewrite (sum_with_swap
    (fun c len => count_if (covering g c) (placements g len))).
  apply sum_with_ext. intros len Hlen.
  rewrite Forall_forall in Hl. by apply count_sum, Hl.
Qed.

(** C9, as the code has it.  On a board without hits and with at least
    one remaining ship, where no ship length is negative and no tile is
    covered by 2^31 placements or more: every cell of the map is >= 0,
    and the sum of all cells is, for each remaining ship, its length
    times the number of valid placements of that length (both
    orientations), summed over the ships. *)
Theorem prob_map_sum g :
  well_formed g ->
  (forall c, mark g c <> Some "x"%string) ->
  ships g <> [] ->
  Forall (Z.le 0) (ships g) ->
  (forall c, in_bounds g c = true ->
     placement_count g (ships g) c < 2 ^ 31) ->
  exists pm,
    _gen_prob_map g = (set_prob_map pm g, Ok tt) /\
    Forall (Forall (Z.le 0)) pm /\
    sum_cells pm
    = sum_with (fun len => len * valid_placements g len) (ships g).
Proof.
  intros Hwf _ _ Hlens Hsmall.
  destruct (gen_prob_map_loops g Hwf) as (pm & E & Hs & Hcells).
  assert (forall c, in_bounds g c = true ->
            grid_at pm c = Some (placement_count g (ships g) c)) as Hexact.
  { intros c Hc. rewrite Hcells, loop_count_spec by done.
    rewrite wrap32_small; [done |].
    pose proof (placement_count_nonneg g (ships g) c).
    specialize (Hsmall c Hc). lia. }
  exists pm. split; [done |]. split.
  - destruct Hs as [Hlen Hrows]. rewrite Forall_forall in Hrows.
    apply Forall_lookup_2. intros i row Hrow.
    apply Forall_lookup_2. intros j v Hv.
    apply lookup_lt_Some in Hrow as Hi. apply lookup_lt_Some in Hv as Hj.
    rewrite (Hrows row) in Hj by (by eapply list_elem_of_lookup_2).
    assert (in_bounds g (Z.of_nat i, Z.of_nat j) = true) as Hc
      by (apply in_bounds_spec; simpl; lia).
    specialize (Hexact _ Hc). unfold grid_at in Hexact. simpl in Hexact.
    rewrite !Nat2Z.id, Hrow in Hexact. simpl in Hexact.
    rewrite Hv in Hexact. simplify_eq. apply placement_count_nonneg.
  - destruct Hwf as (Hw & Hh & _).
    rewrite (sum_cells_grid g pm (placement_count g (ships g))) by done.
    by apply total_sum.
Qed.

Lemma prob_map_sum_witness :
  exists pm,
    _gen_prob_map Scenario.three_by_three
      = (set_prob_map pm Scenario.three_by_three, Ok tt) /\
    Forall (Forall (Z.le 0)) pm /\
    sum_cells pm
    = sum_with (fun len => len * valid_placements Scenario.three_by_three len)
        (ships Scenario.three_by_three).
Proof.
  apply prob_map_sum.
  - apply (bool_decide_unpack _). by vm_compute.
  - intros c. unfold mark.
    destruct (in_bounds Scenario.three_by_three c) eqn:Hc; [| done].
    apply in_bounds_spec in Hc. simpl in Hc.
    destruct c as [x y]. simpl in Hc.
    assert (x = 0 \/ x = 1 \/ x = 2) as Hx by lia.
    assert (y = 0 \/ y = 1 \/ y = 2) as Hy by lia.
    destruct Hx as [-> | [-> | ->]], Hy as [-> | [-> | ->]]; by vm_compute.
  - done.
  - apply (bool_decide_unpack _). by vm_compute.
  - intros c Hc.
    apply in_bounds_spec in Hc. simpl in Hc.
    destruct c as [x y]. simpl in Hc.
    assert (x = 0 \/ x = 1 \/ x = 2) as Hx by lia.
    assert (y = 0 \/ y = 1 \/ y = 2) as Hy by lia.
    destruct Hx as [-> | [-> | ->]], Hy as [-> | [-> | ->]]; by vm_compute.
Defined.

(** C9 fails as stated on an empty board of three by three with one ship
    of length three: six placements are valid (three in each
    orientation), the cells sum to 18, and twice the number of valid
    placements is 12. *)
Lemma prob_map_sum_is_not_twice :
  exists pm,
    _gen_prob_map Scenario.three_by_three
      = (set_prob_map pm Scenario.three_by_three, Ok tt) /\
    (forall c, mark Scenario.three_by_three c <> Some "x"%string) /\
    ships Scenario.three_by_three = [3] /\
    valid_placements Scenario.three_by_three 3 = 6 /\
    sum_cells pm = 18 /\
    sum_cells pm
    <> sum_with (fun len => 2 * valid_placements Scenario.three_by_three len)
         (ships Scenario.three_by_three).
Proof.
  exists [[2; 2; 2]; [2; 2; 2]; [2; 2; 2]].
  split; [by vm_compute |]. split; [| by vm_compute].
  intros c. unfold mark.
  destruct (in_bounds Scenario.three_by_three c) eqn:Hc; [| done].
  apply in_bounds_spec in Hc. simpl in Hc.
  destruct c as [x y]. simpl in Hc.
  assert (x = 0 \/ x = 1 \/ x = 2) as Hx by lia.
  assert (y = 0 \/ y = 1 \/ y = 2) as Hy by lia.
  destruct Hx as [-> | [-> | ->]], Hy as [-> | [-> | ->]]; by vm_compute.
Qed.

(** ** Who removes coordinates from the hit memory

    [predict] at most reorders the hit memory, [update] only appends to
    it, and [sink] removes coordinates of its span only. *)

Lemma preserves_assign {X} (f : Battleship -> X)
    (h : Battleship -> Battleship) :
  (forall g, f (h g) = f g) -> preserves f (assign h).
Proof. intros H g. apply H. Qed.

Lemma preserves_prob_incr {X} (f : Battleship -> X) x y :
  (forall pm g, f (set_prob_map pm g) = f g) -> preserves f (prob_incr x y).
Proof.
  intros H g. unfold prob_incr. destruct (prob_map g) as [pm |]; [| done].
  destruct (_ <-? _ ;; _); simpl; [apply H | done].
Qed.

Lemma preserves_gen_prob_map {X} (f : Battleship -> X) :
  (forall pm g, f (set_prob_map pm g) = f g) -> preserves f _gen_prob_map.
Proof.
  intros H. unfold _gen_prob_map.
  apply preserves_bind; [apply preserves_self | intros g0].
  apply preserves_bind; [apply preserves_eval | intros zeros].
  apply preserves_bind; [by apply preserves_assign | intros _].
  apply preserves_bind; [apply preserves_self | intros g1].
  apply preserves_for_each. intros ship.
  apply preserves_bind; [apply preserves_self | intros g2].
  apply preserves_for_each. intros y.
  apply preserves_bind; [apply preserves_self | intros g3].
  apply preserves_for_each. intros x. unfold prob_origin.
  apply preserves_bind; [apply preserves_eval | intros valid].
  apply preserves_bind; [| intros _];
    apply preserves_when, preserves_for_each; intros k;
    by apply preserves_prob_incr.
Qed.

Lemma keeps_hits_preserves {A} (m : M A) : preserves hit_mem m -> keeps_hits m.
Proof. intros H g. by rewrite H. Qed.

Lemma keeps_hits_bind {A B} (m : M A) (k : A -> M B) :
  keeps_hits m -> (forall a, keeps_hits (k a)) -> keeps_hits (bind m k).
Proof.
  intros Hm Hk g. unfold bind. specialize (Hm g).
  destruct (m g) as [g1 [a | e]]; simpl in *; [| done].
  by rewrite Hk.
Qed.

Lemma keeps_hits_sort (key : Coord -> Z) :
  keeps_hits (assign (fun g => set_hit_mem (Py.sort_by key (hit_mem g)) g)).
Proof. intros g. simpl. apply sort_by_perm. Qed.

Lemma keeps_hits_candidates : keeps_hits hit_candidates.
Proof.
  unfold hit_candidates.
  apply keeps_hits_bind; [by apply keeps_hits_preserves | intros g0].
  destruct (length (hit_mem g0) =? 1)%nat; [by apply keeps_hits_preserves |].
  apply keeps_hits_bind; [by apply keeps_hits_preserves | intros first].
  apply keeps_hits_bind; [by apply keeps_hits_preserves | intros last'].
  destruct (first.1 =? last'.1).
  - apply keeps_hits_bind; [apply keeps_hits_sort | intros _].
    apply keeps_hits_bind; [by apply keeps_hits_preserves | intros lower].
    apply keeps_hits_bind; [by apply keeps_hits_preserves | intros upper].
    by apply keeps_hits_preserves.
  - apply keeps_hits_bind; [apply keeps_hits_sort | intros _].
    apply keeps_hits_bind; [by apply keeps_hits_preserves | intros lower].
    apply keeps_hits_bind; [by apply keeps_hits_preserves | intros upper].
    by apply keeps_hits_preserves.
Qed.

(** [predict] at most reorders the hit memory. *)
Lemma predict_keeps_hits r : keeps_hits (predict r).
Proof.
  unfold predict.
  apply keeps_hits_bind.
  - unfold choose_pred.
    apply keeps_hits_bind; [by apply keeps_hits_preserves | intros g0].
    destruct (length (hit_mem g0) =? 0)%nat.
    + apply keeps_hits_preserves.
      apply preserves_bind; [by apply preserves_gen_prob_map | done].
    + apply keeps_hits_bind; [apply keeps_hits_candidates | intros hm].
      by apply keeps_hits_preserves.
  - intros pred.
    apply keeps_hits_bind; [by apply keeps_hits_preserves | intros _].
    apply keeps_hits_bind; [by apply keeps_hits_preserves | intros _].
    apply keeps_hits_preserves. by apply preserves_board_set.
Qed.

(** [update] drops nothing from the hit memory. *)
Lemma update_keeps_hits res g c :
  c ∈ hit_mem g -> c ∈ hit_mem (update res g).1.
Proof.
  intros Hc. unfold update, bind, eval.
  destruct (prediction g) as [p | e]; [| done].
  pose proof (preserves_board_set hit_mem p.1 p.2 res
                (fun _ _ => eq_refl) g) as Hb.
  destruct (board_set p.1 p.2 res g) as [g1 [[] | e]]; simpl in *;
    [| by rewrite Hb].
  destruct (String.eqb res "x"); simpl.
  - rewrite Hb. apply elem_of_app. by left.
  - by rewrite Hb.
Qed.

Lemma remove_keeps_others (t c : Coord) l l' :
  Py.remove t l = Ok l' -> c <> t -> c ∈ l -> c ∈ l'.
Proof.
  revert l'. induction l as [| a l IH]; intros l' E Hne Hc; [done |].
  simpl in E. destruct (decide (a = t)) as [-> | Ha].
  - simplify_eq. apply elem_of_cons in Hc as [-> | Hc]; done.
  - destruct (Py.remove t l) as [l'' |] eqn:Er; [| done].
    simpl in E. simplify_eq.
    apply elem_of_cons in Hc as [-> | Hc].
    + by apply elem_of_cons; left.
    + apply elem_of_cons; right. by apply IH.
Qed.

Lemma sink_tile_keeps_others x y g c :
  c <> (x, y) -> c ∈ hit_mem g -> c ∈ hit_mem (sink_tile x y g).1.
Proof.
  intros Hne Hc. unfold sink_tile, bind, self.
  pose proof (preserves_board_set hit_mem x y "#"
                (fun _ _ => eq_refl) g) as Hb.
  destruct (board_set x y "#" g) as [g1 [[] | e]]; simpl in *;
    [| by rewrite Hb].
  unfold hit_mem_remove.
  destruct (Py.remove _ _) as [l' | e] eqn:Er; simpl.
  - pose proof (preserves_when hit_mem
                  (String.eqb (mode g1) "n")
                  (_clear_edges x y)
                  (preserves_clear_edges hit_mem x y (fun _ _ => eq_refl))
                  (set_hit_mem l' g1)) as Hw.
    rewrite Hw. simpl. apply (remove_keeps_others (x, y) c _ _ Er Hne).
    by rewrite Hb.
  - by rewrite Hb.
Qed.

Lemma sink_loop_keeps_others (l : list Coord) g c :
  c ∉ l -> c ∈ hit_mem g ->
  c ∈ hit_mem (for_each l (fun t => sink_tile t.1 t.2) g).1.
Proof.
  revert g. induction l as [| [x y] l IH]; intros g Hout Hc; [done |].
  apply not_elem_of_cons in Hout as [Hne Hout].
  simpl. unfold bind.
  pose proof (sink_tile_keeps_others x y g c Hne Hc) as Ht.
  destruct (sink_tile x y g) as [g1 [[] | e]]; simpl in *; [| done].
  by apply IH.
Qed.

(** [sink] removes from the hit memory only coordinates of its span. *)
Lemma sink_keeps_others sx sy ex ey g c :
  c ∉ span sx sy ex ey -> c ∈ hit_mem g ->
  c ∈ hit_mem (sink sx sy ex ey g).1.
Proof.
  intros Hout Hc.
  pose proof (sink_loop_keeps_others (span sx sy ex ey) g c Hout Hc) as Hl.
  unfold span, sink in *.
  destruct (sx =? ex); rewrite for_each_fmap in Hl; simpl in Hl.
  - destruct (Z.gtb_spec sy ey).
    + rewrite Z.min_r, Z.max_l in Hl by lia.
      unfold bind at 1 2.
      destruct (for_each _ _ g) as [g1 [[] | e]]; simpl in *; done.
    + rewrite Z.min_l, Z.max_r in Hl by lia.
      unfold bind at 1 2.
      destruct (for_each _ _ g) as [g1 [[] | e]]; simpl in *; done.
  - destruct (Z.gtb_spec sx ex).
    + rewrite Z.min_r, Z.max_l in Hl by lia.
      unfold bind at 1 2.
      destruct (for_each _ _ g) as [g1 [[] | e]]; simpl in *; done.
    + rewrite Z.min_l, Z.max_r in Hl by lia.
      unfold bind at 1 2.
      destruct (for_each _ _ g) as [g1 [[] | e]]; simpl in *; done.
Qed.

(** * Further properties of the code *)

(** ** The constructor *)

Lemma seqZ_split_at (n : Z) (pre : list Z) a rest :
  seqZ 0 n = pre ++ a :: rest -> a = Z.of_nat (length pre).
Proof.
  intros E.
  assert (seqZ 0 n !! length pre = Some a) as H
    by (rewrite E; apply list_lookup_middle; done).
  apply lookup_seqZ in H. lia.
Qed.

Lemma getitem_end {A} (l : list A) a :
  Py.getitem (l ++ [a]) (Z.of_nat (length l)) = Ok a.
Proof.
  apply getitem_nonneg; [lia |].
  rewrite Nat2Z.id. by apply list_lookup_middle.
Qed.

Lemma setitem_end {A} (l : list A) a b :
  Py.setitem (l ++ [a]) (Z.of_nat (length l)) b = Ok (l ++ [b]).
Proof.
  rewrite setitem_nonneg by (rewrite length_app; simpl; lia).
  rewrite Nat2Z.id. f_equal.
  rewrite insert_app_r_alt by lia. by rewrite Nat.sub_diag.
Qed.

Lemma replicate_snoc {A} n (a : A) : replicate n a ++ [a] = replicate (S n) a.
Proof. by rewrite replicate_S_end. Qed.

(** X1. The constructor never raises.  Its loops build [width] columns of
    [height] unknown tiles each (no column when [width] is not positive,
    empty columns when [height] is not positive), so the object they
    leave is [init]: on non-negative dimensions it is well formed, every
    tile of the grid is unknown, and the hit memory is empty. *)
Theorem constructor_builds_unknown_grid ships mode w h :
  __init__ ships mode w h = (init ships mode w h, Ok tt) /\
  hit_mem (init ships mode w h) = [] /\
  (0 <= w -> 0 <= h -> well_formed (init ships mode w h)) /\
  (forall c, in_bounds (init ships mode w h) c = true ->
     is_unknown (init ships mode w h) c = true).
Proof.
  set (g0 := mkBattleship ships mode w h [] [] None None None).
  set (full := replicate (Z.to_nat h) "."%string).
  split; [| split; [done | split; [apply init_well_formed |]]].
  - assert (hoare (fun g => g = g0)
              (g <- self ;;
               for_each (Py.range 0 (width g)) (fun x =>
                 _ <- board_append_column ;;
                 g <- self ;;
                 for_each (Py.range 0 (height g))
                   (fun y => column_append x ".")))
              (fun _ g => g = init ships mode w h)) as H.
    { apply hoare_self_bind. intros ? ->. simpl width.
      eapply hoare_conseq;
        [apply (hoare_for_each
                  (fun pre g =>
                     g = set_board (replicate (length pre) full) g0))
        | by intros g -> |].
      - intros pre x rest E. apply seqZ_split_at in E as ->.
        apply (hoare_bind _ _ _
          (fun _ g =>
             g = set_board (replicate (length pre) full ++ [[]]) g0)).
        { apply hoare_assign. by intros g ->. }
        intros u. apply hoare_self_bind. intros ? ->. simpl height.
        eapply hoare_conseq;
          [apply (hoare_for_each
                    (fun pre' g =>
                       g = set_board
                             (replicate (length pre) full
                              ++ [replicate (length pre') "."%string]) g0))
          | by intros g -> |].
        + intros pre' y rest' E'. intros g ->.
          exists tt. eexists. split; [| reflexivity].
          unfold column_append. simpl board.
          replace (Z.of_nat (length pre))
            with (Z.of_nat (length (replicate (length pre) full)))
            by (by rewrite length_replicate).
          rewrite getitem_end. simpl rbind. rewrite setitem_end.
          rewrite length_app. simpl length.
          by rewrite Nat.add_1_r, replicate_snoc.
        + intros u' g ->. simpl. f_equal.
          unfold Py.range. rewrite length_seqZ, Z.sub_0_r.
          fold full. rewrite length_app. simpl length.
          by rewrite Nat.add_1_r, replicate_snoc.
      - intros u g ->. unfold init, set_board, g0. simpl. f_equal.
        unfold Py.range. by rewrite length_seqZ, Z.sub_0_r. }
    destruct (H g0 eq_refl) as ([] & g' & E & ->). exact E.
  - intros c Hc. unfold is_unknown, mark. rewrite Hc.
    apply in_bounds_spec in Hc. simpl in Hc.
    apply bool_decide_eq_true. unfold grid_at, init. simpl.
    rewrite lookup_replicate_2 by lia. simpl.
    apply lookup_replicate_2. lia.
Qed.

(** ** Subscripts off the grid *)

Lemma norm_index_wrap len i :
  py_valid len i = true ->
  Py.norm_index len i = Some (Z.to_nat (py_wrap len i)) /\
  0 <= py_wrap len i < len.
Proof.
  unfold py_valid, py_wrap, Py.norm_index. intros H.
  apply andb_true_iff in H as [H1 H2].
  apply Z.leb_le in H1. apply Z.ltb_lt in H2.
  destruct (Z.ltb_spec i 0).
  - destruct (Z.leb_spec 0 i); [lia |]. simpl.
    destruct (Z.leb_spec (- len) i); [| lia]. simpl.
    split; [do 2 f_equal; lia | lia].
  - destruct (Z.leb_spec 0 i); [| lia].
    destruct (Z.ltb_spec i len); [| lia]. simpl. split; [done | lia].
Qed.

Lemma norm_index_invalid len i :
  py_valid len i = false -> Py.norm_index len i = None.
Proof.
  unfold py_valid, Py.norm_index. intros H.
  apply andb_false_iff in H.
  destruct (Z.leb_spec 0 i), (Z.ltb_spec i len), (Z.leb_spec (- len) i),
    (Z.ltb_spec i 0); simpl in *; try done; destruct H; done || lia.
Qed.

Lemma getitem_any {A} (l : list A) i :
  Py.getitem l i =
    if py_valid (Z.of_nat (length l)) i
    then Py.getitem l (py_wrap (Z.of_nat (length l)) i)
    else Raise IndexError.
Proof.
  unfold Py.getitem. destruct (py_valid _ i) eqn:E.
  - destruct (norm_index_wrap _ _ E) as [-> Hw].
    by rewrite (norm_index_nonneg _ _ Hw).
  - by rewrite norm_index_invalid.
Qed.

Lemma setitem_any {A} (l : list A) i a :
  Py.setitem l i a =
    if py_valid (Z.of_nat (length l)) i
    then Py.setitem l (py_wrap (Z.of_nat (length l)) i) a
    else Raise IndexError.
Proof.
  unfold Py.setitem. destruct (py_valid _ i) eqn:E.
  - destruct (norm_index_wrap _ _ E) as [-> Hw].
    by rewrite (norm_index_nonneg _ _ Hw).
  - by rewrite norm_index_invalid.
Qed.

Lemma shaped_row {A} w h (m : list (list A)) i row :
  shaped w h m -> Py.getitem m i = Ok row -> length row = Z.to_nat h.
Proof.
  intros [_ Hrows] H. unfold Py.getitem in H.
  destruct (Py.norm_index _ i) as [n |]; [| done].
  destruct (m !! n) as [r |] eqn:E; [| done]. simplify_eq.
  rewrite Forall_forall in Hrows. apply Hrows.
  by eapply list_elem_of_lookup_2.
Qed.

Lemma getitem_is_Ok {A} (l : list A) i :
  0 <= i < Z.of_nat (length l) -> exists a, Py.getitem l i = Ok a.
Proof.
  intros H. destruct (lookup_lt_is_Some_2 l (Z.to_nat i)) as [a Ha]; [lia |].
  exists a. apply getitem_nonneg; [lia | done].
Qed.

(** A subscript pair is accepted iff both subscripts are; it then denotes
    the wrapped position. *)
Lemma getitem2_any {A} w h (m : list (list A)) x y :
  0 <= w -> 0 <= h -> shaped w h m ->
  Py.getitem2 m x y =
    if py_valid w x && py_valid h y
    then Py.getitem2 m (py_wrap w x) (py_wrap h y)
    else Raise IndexError.
Proof.
  intros Hw Hh Hs. pose proof Hs as [Hlen _].
  unfold Py.getitem2. rewrite (getitem_any m x).
  replace (Z.of_nat (length m)) with w by lia.
  destruct (py_valid w x) eqn:Ex; [| done]. simpl.
  destruct (norm_index_wrap _ _ Ex) as [_ Hwx].
  destruct (getitem_is_Ok m (py_wrap w x)) as [row Hrow]; [lia |].
  rewrite Hrow. simpl.
  pose proof (shaped_row _ _ _ _ _ Hs Hrow) as Hrl.
  rewrite (getitem_any row y).
  by replace (Z.of_nat (length row)) with h by lia.
Qed.

Lemma setitem2_any {A} w h (m : list (list A)) x y v :
  0 <= w -> 0 <= h -> shaped w h m ->
  Py.setitem2 m x y v =
    if py_valid w x && py_valid h y
    then Py.setitem2 m (py_wrap w x) (py_wrap h y) v
    else Raise IndexError.
Proof.
  intros Hw Hh Hs. pose proof Hs as [Hlen _].
  unfold Py.setitem2. rewrite (getitem_any m x).
  replace (Z.of_nat (length m)) with w by lia.
  destruct (py_valid w x) eqn:Ex; [| done]. simpl.
  destruct (norm_index_wrap _ _ Ex) as [_ Hwx].
  destruct (getitem_is_Ok m (py_wrap w x)) as [row Hrow]; [lia |].
  rewrite Hrow. simpl.
  pose proof (shaped_row _ _ _ _ _ Hs Hrow) as Hrl.
  rewrite (setitem_any row y).
  replace (Z.of_nat (length row)) with h by lia.
  destruct (py_valid h y) eqn:Ey; [| done]. simpl.
  destruct (Py.setitem row (py_wrap h y) v) as [row' |]; [| done]. simpl.
  rewrite (setitem_any m x).
  replace (Z.of_nat (length m)) with w by lia. by rewrite Ex.
Qed.

Lemma py_wrap_in_bounds g x y :
  py_valid (width g) x = true -> py_valid (height g) y = true ->
  in_bounds g (py_wrap (width g) x, py_wrap (height g) y) = true.
Proof.
  intros Hx Hy. apply in_bounds_spec. simpl.
  destruct (norm_index_wrap _ _ Hx) as [_ ?].
  destruct (norm_index_wrap _ _ Hy) as [_ ?]. lia.
Qed.

Lemma board_set_any g x y v :
  well_formed g ->
  board_set x y v g =
    if py_valid (width g) x && py_valid (height g) y
    then board_set (py_wrap (width g) x) (py_wrap (height g) y) v g
    else (g, Raise IndexError).
Proof.
  intros (Hw & Hh & Hs). unfold board_set.
  rewrite (setitem2_any _ _ (board g) x y v Hw Hh Hs).
  by destruct (py_valid (width g) x && py_valid (height g) y).
Qed.

(** X2. [_clear_tile] at any coordinate pair of a well-formed board.  If
    either coordinate is not a subscript Python accepts ([-width <= x <
    width], [-height <= y < height]) it raises [IndexError] and changes
    nothing.  Otherwise it returns and acts on the tile the pair wraps
    to, possibly on the opposite border: a sunk tile stays sunk, any
    other mark becomes a miss, and no other tile changes. *)
Theorem clear_tile_any_coordinate g x y :
  well_formed g ->
  if py_valid (width g) x && py_valid (height g) y then
    let t := (py_wrap (width g) x, py_wrap (height g) y) in
    in_bounds g t = true /\
    exists g',
      _clear_tile x y g = (g', Ok tt) /\
      mark g' t =
        (if bool_decide (mark g t = Some "#"%string)
         then Some "#"%string else Some "o"%string) /\
      forall c, c <> t -> mark g' c = mark g c
  else _clear_tile x y g = (g, Raise IndexError).
Proof.
  intros Hwf. pose proof Hwf as (Hw & Hh & Hs).
  assert (_clear_tile x y g =
          if py_valid (width g) x && py_valid (height g) y
          then _clear_tile (py_wrap (width g) x) (py_wrap (height g) y) g
          else (g, Raise IndexError)) as E.
  { unfold _clear_tile, bind, eval, board_get.
    rewrite (getitem2_any _ _ (board g) x y Hw Hh Hs).
    destruct (py_valid (width g) x && py_valid (height g) y) eqn:Ev;
      [| done].
    destruct (Py.getitem2 _ _ _) as [c | e]; [| done].
    destruct (str_ne c "#"); [| done]. simpl.
    by rewrite (board_set_any g x y "o" Hwf), Ev. }
  rewrite E.
  destruct (py_valid (width g) x && py_valid (height g) y) eqn:Ev; [| done].
  apply andb_true_iff in Ev as [Ex Ey].
  pose proof (py_wrap_in_bounds g x y Ex Ey) as Hin.
  split; [done |].
  destruct (clear_tile_in_bounds g _ Hwf Hin)
    as (g' & E' & (_ & _ & _ & _ & _ & Hframe) & Hm).
  exists g'. split; [done |]. split; [done |].
  intros c Hc. apply Hframe. by rewrite list_elem_of_singleton.
Qed.

Lemma clear_tile_any_coordinate_witness :
  if py_valid (width Scenario.fresh) (-1)
     && py_valid (height Scenario.fresh) 4 then
    let t := (py_wrap (width Scenario.fresh) (-1),
              py_wrap (height Scenario.fresh) 4) in
    in_bounds Scenario.fresh t = true /\
    exists g',
      _clear_tile (-1) 4 Scenario.fresh = (g', Ok tt) /\
      mark g' t =
        (if bool_decide (mark Scenario.fresh t = Some "#"%string)
         then Some "#"%string else Some "o"%string) /\
      forall c, c <> t -> mark g' c = mark Scenario.fresh c
  else _clear_tile (-1) 4 Scenario.fresh
       = (Scenario.fresh, Raise IndexError).
Proof.
  apply clear_tile_any_coordinate.
  apply (bool_decide_unpack _). by vm_compute.
Defined.

(** ** What every game keeps *)

Lemma maintains_bind {A B} (P : Battleship -> Prop) (m : M A)
    (k : A -> M B) :
  maintains P m -> (forall a, maintains P (k a)) -> maintains P (bind m k).
Proof.
  intros Hm Hk g Hg. unfold bind. specialize (Hm g Hg).
  destruct (m g) as [g1 [a | e]]; simpl in *; [| done].
  by apply Hk.
Qed.

Lemma maintains_ret {A} (P : Battleship -> Prop) (a : A) :
  maintains P (ret a).
Proof. by intros g. Qed.

Lemma maintains_when (P : Battleship -> Prop) (b : bool) (m : M unit) :
  maintains P m -> maintains P (when b m).
Proof. destruct b; [done | intros _; apply maintains_ret]. Qed.

Lemma maintains_for_each {A} (P : Battleship -> Prop) (l : list A)
    (body : A -> M unit) :
  (forall a, maintains P (body a)) -> maintains P (for_each l body).
Proof.
  intros H. induction l as [| a l IH]; simpl.
  - apply maintains_ret.
  - apply maintains_bind; [apply H | done].
Qed.

(** A method that leaves ships, mode, dimensions and board alone keeps
    the invariant. *)
Lemma maintains_core {A} fleet md w h (m : M A) :
  preserves (fun g => (ships g, mode g, width g, height g, board g)) m ->
  maintains (game_inv fleet md w h) m.
Proof.
  intros Hp g Hg. specialize (Hp g). simpl in Hp.
  destruct (m g).1 as [s1 m1 w1 h1 b1 ? ? ? ?], g as [s0 m0 w0 h0 b0 ? ? ? ?].
  simpl in *. by simplify_eq.
Qed.

Lemma setitem2_keeps_shape {A} w h (m m' : list (list A)) x y v :
  shaped w h m -> Py.setitem2 m x y v = Ok m' -> shaped w h m'.
Proof.
  intros Hs E. pose proof Hs as [Hlen Hrows]. unfold Py.setitem2 in E.
  destruct (Py.getitem m x) as [row |] eqn:Er; [| done]. simpl in E.
  pose proof (shaped_row _ _ _ _ _ Hs Er) as Hrl.
  unfold Py.setitem in E.
  destruct (Py.norm_index _ y) as [j |]; [| done]. simpl in E.
  destruct (Py.norm_index _ x) as [i |]; [| done]. simplify_eq.
  split; [by rewrite length_insert |].
  apply Forall_insert; [done |]. by rewrite length_insert.
Qed.

Lemma maintains_board_set fleet md w h x y v :
  maintains (game_inv fleet md w h) (board_set x y v).
Proof.
  intros g Hg. unfold board_set.
  destruct (Py.setitem2 (board g) x y v) as [b |] eqn:E; [| done].
  destruct Hg as ((Hw & Hh & Hs) & Hrest). simpl.
  split; [| done]. split; [done |]. split; [done |].
  by eapply setitem2_keeps_shape.
Qed.

Lemma maintains_clear_edges fleet md w h x y :
  maintains (game_inv fleet md w h) (_clear_edges x y).
Proof.
  assert (forall a b, maintains (game_inv fleet md w h) (_clear_tile a b))
    as Htile.
  { intros a b. unfold _clear_tile.
    apply maintains_bind; [by apply maintains_core | intros c].
    apply maintains_when, maintains_board_set. }
  unfold _clear_edges.
  repeat (apply maintains_bind; [apply Htile | intros _]). apply Htile.
Qed.

Lemma remove_ship_sublist len l : remove_ship len l `sublist_of` l.
Proof.
  induction l as [| s l IH]; simpl; [done |].
  destruct (s =? len).
  - by apply sublist_cons.
  - by apply sublist_skip.
Qed.

Lemma maintains_predict fleet md w h r :
  maintains (game_inv fleet md w h) (predict r).
Proof.
  unfold predict. apply maintains_bind.
  - apply maintains_core. unfold choose_pred.
    apply preserves_bind; [apply preserves_self | intros g0].
    destruct (length (hit_mem g0) =? 0)%nat.
    + apply preserves_bind; [by apply preserves_gen_prob_map | done].
    + apply preserves_bind; [| done]. unfold hit_candidates.
      apply preserves_bind; [apply preserves_self | intros g1].
      destruct (length (hit_mem g1) =? 1)%nat; [done |].
      apply preserves_bind; [done | intros first].
      apply preserves_bind; [done | intros last'].
      destruct (first.1 =? last'.1);
        (apply preserves_bind; [by apply preserves_assign | intros _]);
        (apply preserves_bind; [done | intros lower]);
        (apply preserves_bind; [done | intros upper]); done.
  - intros pred.
    apply maintains_bind; [by apply maintains_core | intros _].
    apply maintains_bind; [by apply maintains_core | intros _].
    apply maintains_board_set.
Qed.

Lemma maintains_update fleet md w h res :
  maintains (game_inv fleet md w h) (update res).
Proof.
  unfold update.
  apply maintains_bind; [by apply maintains_core | intros p].
  apply maintains_bind; [apply maintains_board_set | intros _].
  apply maintains_when. by apply maintains_core.
Qed.

Lemma maintains_sink fleet md w h sx sy ex ey :
  maintains (game_inv fleet md w h) (sink sx sy ex ey).
Proof.
  assert (forall x y, maintains (game_inv fleet md w h) (sink_tile x y))
    as Htile.
  { intros x y. unfold sink_tile.
    apply maintains_bind; [apply maintains_board_set | intros _].
    apply maintains_bind.
    { apply maintains_core. by apply preserves_hit_mem_remove. }
    intros _. apply maintains_bind; [by apply maintains_core | intros g0].
    apply maintains_when, maintains_clear_edges. }
  unfold sink. apply maintains_bind.
  - destruct (sx =? ex).
    + destruct (sy >? ey);
        (apply maintains_bind; [by apply maintains_for_each | intros _]);
        apply maintains_ret.
    + destruct (sx >? ex);
        (apply maintains_bind; [by apply maintains_for_each | intros _]);
        apply maintains_ret.
  - intros sunk. apply maintains_bind.
    + intros g (Hwf & Hw & Hh & Hm & Hsub). simpl.
      split; [done |]. do 3 (split; [done |]).
      etrans; [apply remove_ship_sublist | done].
    + intros _. apply maintains_bind; [by apply maintains_core | intros g0].
      apply maintains_ret.
Qed.

Lemma maintains_turn fleet md w h r rep :
  maintains (game_inv fleet md w h) (turn r rep).
Proof.
  unfold turn. apply maintains_bind; [apply maintains_predict | intros _].
  destruct rep.
  - apply maintains_bind; [apply maintains_update | intros _].
    apply maintains_ret.
  - apply maintains_bind; [apply maintains_update | intros _].
    apply maintains_ret.
  - apply maintains_bind; [apply maintains_update | intros _].
    apply maintains_sink.
Qed.

(** X3. Whatever the players answer, and whether a turn returns or raises,
    the state of a game created on non-negative dimensions keeps the
    board a grid of those dimensions, keeps mode, width and height, and
    keeps the remaining ships a sublist of the fleet it was created
    with. *)
Theorem game_keeps_grid_and_fleet fleet md w h script :
  0 <= w -> 0 <= h ->
  game_inv fleet md w h (play script (init fleet md w h)).1.
Proof.
  intros Hw Hh.
  assert (maintains (game_inv fleet md w h) (play script)) as H.
  { induction script as [| [r rep] script IH]; simpl.
    - apply maintains_ret.
    - apply maintains_bind; [apply maintains_turn | intros over].
      destruct over; [apply maintains_ret | done]. }
  apply H. split; [by apply init_well_formed | done].
Qed.

Lemma game_keeps_grid_and_fleet_witness :
  game_inv [2; 2] "t" 4 2
    (play Scenario.side_by_side_script (init [2; 2] "t" 4 2)).1.
Proof. apply game_keeps_grid_and_fleet; lia. Defined.

(** ** When the game is over *)

Lemma turn_over r rep g g' :
  turn r rep g = (g', Ok true) ->
  ships g' = [] /\ exists t1 t2, rep = HitSunk t1 t2.
Proof.
  unfold turn, bind. destruct (predict r g) as [g1 [[] | e]]; [| done].
  destruct rep as [| | t1 t2].
  - destruct (update "o" g1) as [g2 [[] | e]]; [| done]. by intros [= ].
  - destruct (update "x" g1) as [g2 [[] | e]]; [| done]. by intros [= ].
  - destruct (update "x" g1) as [g2 [[] | e]]; [| done].
    pose proof (sink_ships t1.1 t1.2 t2.1 t2.2 g2) as Hs. intros E.
    rewrite E in Hs. destruct Hs as [_ Hover].
    symmetry in Hover. apply bool_decide_eq_true in Hover.
    split; [done |]. by exists t1, t2.
Qed.

(** X4. The loop of [main] is left through [game_over] only in a turn
    with a sink report, after turns that did not end the game, and the
    sink of that turn leaves no remaining ship; a miss or a hit without a
    sink never ends it.  The state is the one that turn leaves. *)
Theorem game_over_means_no_ships script g g' :
  play script g = (g', Ok true) ->
  ships g' = [] /\
  exists pre r t1 t2 post g1,
    script = pre ++ (r, HitSunk t1 t2) :: post /\
    play pre g = (g1, Ok false) /\
    turn r (HitSunk t1 t2) g1 = (g', Ok true).
Proof.
  revert g. induction script as [| [r rep] script IH]; intros g; simpl.
  - by intros [= ].
  - unfold bind. destruct (turn r rep g) as [g1 [over | e]] eqn:Et; [| done].
    destruct over.
    + intros [= <-].
      destruct (turn_over _ _ _ _ Et) as (Hs & t1 & t2 & ->).
      split; [done |]. by exists [], r, t1, t2, script, g.
    + intros E.
      destruct (IH g1 E) as (Hs & pre & r' & t1 & t2 & post & g2
                             & -> & Epre & Eturn).
      split; [done |].
      exists ((r, rep) :: pre), r', t1, t2, post, g2.
      split; [done |]. split; [| done].
      simpl. unfold bind. by rewrite Et.
Qed.

Lemma game_over_means_no_ships_witness :
  ships (play [(0%nat, Hit); (0%nat, HitSunk (1, 1) (2, 1))]
           (init [2] "t" 10 10)).1 = [] /\
  exists pre r t1 t2 post g1,
    [(0%nat, Hit); (0%nat, HitSunk (1, 1) (2, 1))]
      = pre ++ (r, HitSunk t1 t2) :: post /\
    play pre (init [2] "t" 10 10) = (g1, Ok false) /\
    turn r (HitSunk t1 t2) g1
      = ((play [(0%nat, Hit); (0%nat, HitSunk (1, 1) (2, 1))]
            (init [2] "t" 10 10)).1, Ok true).
Proof.
  apply (game_over_means_no_ships
           [(0%nat, Hit); (0%nat, HitSunk (1, 1) (2, 1))]
           (init [2] "t" 10 10)).
  by vm_compute.
Defined.

(** ** The order of the endpoints *)

(** X5. For endpoints that share a row or a column, [sink] does the same
    whichever endpoint is given first. *)
Theorem sink_endpoints_commute sx sy ex ey g :
  sx = ex \/ sy = ey ->
  sink sx sy ex ey g = sink ex ey sx sy g.
Proof.
  intros H. unfold sink.
  destruct (Z.eqb_spec sx ex) as [-> | Hne].
  - rewrite Z.eqb_refl.
    destruct (Z.gtb_spec sy ey), (Z.gtb_spec ey sy); try done; try lia.
    by replace ey with sy by lia.
  - destruct H as [? | ->]; [done |].
    destruct (Z.eqb_spec ex sx) as [? | _]; [done |].
    destruct (Z.gtb_spec sx ex), (Z.gtb_spec ex sx); try done; lia.
Qed.

Lemma sink_endpoints_commute_witness :
  sink 1 1 2 1 Scenario.length_two = sink 2 1 1 1 Scenario.length_two.
Proof. apply sink_endpoints_commute. by right. Defined.

(** ** A sink that goes through *)

Lemma sink_returns_after_loop sx sy ex ey g g1 :
  for_each (span sx sy ex ey) (fun c => sink_tile c.1 c.2) g = (g1, Ok tt) ->
  sink sx sy ex ey g =
    (set_ships
       (remove_ship (Z.of_nat (length (span sx sy ex ey))) (ships g1)) g1,
     Ok (bool_decide
           (remove_ship (Z.of_nat (length (span sx sy ex ey))) (ships g1)
            = []))).
Proof.
  assert (forall l : list Z, (length l =? 0)%nat = bool_decide (l = []))
    as Hempty by (by intros []).
  intros H. unfold sink.
  destruct (Z.eqb_spec sx ex) as [<- | Hne].
  - rewrite span_length_vertical. unfold span in H.
    rewrite Z.eqb_refl, for_each_fmap in H. simpl in H.
    destruct (Z.gtb_spec sy ey).
    + rewrite Z.min_r, Z.max_l in H by lia.
      unfold bind, assign, self, ret. rewrite H. simpl. rewrite Hempty.
      by replace (Z.max sy ey - Z.min sy ey + 1) with (sy - ey + 1) by lia.
    + rewrite Z.min_l, Z.max_r in H by lia.
      unfold bind, assign, self, ret. rewrite H. simpl. rewrite Hempty.
      by replace (Z.max sy ey - Z.min sy ey + 1) with (ey - sy + 1) by lia.
  - rewrite span_length_horizontal by done. unfold span in H.
    destruct (Z.eqb_spec sx ex) as [? | _]; [done |].
    rewrite for_each_fmap in H. simpl in H.
    destruct (Z.gtb_spec sx ex).
    + rewrite Z.min_r, Z.max_l in H by lia.
      unfold bind, assign, self, ret. rewrite H. simpl. rewrite Hempty.
      by replace (Z.max sx ex - Z.min sx ex + 1) with (sx - ex + 1) by lia.
    + rewrite Z.min_l, Z.max_r in H by lia.
      unfold bind, assign, self, ret. rewrite H. simpl. rewrite Hempty.
      by replace (Z.max sx ex - Z.min sx ex + 1) with (ex - sx + 1) by lia.
Qed.

(** X6. On a well-formed board, when every tile of the span is on the grid
    and in the hit memory (and, in mode "n", no tile of the span touches
    the border), [sink] returns: every tile of the span is marked sunk;
    in mode "n" every neighbour of the span is sunk or a miss, so none is
    left unknown; every other tile is as before; the hit memory has lost
    the tiles of the span and nothing else; the first ship of the span's
    length has left the list; and the value returned tells whether the
    list is now empty. *)
Theorem sink_sinks_span g sx sy ex ey :
  well_formed g ->
  Forall (fun c => in_bounds g c = true /\ c ∈ hit_mem g)
    (span sx sy ex ey) ->
  (mode g = "n"%string ->
   Forall (fun c => interior g c = true) (span sx sy ex ey)) ->
  exists g',
    sink sx sy ex ey g = (g', Ok (bool_decide (ships g' = []))) /\
    well_formed g' /\
    (forall c, c ∈ span sx sy ex ey -> mark g' c = Some "#"%string) /\
    (mode g = "n"%string ->
     forall p n, p ∈ span sx sy ex ey -> n ∈ neighbours p ->
       settled g' n /\ is_unknown g' n = false) /\
    (forall c,
       c ∉ span sx sy ex ey ->
       (mode g = "n"%string ->
        forall p, p ∈ span sx sy ex ey -> c ∉ neighbours p) ->
       mark g' c = mark g c) /\
    hit_mem g ≡ₚ span sx sy ex ey ++ hit_mem g' /\
    ships g' =
      remove_ship (Z.of_nat (length (span sx sy ex ey))) (ships g).
Proof.
  intros Hwf Hspan Hint.
  destruct (sink_loop (span sx sy ex ey) g Hwf (span_NoDup sx sy ex ey)
              Hspan Hint)
    as (g1 & E1 & (b & hm & Eg1) & Hwf1 & Hperm & Hsunk & Hnb & Hframe).
  exists (set_ships
            (remove_ship (Z.of_nat (length (span sx sy ex ey))) (ships g1))
            g1).
  split; [exact (sink_returns_after_loop _ _ _ _ _ _ E1) |].
  split; [done |]. split; [done |]. split.
  { intros Hn p n Hp Hn'. pose proof (Hnb Hn p n Hp Hn') as Hset.
    split; [done |]. unfold is_unknown.
    apply bool_decide_eq_false. intros Hu.
    change (mark g1 n = Some "."%string) in Hu.
    destruct Hset as [Hs | Hs]; rewrite Hs in Hu; done. }
  split; [done |]. split; [done |].
  simpl. by rewrite Eg1.
Qed.

Lemma sink_sinks_span_witness :
  exists g',
    sink 4 6 4 4 Scenario.column_of_three
      = (g', Ok (bool_decide (ships g' = []))) /\
    well_formed g' /\
    (forall c, c ∈ span 4 6 4 4 -> mark g' c = Some "#"%string) /\
    (mode Scenario.column_of_three = "n"%string ->
     forall p n, p ∈ span 4 6 4 4 -> n ∈ neighbours p ->
       settled g' n /\ is_unknown g' n = false) /\
    (forall c,
       c ∉ span 4 6 4 4 ->
       (mode Scenario.column_of_three = "n"%string ->
        forall p, p ∈ span 4 6 4 4 -> c ∉ neighbours p) ->
       mark g' c = mark Scenario.column_of_three c) /\
    hit_mem Scenario.column_of_three ≡ₚ span 4 6 4 4 ++ hit_mem g' /\
    ships g' =
      remove_ship (Z.of_nat (length (span 4 6 4 4)))
        (ships Scenario.column_of_three).
Proof.
  apply sink_sinks_span.
  - apply (bool_decide_unpack _). by vm_compute.
  - apply (bool_decide_unpack _). by vm_compute.
  - intros _. apply (bool_decide_unpack _). by vm_compute.
Defined.

(** ** Prediction without pending hits *)

Lemma max_of_lower z l : z <= Py.max_of z l.
Proof.
  unfold Py.max_of. revert z.
  induction l as [| a l IH]; intros z; simpl; [lia |].
  specialize (IH (Z.max z a)). lia.
Qed.

Lemma max_of_ge z l v : v ∈ z :: l -> v <= Py.max_of z l.
Proof.
  revert z. induction l as [| a l IH]; intros z Hv.
  - apply list_elem_of_singleton in Hv as ->. apply max_of_lower.
  - change (Py.max_of z (a :: l)) with (Py.max_of (Z.max z a) l).
    apply elem_of_cons in Hv as [-> | Hv].
    + pose proof (max_of_lower (Z.max z a) l). lia.
    + apply elem_of_cons in Hv as [-> | Hv].
      * pose proof (max_of_lower (Z.max z a) l). lia.
      * apply IH. by apply elem_of_cons; right.
Qed.

Lemma max_of_elem z l : Py.max_of z l ∈ z :: l.
Proof.
  revert z. induction l as [| a l IH]; intros z.
  - by apply elem_of_cons; left.
  - change (Py.max_of z (a :: l)) with (Py.max_of (Z.max z a) l).
    specialize (IH (Z.max z a)).
    apply elem_of_cons in IH as [-> | IH].
    + destruct (Z.max_spec z a) as [[_ ->] | [_ ->]].
      * apply elem_of_cons; right. by apply elem_of_cons; left.
      * by apply elem_of_cons; left.
    + apply elem_of_cons; right. by apply elem_of_cons; right.
Qed.

Lemma elem_of_grid (a : list (list Z)) v :
  v ∈ concat a <->
  exists (i j : nat) row, a !! i = Some row /\ row !! j = Some v.
Proof.
  rewrite list_elem_of_In, in_concat. split.
  - intros (row & Hrow & Hv).
    apply list_elem_of_In, list_elem_of_lookup in Hrow as [i Hi].
    apply list_elem_of_In, list_elem_of_lookup in Hv as [j Hj].
    by exists i, j, row.
  - intros (i & j & row & Hi & Hj). exists row.
    split; apply list_elem_of_In; by eapply list_elem_of_lookup_2.
Qed.

(** [np.max] is the greatest entry, and is an entry. *)
Lemma np_max_spec (a : list (list Z)) m :
  np_max a = Ok m ->
  m ∈ concat a /\ forall v, v ∈ concat a -> v <= m.
Proof.
  unfold np_max. destruct (concat a) as [| z l]; [done |].
  intros [= <-]. split; [apply max_of_elem | apply max_of_ge].
Qed.

(** [np.argwhere(a == v)] lists exactly the positions that hold [v]. *)
Lemma np_argwhere_spec (a : list (list Z)) v c :
  c ∈ np_argwhere_eq a v <->
  exists (i j : nat) row,
    c = (Z.of_nat i, Z.of_nat j) /\ a !! i = Some row /\ row !! j = Some v.
Proof.
  unfold np_argwhere_eq. rewrite list_elem_of_In, in_concat. split.
  - intros (l & Hl & Hc).
    apply list_elem_of_In, elem_of_lookup_imap_1 in Hl
      as (i & row & -> & Hrow).
    apply in_concat in Hc as (l' & Hl' & Hc).
    apply list_elem_of_In, elem_of_lookup_imap_1 in Hl'
      as (j & v' & -> & Hv').
    destruct (Z.eqb_spec v' v) as [-> | _]; [| done].
    destruct Hc as [<- | []]. by exists i, j, row.
  - intros (i & j & row & -> & Hrow & Hv).
    eexists. split.
    + apply list_elem_of_In. by apply (elem_of_lookup_imap_2 _ a row i).
    + apply in_concat. eexists. split.
      * apply list_elem_of_In. by apply (elem_of_lookup_imap_2 _ row v j).
      * simpl. rewrite Z.eqb_refl. by left.
Qed.

Lemma choice_elem {A} r (l : list A) :
  l <> [] -> exists a, Py.choice r l = Ok a /\ a ∈ l.
Proof.
  intros Hne. unfold Py.choice. destruct l as [| b l]; [done |].
  destruct (lookup_lt_is_Some_2 (b :: l) (r mod length (b :: l))%nat)
    as [a Ha]; [by apply Nat.mod_upper_bound |].
  rewrite Ha. exists a. split; [done |]. by eapply list_elem_of_lookup_2.
Qed.

Lemma choice_in {A} r (l : list A) a : Py.choice r l = Ok a -> a ∈ l.
Proof.
  unfold Py.choice. destruct l as [| b l]; [done |].
  destruct ((b :: l) !! _) as [a' |] eqn:E; [| done].
  intros [= <-]. by eapply list_elem_of_lookup_2.
Qed.

(** A tile that is not unknown is covered by no counted placement. *)
Lemma placement_count_known g l c :
  is_unknown g c = false -> placement_count g l c = 0.
Proof.
  intros Hc. unfold placement_count.
  rewrite (sum_with_ext _ (fun _ => 0)); [apply sum_with_zero |].
  intros len _. rewrite count_if_sum.
  rewrite (sum_with_ext _ (fun _ => 0)); [apply sum_with_zero |].
  intros p _. unfold covering, covers, all_unknown.
  destruct (decide (c ∈ tiles p)) as [Hin | Hout].
  - assert (forallb (is_unknown g) (tiles p) = false) as ->.
    { apply not_true_is_false. rewrite forallb_forall. intros H.
      apply list_elem_of_In in Hin. specialize (H c Hin). congruence. }
    by rewrite andb_false_r.
  - rewrite (bool_decide_eq_false_2 _ Hout). by rewrite andb_false_r.
Qed.

Lemma wrap32_zero : wrap32 0 = 0.
Proof. done. Qed.

(** X7. With no pending hit, on a well-formed board with at least one tile,
    [predict] returns: the tile it chooses is on the grid and holds a
    maximum of the probability map; it is marked "+" and no other tile
    changes.  When that maximum is positive the tile was unknown.  (When
    it is 0, every tile of the grid is a candidate, known or not.) *)
Theorem predict_picks_a_maximum g r :
  well_formed g -> 0 < width g -> 0 < height g -> hit_mem g = [] ->
  exists g' pm p m,
    predict r g = (g', Ok tt) /\
    prediction g' = Ok p /\
    in_bounds g p = true /\
    prob_map g' = Some pm /\
    grid_at pm p = Some m /\
    (forall c v, grid_at pm c = Some v -> v <= m) /\
    mark g' p = Some "+"%string /\
    (forall c, c <> p -> mark g' c = mark g c) /\
    (0 < m -> is_unknown g p = true).
Proof.
  intros Hwf Hw Hh Hmem.
  destruct (gen_prob_map_loops g Hwf) as (pm & E & Hs & Hcells).
  pose proof Hs as [Hlen Hrows]. rewrite Forall_forall in Hrows.
  assert (concat pm <> []) as Hne.
  { destruct (shaped_grid_at _ _ pm (0, 0) Hs) as [v Hv];
      [simpl; lia | simpl; lia |].
    unfold grid_at in Hv. simpl in Hv.
    change (Z.to_nat 0) with 0%nat in Hv.
    destruct (pm !! 0%nat) as [row |] eqn:Hrow; [| done]. simpl in Hv.
    intros Hnil.
    assert (v ∈ concat pm) as Hin
      by (apply elem_of_grid; by exists 0%nat, 0%nat, row).
    rewrite Hnil in Hin. by apply elem_of_nil in Hin. }
  destruct (np_max pm) as [m |] eqn:Em;
    [| unfold np_max in Em; by destruct (concat pm)].
  destruct (np_max_spec pm m Em) as [Hm_in Hm_max].
  assert (np_argwhere_eq pm m <> []) as Hargs.
  { apply elem_of_grid in Hm_in as (i & j & row & Hi & Hj).
    intros Hnil.
    assert ((Z.of_nat i, Z.of_nat j) ∈ np_argwhere_eq pm m) as Hin
      by (apply np_argwhere_spec; by exists i, j, row).
    rewrite Hnil in Hin. by apply elem_of_nil in Hin. }
  destruct (choice_elem r _ Hargs) as (p & Ep & Hp).
  apply np_argwhere_spec in Hp as (i & j & row & -> & Hi & Hj).
  apply lookup_lt_Some in Hi as Hi_lt. apply lookup_lt_Some in Hj as Hj_lt.
  rewrite (Hrows row) in Hj_lt by (by eapply list_elem_of_lookup_2).
  set (p := (Z.of_nat i, Z.of_nat j)) in *.
  assert (in_bounds g p = true) as Hin
    by (apply in_bounds_spec; simpl; lia).
  assert (grid_at pm p = Some m) as Hgrid.
  { unfold grid_at, p. simpl. rewrite !Nat2Z.id, Hi. done. }
  set (g2 := set_pred_y p.2 (set_pred_x p.1 (set_prob_map pm g))).
  destruct (board_set_in_bounds g2 p.1 p.2 "+" Hwf Hin)
    as (b & Eb & Hwfb & Hmark & Hother).
  exists (set_board b g2), pm, p, m.
  split; [| split; [done | split; [done | split; [done | split;
    [done | split; [| split; [done | split; [done |]]]]]]]].
  - unfold predict, choose_pred, bind, self, assign.
    rewrite Hmem. change (length (@nil Coord) =? 0)%nat with true.
    cbv beta iota. rewrite E.
    unfold eval. change (prob_map (set_prob_map pm g)) with (Some pm).
    cbv iota. rewrite Em. cbv [rbind]. rewrite Ep. exact Eb.
  - intros c v Hc. apply Hm_max. unfold grid_at in Hc.
    destruct (pm !! Z.to_nat c.1) as [row' |] eqn:Hrow'; [| done].
    apply elem_of_grid. by exists (Z.to_nat c.1), (Z.to_nat c.2), row'.
  - intros Hpos. destruct (is_unknown g p) eqn:Hu; [done |].
    rewrite Hcells, loop_count_spec in Hgrid by done.
    rewrite (placement_count_known _ _ _ Hu), wrap32_zero in Hgrid.
    simplify_eq; lia.
Qed.

Lemma predict_picks_a_maximum_witness :
  exists g' pm p m,
    predict 0 Scenario.fresh = (g', Ok tt) /\
    prediction g' = Ok p /\
    in_bounds Scenario.fresh p = true /\
    prob_map g' = Some pm /\
    grid_at pm p = Some m /\
    (forall c v, grid_at pm c = Some v -> v <= m) /\
    mark g' p = Some "+"%string /\
    (forall c, c <> p -> mark g' c = mark Scenario.fresh c) /\
    (0 < m -> is_unknown Scenario.fresh p = true).
Proof.
  apply predict_picks_a_maximum.
  - apply (bool_decide_unpack _). by vm_compute.
  - by vm_compute.
  - by vm_compute.
  - done.
Defined.

(** ** Prediction with pending hits *)

Lemma preserves_candidates {X} (f : Battleship -> X) :
  (forall l g, f (set_hit_mem l g) = f g) -> preserves f hit_candidates.
Proof.
  intros H. unfold hit_candidates.
  apply preserves_bind; [apply preserves_self | intros g1].
  destruct (length (hit_mem g1) =? 1)%nat; [done |].
  apply preserves_bind; [done | intros first].
  apply preserves_bind; [done | intros last'].
  destruct (first.1 =? last'.1);
    (apply preserves_bind; [by apply preserves_assign | intros _]);
    (apply preserves_bind; [done | intros lower]);
    (apply preserves_bind; [done | intros upper]); done.
Qed.

Lemma same_grid_mark g g' :
  (width g', height g', board g') = (width g, height g, board g) ->
  well_formed g ->
  well_formed g' /\ forall c, mark g' c = mark g c.
Proof.
  intros [= Hw Hh Hb] Hwf. split.
  - unfold well_formed in *. by rewrite Hw, Hh, Hb.
  - intros c. unfold mark, in_bounds. by rewrite Hw, Hh, Hb.
Qed.

Lemma is_run_positive g h d v :
  is_run g h d v -> 0 < v -> is_unknown g (h.1 + d.1, h.2 + d.2) = true.
Proof.
  intros (_ & Hrun & _) Hv. specialize (Hrun 1). rewrite !Z.mul_1_l in Hrun.
  apply Hrun. lia.
Qed.

(** The candidate mapping of [predict] when hits are pending, all on the
    grid: it is not empty, and each entry is a tile next to a pending hit
    with the run length of unknown tiles from that hit towards it. *)
Lemma hit_candidates_entries g :
  well_formed g ->
  hit_mem g <> [] ->
  Forall (fun h => in_bounds g h = true) (hit_mem g) ->
  exists hm,
    (hit_candidates g).2 = Ok hm /\
    hm <> [] /\
    forall k v, (k, v) ∈ hm ->
      exists h d,
        h ∈ hit_mem g /\
        d ∈ [(1, 0); (-1, 0); (0, 1); (0, -1)] /\
        k = (h.1 + d.1, h.2 + d.2) /\
        is_run g h d v.
Proof.
  intros Hwf Hne Hin.
  destruct (hit_mem g) as [| h0 rest] eqn:Emem; [done |].
  destruct rest as [| h1 rest].
  - apply Forall_cons in Hin as [Hh0 _]. destruct h0 as [x y].
    destruct (gen_hit_map_spec g x y Hwf Hh0)
      as (right & left & down & up & E & Hr & Hl & Hd & Hu).
    eexists. split.
    { unfold hit_candidates, bind, self, eval.
      rewrite Emem. simpl. rewrite Emem. simpl. exact E. }
    split; [done |].
    intros k v Hkv. exists (x, y).
    repeat (apply elem_of_cons in Hkv as [[= -> ->] | Hkv]).
    + exists (1, 0). split; [by apply elem_of_cons; left |].
      split; [by apply elem_of_cons; left |]. simpl. split; [| done].
      f_equal; lia.
    + exists (-1, 0). split; [by apply elem_of_cons; left |].
      split; [apply elem_of_cons; right; by apply elem_of_cons; left |].
      simpl. split; [| done]. f_equal; lia.
    + exists (0, 1). split; [by apply elem_of_cons; left |].
      split; [do 2 (apply elem_of_cons; right); by apply elem_of_cons; left |].
      simpl. split; [| done]. f_equal; lia.
    + exists (0, -1). split; [by apply elem_of_cons; left |].
      split; [do 3 (apply elem_of_cons; right); by apply elem_of_cons; left |].
      simpl. split; [| done]. f_equal; lia.
    + by apply elem_of_nil in Hkv.
  - rewrite <- Emem in Hin.
    destruct (hit_candidates_spec g Hwf) as
      (first & last' & lo & hi & v_lo & v_hi & _ & _ & Hlo & Hhi & Hcase);
      [rewrite Emem; simpl; lia | done |].
    rewrite <- Emem.
    destruct (bool_decide (first.1 = last'.1)).
    + destruct Hcase as (_ & Rhi & Rlo & ->).
      eexists. split; [done |]. split; [done |].
      intros k v Hkv.
      repeat (apply elem_of_cons in Hkv as [[= -> ->] | Hkv]).
      * exists hi, (0, 1). split; [done |].
        split; [do 2 (apply elem_of_cons; right); by apply elem_of_cons; left |].
        simpl. split; [| done]. f_equal; lia.
      * exists lo, (0, -1). split; [done |].
        split; [do 3 (apply elem_of_cons; right); by apply elem_of_cons; left |].
        simpl. split; [| done]. f_equal; lia.
      * by apply elem_of_nil in Hkv.
    + destruct Hcase as (_ & Rhi & Rlo & ->).
      eexists. split; [done |]. split; [done |].
      intros k v Hkv.
      repeat (apply elem_of_cons in Hkv as [[= -> ->] | Hkv]).
      * exists hi, (1, 0). split; [done |].
        split; [by apply elem_of_cons; left |].
        simpl. split; [| done]. f_equal; lia.
      * exists lo, (-1, 0). split; [done |].
        split; [apply elem_of_cons; right; by apply elem_of_cons; left |].
        simpl. split; [| done]. f_equal; lia.
      * by apply elem_of_nil in Hkv.
Qed.

Lemma dict_max_spec (d : Py.dict Coord Z) :
  d <> [] ->
  exists m,
    dict_max d = Ok m /\
    (exists k, (k, m) ∈ d) /\
    forall k v, (k, v) ∈ d -> v <= m.
Proof.
  intros Hne. unfold dict_max.
  destruct d as [| [k0 v0] d]; [done |].
  exists (Py.max_of v0 d.*2). split; [done |]. split.
  - pose proof (max_of_elem v0 d.*2) as Hin.
    change (v0 :: d.*2) with (((k0, v0) :: d).*2) in Hin.
    apply list_elem_of_fmap in Hin as ([k v] & Hv & Hin). simpl in Hv.
    exists k. by rewrite Hv.
  - intros k v Hkv. apply max_of_ge.
    change (v0 :: d.*2) with (((k0, v0) :: d).*2).
    apply list_elem_of_fmap. by exists (k, v).
Qed.

Lemma pred_choices_spec (d : Py.dict Coord Z) m k :
  k ∈ pred_choices d m <-> (k, m) ∈ d.
Proof.
  unfold pred_choices. rewrite list_elem_of_fmap. split.
  - intros ([k' v] & -> & Hin). apply list_elem_of_filter in Hin as [Hv Hin].
    simpl in *. by subst.
  - intros Hin. exists (k, m). split; [done |].
    by apply list_elem_of_filter.
Qed.

(** X8. With pending hits, all on the grid of a well-formed board, the
    choice of [predict] succeeds: the chosen tile is next to a pending
    hit and has the best score of the candidate mapping, the run length
    of unknown tiles from that hit towards it.  When the best score is
    positive the tile is an unknown tile of the grid, [predict] returns,
    marks it "+" and changes no other tile.  (When the best score is 0
    the tile chosen is not unknown, and may be off the grid.) *)
Theorem predict_extends_a_hit g r :
  well_formed g ->
  hit_mem g <> [] ->
  Forall (fun h => in_bounds g h = true) (hit_mem g) ->
  exists hm m p h d,
    (hit_candidates g).2 = Ok hm /\
    dict_max hm = Ok m /\
    (forall k v, (k, v) ∈ hm -> v <= m) /\
    (choose_pred r g).2 = Ok p /\
    (p, m) ∈ hm /\
    h ∈ hit_mem g /\
    d ∈ [(1, 0); (-1, 0); (0, 1); (0, -1)] /\
    p = (h.1 + d.1, h.2 + d.2) /\
    is_run g h d m /\
    (m = 0 -> is_unknown g p = false) /\
    (0 < m ->
     is_unknown g p = true /\
     exists g',
       predict r g = (g', Ok tt) /\
       prediction g' = Ok p /\
       mark g' p = Some "+"%string /\
       forall c, c <> p -> mark g' c = mark g c).
Proof.
  intros Hwf Hne Hin.
  destruct (hit_candidates_entries g Hwf Hne Hin) as (hm & Ehm & Hhm & Hent).
  destruct (dict_max_spec hm Hhm) as (m & Em & [k0 Hk0] & Hmax).
  assert (pred_choices hm m <> []) as Hch.
  { intros Hnil. apply pred_choices_spec in Hk0.
    rewrite Hnil in Hk0. by apply elem_of_nil in Hk0. }
  destruct (choice_elem r _ Hch) as (p & Ep & Hp).
  apply pred_choices_spec in Hp.
  destruct (Hent p m Hp) as (h & d & Hh & Hd & Hpd & Hrun).
  assert ((length (hit_mem g) =? 0)%nat = false) as Hlen
    by (apply Nat.eqb_neq; by destruct (hit_mem g)).
  destruct (hit_candidates g) as [g1 res] eqn:Ecand. simpl in Ehm. subst res.
  assert (choose_pred r g = (g1, Ok p)) as Echoose.
  { unfold choose_pred, bind, self. rewrite Hlen, Ecand.
    unfold eval. rewrite Em. cbv [rbind]. by rewrite Ep. }
  exists hm, m, p, h, d.
  split; [done |]. split; [done |]. split; [done |].
  split; [by rewrite Echoose |]. split; [done |]. split; [done |].
  split; [done |]. split; [done |]. split; [done |]. split.
  - intros ->. destruct Hrun as (_ & _ & Hstop).
    rewrite Z.add_0_l, !Z.mul_1_l in Hstop. by rewrite Hpd.
  - intros Hpos.
    pose proof (is_run_positive g h d m Hrun Hpos) as Hu.
    rewrite <- Hpd in Hu. split; [done |].
    assert (in_bounds g p = true) as Hpin.
    { unfold is_unknown in Hu. apply bool_decide_eq_true in Hu.
      by eapply mark_Some_in_bounds. }
    pose proof (preserves_candidates
                  (fun g => (width g, height g, board g))
                  (fun _ _ => eq_refl) g) as Hcore.
    rewrite Ecand in Hcore. simpl in Hcore.
    destruct (same_grid_mark g g1 Hcore Hwf) as [Hwf1 Hmark1].
    set (g2 := set_pred_y p.2 (set_pred_x p.1 g1)).
    assert (in_bounds g2 (p.1, p.2) = true) as Hpin2.
    { injection Hcore as Ew Eh _. destruct p. unfold in_bounds in *.
      simpl in *. by rewrite Ew, Eh. }
    destruct (board_set_in_bounds g2 p.1 p.2 "+" Hwf1 Hpin2)
      as (b & Eb & Hwfb & Hmark & Hother).
    exists (set_board b g2). split.
    { unfold predict, bind, assign. rewrite Echoose. exact Eb. }
    split; [by destruct p |]. split; [by destruct p |].
    intros c Hc. rewrite Hother by (by destruct p). apply Hmark1.
Qed.

Lemma predict_extends_a_hit_witness :
  exists hm m p h d,
    (hit_candidates Scenario.single_hit).2 = Ok hm /\
    dict_max hm = Ok m /\
    (forall k v, (k, v) ∈ hm -> v <= m) /\
    (choose_pred 0 Scenario.single_hit).2 = Ok p /\
    (p, m) ∈ hm /\
    h ∈ hit_mem Scenario.single_hit /\
    d ∈ [(1, 0); (-1, 0); (0, 1); (0, -1)] /\
    p = (h.1 + d.1, h.2 + d.2) /\
    is_run Scenario.single_hit h d m /\
    (m = 0 -> is_unknown Scenario.single_hit p = false) /\
    (0 < m ->
     is_unknown Scenario.single_hit p = true /\
     exists g',
       predict 0 Scenario.single_hit = (g', Ok tt) /\
       prediction g' = Ok p /\
       mark g' p = Some "+"%string /\
       forall c, c <> p -> mark g' c = mark Scenario.single_hit c).
Proof.
  apply predict_extends_a_hit.
  - apply (bool_decide_unpack _). by vm_compute.
  - by vm_compute.
  - apply (bool_decide_unpack _). by vm_compute.
Defined.

(** ** Bounds on the directional scores *)

Lemma is_run_last_on_grid g c d n :
  is_run g c d n -> 0 < n ->
  in_bounds g (c.1 + n * d.1, c.2 + n * d.2) = true.
Proof.
  intros (_ & Hrun & _) Hn. specialize (Hrun n).
  assert (is_unknown g (c.1 + n * d.1, c.2 + n * d.2) = true) as Hu
    by (apply Hrun; lia).
  unfold is_unknown in Hu. apply bool_decide_eq_true in Hu.
  by eapply mark_Some_in_bounds.
Qed.

Lemma is_run_first g c d n :
  is_run g c d n ->
  (0 < n <-> is_unknown g (c.1 + d.1, c.2 + d.2) = true).
Proof.
  intros Hrun. split; [by apply is_run_positive |].
  intros Hu. destruct Hrun as (Hn & _ & Hstop).
  destruct (decide (n = 0)) as [-> | ?]; [| lia].
  rewrite Z.add_0_l, !Z.mul_1_l in Hstop. congruence.
Qed.

(** X9. For a tile of the grid, each score of the hit map is at least 0 and
    at most the number of tiles between the tile and the border in that
    direction, and it is positive exactly when the adjacent tile in that
    direction is an unknown tile of the grid. *)
Theorem gen_hit_map_scores_bounded g tx ty :
  well_formed g -> in_bounds g (tx, ty) = true ->
  exists right left down up,
    _gen_hit_map g tx ty =
      Ok [((tx + 1, ty), right); ((tx - 1, ty), left);
          ((tx, ty + 1), down); ((tx, ty - 1), up)] /\
    (0 <= right <= width g - 1 - tx /\ 0 <= left <= tx /\
     0 <= down <= height g - 1 - ty /\ 0 <= up <= ty) /\
    (0 < right <-> is_unknown g (tx + 1, ty) = true) /\
    (0 < left <-> is_unknown g (tx - 1, ty) = true) /\
    (0 < down <-> is_unknown g (tx, ty + 1) = true) /\
    (0 < up <-> is_unknown g (tx, ty - 1) = true).
Proof.
  intros Hwf Hc.
  destruct (gen_hit_map_spec g tx ty Hwf Hc)
    as (right & left & down & up & E & Hr & Hl & Hd & Hu).
  exists right, left, down, up. split; [done |].
  apply in_bounds_spec in Hc as Hxy. simpl in Hxy.
  assert (forall d n, is_run g (tx, ty) d n ->
            0 <= n /\
            (0 < n ->
             0 <= tx + n * d.1 < width g /\ 0 <= ty + n * d.2 < height g))
    as Hbound.
  { intros d n Hrun. split; [by destruct Hrun |]. intros Hn.
    apply (is_run_last_on_grid g (tx, ty) d n Hrun) in Hn.
    by apply in_bounds_spec in Hn. }
  split.
  - destruct (Hbound _ _ Hr) as [? Br], (Hbound _ _ Hl) as [? Bl],
      (Hbound _ _ Hd) as [? Bd], (Hbound _ _ Hu) as [? Bu].
    simpl in *.
    repeat split; try done.
    + destruct (decide (right = 0)); [lia |]. specialize (Br ltac:(lia)). lia.
    + destruct (decide (left = 0)); [lia |]. specialize (Bl ltac:(lia)). lia.
    + destruct (decide (down = 0)); [lia |]. specialize (Bd ltac:(lia)). lia.
    + destruct (decide (up = 0)); [lia |]. specialize (Bu ltac:(lia)). lia.
  - pose proof (is_run_first _ _ _ _ Hr) as Fr.
    pose proof (is_run_first _ _ _ _ Hl) as Fl.
    pose proof (is_run_first _ _ _ _ Hd) as Fd.
    pose proof (is_run_first _ _ _ _ Hu) as Fu.
    simpl in *. rewrite !Z.add_0_r in *.
    replace (tx + -1) with (tx - 1) in Fl by lia.
    replace (ty + -1) with (ty - 1) in Fu by lia.
    done.
Qed.

Lemma gen_hit_map_scores_bounded_witness :
  exists right left down up,
    _gen_hit_map Scenario.single_hit 3 3 =
      Ok [((3 + 1, 3), right); ((3 - 1, 3), left);
          ((3, 3 + 1), down); ((3, 3 - 1), up)] /\
    (0 <= right <= width Scenario.single_hit - 1 - 3 /\ 0 <= left <= 3 /\
     0 <= down <= height Scenario.single_hit - 1 - 3 /\ 0 <= up <= 3) /\
    (0 < right <-> is_unknown Scenario.single_hit (3 + 1, 3) = true) /\
    (0 < left <-> is_unknown Scenario.single_hit (3 - 1, 3) = true) /\
    (0 < down <-> is_unknown Scenario.single_hit (3, 3 + 1) = true) /\
    (0 < up <-> is_unknown Scenario.single_hit (3, 3 - 1) = true).
Proof.
  apply gen_hit_map_scores_bounded.
  - apply (bool_decide_unpack _). by vm_compute.
  - by vm_compute.
Defined.

(** ** Recording a result *)

(** X10. [update] on a well-formed board, after a prediction [p].  If both
    coordinates of [p] are subscripts Python accepts, it returns: the
    tile [p] wraps to holds [res], no other tile changes, and [p] itself
    is appended to the hit memory exactly when [res] is "x".  Otherwise
    it raises [IndexError] and changes nothing. *)
Theorem update_records_result g res p :
  well_formed g -> prediction g = Ok p ->
  if py_valid (width g) p.1 && py_valid (height g) p.2 then
    let t := (py_wrap (width g) p.1, py_wrap (height g) p.2) in
    exists g',
      update res g = (g', Ok tt) /\
      mark g' t = Some res /\
      (forall c, c <> t -> mark g' c = mark g c) /\
      hit_mem g' = (if String.eqb res "x" then hit_mem g ++ [p]
                    else hit_mem g) /\
      ships g' = ships g
  else update res g = (g, Raise IndexError).
Proof.
  intros Hwf Hp. unfold update, bind, eval. rewrite Hp.
  rewrite (board_set_any g p.1 p.2 res Hwf).
  destruct (py_valid (width g) p.1 && py_valid (height g) p.2) eqn:Ev;
    [| done].
  apply andb_true_iff in Ev as [Ex Ey].
  pose proof (py_wrap_in_bounds g _ _ Ex Ey) as Hin.
  destruct (board_set_in_bounds g _ _ res Hwf Hin)
    as (b & Eb & _ & Hm & Hother).
  rewrite Eb. simpl.
  destruct (String.eqb res "x"); simpl; eexists; (split; [done |]);
    repeat split; done.
Qed.

Lemma update_records_result_witness :
  if py_valid (width (predict 0 Scenario.fresh).1) (4, 4).1
     && py_valid (height (predict 0 Scenario.fresh).1) (4, 4).2 then
    let t := (py_wrap (width (predict 0 Scenario.fresh).1) (4, 4).1,
              py_wrap (height (predict 0 Scenario.fresh).1) (4, 4).2) in
    exists g',
      update "x" (predict 0 Scenario.fresh).1 = (g', Ok tt) /\
      mark g' t = Some "x"%string /\
      (forall c, c <> t -> mark g' c = mark (predict 0 Scenario.fresh).1 c) /\
      hit_mem g' = (if String.eqb "x" "x"
                    then hit_mem (predict 0 Scenario.fresh).1 ++ [(4, 4)]
                    else hit_mem (predict 0 Scenario.fresh).1) /\
      ships g' = ships (predict 0 Scenario.fresh).1
  else update "x" (predict 0 Scenario.fresh).1
       = ((predict 0 Scenario.fresh).1, Raise IndexError).
Proof.
  apply update_records_result.
  - apply (bool_decide_unpack _). by vm_compute.
  - by vm_compute.
Defined.

(** ** The map looks only at which tiles are unknown *)

Lemma forallb_agree {A} (P Q : A -> bool) l :
  (forall a, P a = Q a) -> forallb P l = forallb Q l.
Proof.
  intros H. induction l as [| a l IH]; simpl; [done |]. by rewrite H, IH.
Qed.

Lemma placement_count_agree g1 g2 c :
  width g1 = width g2 -> height g1 = height g2 -> ships g1 = ships g2 ->
  (forall t, is_unknown g1 t = is_unknown g2 t) ->
  placement_count g1 (ships g1) c = placement_count g2 (ships g2) c.
Proof.
  intros Ew Eh Es Hu. unfold placement_count. rewrite Es.
  apply sum_with_ext. intros len _.
  unfold placements, grid_tiles. rewrite Ew, Eh.
  rewrite !count_if_sum. apply sum_with_ext. intros p _.
  unfold covering, fits, all_unknown.
  rewrite (forallb_agree (in_bounds g1) (in_bounds g2)).
  - by rewrite (forallb_agree (is_unknown g1) (is_unknown g2)).
  - intros t. unfold in_bounds. by rewrite Ew, Eh.
Qed.

Lemma shaped_agree {A} w h (m1 m2 : list (list A)) :
  0 <= w -> 0 <= h -> shaped w h m1 -> shaped w h m2 ->
  (forall x y, 0 <= x < w -> 0 <= y < h ->
     grid_at m1 (x, y) = grid_at m2 (x, y)) ->
  m1 = m2.
Proof.
  intros Hw Hh [L1 F1] [L2 F2] Hcells.
  apply list_eq_same_length with (n := Z.to_nat w); [done | done |].
  intros i col1 col2 Hi E1 E2.
  pose proof (Forall_lookup_1 _ _ _ _ F1 E1) as Lc1.
  pose proof (Forall_lookup_1 _ _ _ _ F2 E2) as Lc2.
  simpl in Lc1, Lc2.
  apply list_eq_same_length with (n := Z.to_nat h); [done | done |].
  intros j a b Hj Ea Eb.
  specialize (Hcells (Z.of_nat i) (Z.of_nat j) ltac:(lia) ltac:(lia)).
  unfold grid_at in Hcells. simpl in Hcells.
  rewrite !Nat2Z.id, E1, E2 in Hcells. simpl in Hcells.
  congruence.
Qed.

(** X11. Two well-formed boards of the same size with the same list of ships
    and the same unknown tiles of the grid get the same probability map:
    the map does not tell hits, misses, sunk tiles and other marks
    apart. *)
Theorem prob_map_ignores_known_marks g1 g2 :
  well_formed g1 -> well_formed g2 ->
  width g1 = width g2 -> height g1 = height g2 -> ships g1 = ships g2 ->
  Forall (fun t => is_unknown g1 t = is_unknown g2 t) (grid_cells g1) ->
  prob_map (_gen_prob_map g1).1 = prob_map (_gen_prob_map g2).1.
Proof.
  intros Hwf1 Hwf2 Ew Eh Es Hcells.
  assert (forall t, is_unknown g1 t = is_unknown g2 t) as Hu.
  { intros t. destruct (in_bounds g1 t) eqn:Hin.
    - rewrite Forall_forall in Hcells. apply Hcells.
      by apply grid_cells_elem.
    - rewrite (is_unknown_off_grid g1) by done.
      rewrite (is_unknown_off_grid g2); [done |].
      unfold in_bounds in *. by rewrite <- Ew, <- Eh. }
  destruct (gen_prob_map_loops g1 Hwf1) as (pm1 & E1 & S1 & C1).
  destruct (gen_prob_map_loops g2 Hwf2) as (pm2 & E2 & S2 & C2).
  rewrite E1, E2. simpl. f_equal.
  destruct Hwf1 as (Hw & Hh & _).
  rewrite <- Ew, <- Eh in S2.
  apply (shaped_agree _ _ _ _ Hw Hh S1 S2). intros x y Hx Hy.
  assert (in_bounds g1 (x, y) = true) as Hin1
    by (apply in_bounds_spec; simpl; lia).
  assert (in_bounds g2 (x, y) = true) as Hin2
    by (apply in_bounds_spec; simpl; lia).
  rewrite C1, C2 by done.
  rewrite !loop_count_spec.
  by rewrite (placement_count_agree g1 g2 (x, y) Ew Eh Es Hu).
Qed.

Lemma prob_map_ignores_known_marks_witness :
  prob_map
    (_gen_prob_map (Scenario.after (turn 0 Hit) Scenario.three_by_three)).1 =
  prob_map
    (_gen_prob_map (Scenario.after (turn 0 Miss) Scenario.three_by_three)).1.
Proof.
  apply prob_map_ignores_known_marks.
  - apply (bool_decide_unpack _). by vm_compute.
  - apply (bool_decide_unpack _). by vm_compute.
  - by vm_compute.
  - by vm_compute.
  - by vm_compute.
  - apply (bool_decide_unpack _). by vm_compute.
Defined.

(** ** Clearing edges at the border *)

Lemma clear_tile_valid_step g n :
  well_formed g ->
  py_valid (width g) n.1 = true -> py_valid (height g) n.2 = true ->
  exists g',
    _clear_tile n.1 n.2 g = (g', Ok tt) /\ board_step [wrapped g n] g g'.
Proof.
  intros Hwf Hx Hy. pose proof Hwf as (Hw & Hh & Hs).
  assert (_clear_tile n.1 n.2 g =
          _clear_tile (wrapped g n).1 (wrapped g n).2 g) as E.
  { unfold _clear_tile, bind, eval, board_get.
    rewrite (getitem2_any _ _ (board g) n.1 n.2 Hw Hh Hs), Hx, Hy.
    simpl.
    destruct (Py.getitem2 _ _ _) as [c | e]; [| done].
    destruct (str_ne c "#"); [| done]. simpl.
    by rewrite (board_set_any g n.1 n.2 "o" Hwf), Hx, Hy. }
  rewrite E.
  destruct (clear_tile_in_bounds g (wrapped g n) Hwf
              (py_wrap_in_bounds g _ _ Hx Hy)) as (g' & E' & Hstep & _).
  by exists g'.
Qed.

Lemma clear_tile_invalid g x y :
  well_formed g ->
  py_valid (width g) x && py_valid (height g) y = false ->
  _clear_tile x y g = (g, Raise IndexError).
Proof.
  intros (Hw & Hh & Hs) Ev. unfold _clear_tile, bind, eval, board_get.
  by rewrite (getitem2_any _ _ (board g) x y Hw Hh Hs), Ev.
Qed.

(** X12. [_clear_edges] at a tile [(x, y)] of a well-formed grid.  At the
    right border it raises [IndexError] at once and changes nothing.  At
    the bottom border (and not the right one) it raises [IndexError]
    after its first two calls: only the tiles to the right and to the
    left have been cleared.  Everywhere else it returns, and the tiles it
    has cleared are the eight neighbours with negative subscripts
    wrapped: at the left or top border these are tiles of the opposite
    border.  Every cleared tile ends up sunk or a miss, sunk tiles stay
    sunk, and no other tile changes. *)
Theorem clear_edges_on_grid g x y :
  well_formed g -> in_bounds g (x, y) = true ->
  if x + 1 <? width g then
    if y + 1 <? height g then
      exists g',
        _clear_edges x y g = (g', Ok tt) /\
        board_step (wrapped g <$> neighbours (x, y)) g g'
    else
      exists g',
        _clear_edges x y g = (g', Raise IndexError) /\
        board_step [wrapped g (x + 1, y); wrapped g (x - 1, y)] g g'
  else _clear_edges x y g = (g, Raise IndexError).
Proof.
  intros Hwf Hc. apply in_bounds_spec in Hc as Hxy. simpl in Hxy.
  destruct (Z.ltb_spec (x + 1) (width g)) as [Hx | Hx].
  - destruct (Z.ltb_spec (y + 1) (height g)) as [Hy | Hy].
    + rewrite clear_edges_for_each.
      assert (forall n, n ∈ neighbours (x, y) ->
                py_valid (width g) n.1 = true /\
                py_valid (height g) n.2 = true) as Hvalid.
      { intros n Hn. unfold neighbours in Hn. simpl in Hn.
        unfold py_valid.
        rewrite !andb_true_iff, !Z.leb_le, !Z.ltb_lt.
        repeat (apply elem_of_cons in Hn as [-> | Hn]; [simpl; lia |]).
        by apply elem_of_nil in Hn. }
      assert (hoare (board_step (wrapped g <$> []) g)
                (for_each (neighbours (x, y))
                   (fun n => _clear_tile n.1 n.2))
                (fun _ => board_step (wrapped g <$> neighbours (x, y)) g))
        as H.
      { apply (hoare_for_each
                 (fun pre => board_step (wrapped g <$> pre) g)).
        intros pre n rest E g1 Hstep.
        assert (n ∈ neighbours (x, y)) as Hn.
        { rewrite E. apply elem_of_app. right. by apply elem_of_cons; left. }
        destruct (Hvalid n Hn) as [Vx Vy].
        pose proof Hstep as ([b ->] & Hwf1 & _).
        destruct (clear_tile_valid_step (set_board b g) n Hwf1 Vx Vy)
          as (g2 & E2 & Hstep2).
        exists tt, g2. split; [done |].
        rewrite fmap_app. by eapply board_step_trans. }
      destruct (H g (board_step_refl g Hwf)) as ([] & g' & E & Hstep).
      by exists g'.
    + assert (py_valid (width g) (x + 1) = true) as V1.
      { unfold py_valid. rewrite andb_true_iff, Z.leb_le, Z.ltb_lt. lia. }
      assert (py_valid (width g) (x - 1) = true) as V2.
      { unfold py_valid. rewrite andb_true_iff, Z.leb_le, Z.ltb_lt. lia. }
      assert (py_valid (height g) y = true) as V3.
      { unfold py_valid. rewrite andb_true_iff, Z.leb_le, Z.ltb_lt. lia. }
      destruct (clear_tile_valid_step g (x + 1, y) Hwf V1 V3)
        as (g1 & E1 & Hstep1).
      pose proof Hstep1 as ([b1 ->] & Hwf1 & _).
      destruct (clear_tile_valid_step (set_board b1 g) (x - 1, y) Hwf1 V2 V3)
        as (g2 & E2 & Hstep2).
      pose proof Hstep2 as ([b2 ->] & Hwf2 & _).
      exists (set_board b2 (set_board b1 g)). split.
      * unfold _clear_edges. unfold bind at 1. simpl in E1. rewrite E1.
        unfold bind at 1. simpl in E2. rewrite E2.
        unfold bind at 1.
        rewrite (clear_tile_invalid _ x (y + 1) Hwf2); [done |].
        apply andb_false_iff. right. unfold py_valid.
        apply andb_false_iff. right. apply Z.ltb_ge. simpl. lia.
      * by apply (board_step_trans [_] [_] _ _ _ Hstep1).
  - unfold _clear_edges. unfold bind at 1.
    rewrite (clear_tile_invalid _ (x + 1) y Hwf); [done |].
    apply andb_false_iff. left. unfold py_valid.
    apply andb_false_iff. right. apply Z.ltb_ge. lia.
Qed.

Lemma clear_edges_on_grid_witness :
  if 0 + 1 <? width Scenario.fresh then
    if 4 + 1 <? height Scenario.fresh then
      exists g',
        _clear_edges 0 4 Scenario.fresh = (g', Ok tt) /\
        board_step (wrapped Scenario.fresh <$> neighbours (0, 4))
          Scenario.fresh g'
    else
      exists g',
        _clear_edges 0 4 Scenario.fresh = (g', Raise IndexError) /\
        board_step [wrapped Scenario.fresh (0 + 1, 4);
                    wrapped Scenario.fresh (0 - 1, 4)] Scenario.fresh g'
  else _clear_edges 0 4 Scenario.fresh = (Scenario.fresh, Raise IndexError).
Proof.
  apply clear_edges_on_grid.
  - apply (bool_decide_unpack _). by vm_compute.
  - by vm_compute.
Defined.

(** ** What happens to the hit memory *)

(** X13. Whether they return or raise: [predict] at most reorders the hit
    memory, [update] drops no coordinate from it, and [sink] drops only
    coordinates of its span. *)
Theorem hit_memory_shrinks_only_in_sink r res sx sy ex ey g :
  hit_mem (predict r g).1 ≡ₚ hit_mem g /\
  (forall c, c ∈ hit_mem g -> c ∈ hit_mem (update res g).1) /\
  (forall c, c ∈ hit_mem g -> c ∉ span sx sy ex ey ->
     c ∈ hit_mem (sink sx sy ex ey g).1).
Proof.
  split; [apply predict_keeps_hits |].
  split; [intros c; apply update_keeps_hits |].
  intros c Hc Hout. by apply sink_keeps_others.
Qed.

(** ** Ships the grid has no room for *)

Lemma count_if_none {A} (P : A -> bool) l :
  (forall a, a ∈ l -> P a = false) -> count_if P l = 0.
Proof.
  intros H. rewrite count_if_sum.
  rewrite (sum_with_ext _ (fun _ => 0)); [apply sum_with_zero |].
  intros a Ha. by rewrite (H a Ha).
Qed.

Lemma sum_with_filter {A} (F : A -> Z) (P : A -> bool) l :
  (forall a, a ∈ l -> P a = false -> F a = 0) ->
  sum_with F (filter (fun a => P a = true) l) = sum_with F l.
Proof.
  induction l as [| a l IH]; intros H; [done |].
  rewrite filter_cons. simpl.
  assert (sum_with F (filter (fun a => P a = true) l) = sum_with F l) as E.
  { apply IH. intros b Hb. apply H. by apply elem_of_cons; right. }
  destruct (decide (P a = true)) as [Hp | Hp]; simpl; rewrite E; [done |].
  rewrite (H a); [done | by apply elem_of_cons; left |].
  by destruct (P a).
Qed.

Lemma covering_needs_room g c p :
  covering g c p = true -> placeable g (p_len p) = true.
Proof.
  unfold covering, fits, covers, tiles, Py.range, placeable.
  intros H. apply andb_true_iff in H as [H _].
  apply andb_true_iff in H as [Hfit Hcov].
  apply bool_decide_eq_true in Hcov.
  apply list_elem_of_fmap in Hcov as (k & _ & Hk).
  apply elem_of_seqZ in Hk.
  rewrite forallb_forall in Hfit.
  assert (forall j, 0 <= j < p_len p ->
            in_bounds g (shifted (p_dir p) (p_origin p) j) = true) as Hin.
  { intros j Hj. apply Hfit. apply list_elem_of_In.
    apply list_elem_of_fmap. exists j. split; [done |].
    apply elem_of_seqZ. lia. }
  pose proof (Hin 0 ltac:(lia)) as H0.
  pose proof (Hin (p_len p - 1) ltac:(lia)) as H1.
  apply in_bounds_spec in H0, H1.
  apply andb_true_iff. split; [apply Z.ltb_lt; lia |].
  apply orb_true_iff.
  destruct (p_dir p); simpl in H0, H1;
    [left | right]; apply Z.leb_le; lia.
Qed.

(** X14. A ship whose length is not positive, or exceeds both the width and
    the height, adds nothing to the probability map: the map is the one
    built for the list of ships without such lengths. *)
Theorem prob_map_skips_unplaceable_ships g :
  well_formed g ->
  prob_map (_gen_prob_map g).1 =
  prob_map
    (_gen_prob_map
       (set_ships (filter (fun len => placeable g len = true) (ships g)) g)).1.
Proof.
  intros Hwf.
  set (g' := set_ships (filter (fun len => placeable g len = true) (ships g)) g).
  assert (well_formed g') as Hwf' by exact Hwf.
  destruct (gen_prob_map_loops g Hwf) as (pm1 & E1 & S1 & C1).
  destruct (gen_prob_map_loops g' Hwf') as (pm2 & E2 & S2 & C2).
  rewrite E1, E2. simpl. f_equal.
  destruct Hwf as (Hw & Hh & _).
  apply (shaped_agree _ _ _ _ Hw Hh S1 S2). intros x y Hx Hy.
  assert (in_bounds g (x, y) = true) as Hin
    by (apply in_bounds_spec; simpl; lia).
  rewrite C1 by done. rewrite (C2 (x, y) Hin).
  rewrite !loop_count_spec. do 2 f_equal.
  change (placement_count g' (ships g') (x, y))
    with (placement_count g
            (filter (fun len => placeable g len = true) (ships g)) (x, y)).
  unfold placement_count. symmetry.
  apply (sum_with_filter _ (placeable g)).
  intros len _ Hbad. apply count_if_none. intros p Hp.
  destruct (covering g (x, y) p) eqn:Hcov; [| done].
  apply covering_needs_room in Hcov.
  rewrite (placements_len _ _ _ Hp) in Hcov. congruence.
Qed.

Lemma prob_map_skips_unplaceable_ships_witness :
  prob_map (_gen_prob_map (init [3; 0; 4; -2; 2] "n" 3 3)).1 =
  prob_map
    (_gen_prob_map
       (set_ships
          (filter (fun len => placeable (init [3; 0; 4; -2; 2] "n" 3 3) len
                              = true)
             (ships (init [3; 0; 4; -2; 2] "n" 3 3)))
          (init [3; 0; 4; -2; 2] "n" 3 3))).1.
Proof.
  apply prob_map_skips_unplaceable_ships.
  apply (bool_decide_unpack _). by vm_compute.
Defined.
